(** * QSymm: rotation and reflection operators on an angular-momentum multiplet

    Shallow embedding of the class [SU] of [SU.ipynb] (generator matrices
    [Lx], [Ly], [Lz], reference reflection [SigmaXY], [gen_op], [_rotation],
    [_reflection]) and of the notebook's second cell (the group D2 on the D
    term), with the properties its description states and further ones read
    off the code.

    The arithmetic of the notebook is NumPy's.  The embedding is written once
    over an interface [Float64] of the scalar operations the code uses, and
    read at two instances: IEEE binary64 (Rocq's primitive floats, which
    evaluate, including NaN) and exact real arithmetic (Stdlib's [R], the
    idealisation in which the algebraic laws are proved).  LAPACK's
    eigensolvers and the complex exponential of libm are parameters of the
    embedding. *)

From Stdlib Require Import Floats.
From Stdlib Require Import ZArith List String Bool Lia Permutation.
From Stdlib Require Import Reals Lra Psatz Classical_Prop.
Import ListNotations.

Set Implicit Arguments.

(** ** Scalars: the operations of a NumPy float64 *)

Class Float64 (F : Type) : Type := {
  of_Z  : Z -> F;              (* conversion of a Python int *)
  fadd  : F -> F -> F;
  fsub  : F -> F -> F;
  fmul  : F -> F -> F;
  fdiv  : F -> F -> F;
  fneg  : F -> F;
  fabs  : F -> F;              (* np.abs *)
  fsqrt : F -> F;              (* np.sqrt *)
  fltb  : F -> F -> bool;      (* <  *)
  fleb  : F -> F -> bool;      (* <= *)
  fpi   : F;                   (* np.pi *)
  to_int : F -> option Z       (* int(x): None when x is infinite or NaN *)
}.

(** complex128: a pair of float64 *)
Record complex (F : Type) : Type := mkC { re : F; im : F }.
Arguments mkC {F} re im.
Arguments re {F} c.
Arguments im {F} c.

(** 2-D arrays are read through their entries; their side is carried by the
    operations.  1-D arrays are lists. *)
Definition matrix (A : Type) : Type := nat -> nat -> A.

(** Python exceptions the code can raise *)
Inductive exn : Type :=
| AssertionError
| TypeError
| OverflowError
| LinAlgError.

(** The value handed to [SU(L)]: a Python int or a Python float *)
Inductive pynum (F : Type) : Type :=
| PyInt (z : Z)
| PyFloat (x : F).
Arguments PyInt {F} z.
Arguments PyFloat {F} x.

(** What [gen_op] returns: a matrix, or [None] after printing a message *)
Inductive retval (F : Type) : Type :=
| RetMatrix (m : matrix (complex F))
| RetNone (printed : string).
Arguments RetMatrix {F} m.
Arguments RetNone {F} printed.

Definition range (a b : Z) : list Z :=
  map (fun i => (a + Z.of_nat i)%Z) (seq 0 (Z.to_nat (b - a))).

Section NumPy.
Context {F : Type} {ops : Float64 F}.

Definition f0 : F := of_Z 0.
Definition f1 : F := of_Z 1.
Definition fhalf : F := fdiv (of_Z 1) (of_Z 2).          (* 0.5 *)

(** *** complex arithmetic, as NumPy's loops compute it *)
Definition cof (x : F) : complex F := mkC x f0.            (* x + 0j *)
Definition cofZ (z : Z) : complex F := cof (of_Z z).
Definition cadd (a b : complex F) : complex F :=
  mkC (fadd (re a) (re b)) (fadd (im a) (im b)).
Definition cmul (a b : complex F) : complex F :=
  mkC (fsub (fmul (re a) (re b)) (fmul (im a) (im b)))
      (fadd (fmul (re a) (im b)) (fmul (im a) (re b))).
Definition csub (a b : complex F) : complex F :=
  mkC (fsub (re a) (re b)) (fsub (im a) (im b)).
Definition cconj (a : complex F) : complex F := mkC (re a) (fneg (im a)).
Definition cabs (a : complex F) : F :=
  fsqrt (fadd (fmul (re a) (re a)) (fmul (im a) (im a))).
Definition c0 : complex F := cof f0.
Definition c1 : complex F := cof f1.

(** *** 1-D arrays *)
Definition np_sum (v : list F) : F := fold_left fadd v f0.
Definition np_dot (a b : list F) : F :=
  np_sum (map (fun p => fmul (fst p) (snd p)) (combine a b)).
Definition vscale_div (v : list F) (s : F) : list F := map (fun a => fdiv a s) v.
Definition vneg (v : list F) : list F := map fneg v.
Definition vsquare (v : list F) : list F := map (fun a => fmul a a) v.
Definition item (v : list F) (i : nat) : F := nth i v f0.
Definition np_cross (a b : list F) : list F :=
  [ fsub (fmul (item a 1) (item b 2)) (fmul (item a 2) (item b 1));
    fsub (fmul (item a 2) (item b 0)) (fmul (item a 0) (item b 2));
    fsub (fmul (item a 0) (item b 1)) (fmul (item a 1) (item b 0)) ].

(** *** 2-D arrays *)

(** [np.diag(v, k)]: the entries of [v] on the [k]-th diagonal of a square
    array of side [len(v) + |k|] *)
Definition np_diag {A : Type} (zero : A) (v : list A) (k : Z) : matrix A :=
  fun i j =>
    if (Z.of_nat j =? Z.of_nat i + k)%Z
    then nth (if (0 <=? k)%Z then i else j) v zero
    else zero.
Definition np_diag_side {A : Type} (v : list A) (k : Z) : nat :=
  (List.length v + Z.abs_nat k)%nat.

Definition transpose {A : Type} (M : matrix A) : matrix A := fun i j => M j i.
Definition mmap {A B : Type} (f : A -> B) (M : matrix A) : matrix B :=
  fun i j => f (M i j).
Definition mmap2 {A B C : Type} (f : A -> B -> C) (M : matrix A) (N : matrix B)
  : matrix C := fun i j => f (M i j) (N i j).
Definition mscale (s : F) (M : matrix F) : matrix F := mmap (fmul s) M.
Definition cscale (s : complex F) (M : matrix (complex F)) : matrix (complex F) :=
  mmap (cmul s) M.
Definition promote (M : matrix F) : matrix (complex F) := mmap cof M.
Definition promoteZ (M : matrix Z) : matrix (complex F) := mmap cofZ M.
Definition adjoint (M : matrix (complex F)) : matrix (complex F) :=
  mmap cconj (transpose M).                                 (* np.conj(M.T) *)

Fixpoint csum (f : nat -> complex F) (n : nat) : complex F :=
  match n with
  | O => c0
  | S n' => cadd (csum f n') (f n')
  end.

(** [np.dot(A, B)] for square arrays of side [d] *)
Definition mdot (d : nat) (A B : matrix (complex F)) : matrix (complex F) :=
  fun i l => csum (fun k => cmul (A i k) (B k l)) d.

Definition identity : matrix (complex F) :=
  fun i j => if (i =? j)%nat then c1 else c0.                (* np.eye *)
Definition madd (A B : matrix (complex F)) : matrix (complex F) := mmap2 cadd A B.
Definition msub (A B : matrix (complex F)) : matrix (complex F) := mmap2 csub A B.
(** [A . B - B . A] *)
Definition commutator (d : nat) (A B : matrix (complex F)) : matrix (complex F) :=
  msub (mdot d A B) (mdot d B A).

(** [np.einsum("ij,jk,kl->il", A, B, C)] *)
Definition einsum3 (d : nat) (A B C : matrix (complex F)) : matrix (complex F) :=
  fun i l => csum (fun j => csum (fun k => cmul (cmul (A i j) (B j k)) (C k l)) d) d.

(** *** np.allclose: |a - b| <= atol + rtol * |b| everywhere *)
Definition atol : F := fdiv (of_Z 1) (of_Z 100000000).     (* 1e-8 *)
Definition rtol : F := fdiv (of_Z 1) (of_Z 100000).        (* 1e-5 *)
Definition isclose (absdiff absb : F) : bool :=
  fleb absdiff (fadd atol (fmul rtol absb)).
Definition all_entries (d : nat) (p : nat -> nat -> bool) : bool :=
  forallb (fun i => forallb (fun j => p i j) (seq 0 d)) (seq 0 d).
Definition allclose (d : nat) (A B : matrix F) : bool :=
  all_entries d (fun i j => isclose (fabs (fsub (A i j) (B i j))) (fabs (B i j))).
Definition callclose (d : nat) (A B : matrix (complex F)) : bool :=
  all_entries d (fun i j =>
    isclose (cabs (csub (A i j) (B i j))) (cabs (B i j))).
Definition vallclose (a b : list F) : bool :=
  forallb (fun p => isclose (fabs (fsub (fst p) (snd p))) (fabs (snd p)))
          (combine a b).

(** np.sort on a 1-D float array *)
Fixpoint insert_sorted (x : F) (l : list F) : list F :=
  match l with
  | [] => [x]
  | y :: l' => if fleb x y then x :: l else y :: insert_sorted x l'
  end.
Definition np_sort (l : list F) : list F := fold_right insert_sorted [] l.
End NumPy.

(** ** Exceptions: the error monad of the embedding *)

Definition bind {A B : Type} (x : exn + A) (k : A -> exn + B) : exn + B :=
  match x with
  | inl e => inl e
  | inr a => k a
  end.
Notation "x <- e ;; k" := (bind e (fun x => k))
  (at level 61, e at next level, right associativity).
Notation "'assert!' b ;; k" := (if b then k else inl AssertionError)
  (at level 61, b at next level, right associativity).

(** ** The class [SU] *)

Module SU.
Section Class.
Context {F : Type} {ops : Float64 F}.

(** [np.linalg.eigvalsh], [np.linalg.eigh] and [np.exp] on a complex
    argument: library routines, parameters of the embedding.  The first
    argument of the eigensolvers is the side of the array. *)
Variable eigvalsh : nat -> matrix (complex F) -> exn + list F.
Variable eigh : nat -> matrix (complex F) -> exn + (list F * matrix (complex F)).
Variable cexp : complex F -> complex F.

(** the attributes of an instance *)
Record t : Type := mk {
  L : Z;
  Lx : matrix F;                 (* float64 *)
  Ly : matrix (complex F);       (* complex128 *)
  Lz : matrix Z;                 (* int64 *)
  SigmaXY : matrix Z             (* int64 *)
}.

Definition side (L : Z) : nat := Z.to_nat (2 * L + 1).

(** *** [__init__]: the generator matrices *)
Definition Lp_entries (L : Z) : list F :=
  map (fun m => fsqrt (of_Z (L * (L + 1) - m * (m + 1)))) (range (- L) L).
Definition Lm_entries (L : Z) : list F :=
  map (fun m => fsqrt (of_Z (L * (L + 1) - m * (m - 1)))) (range (- L + 1) (L + 1)).
Definition gen_Lz (L : Z) : matrix Z := np_diag 0%Z (range (- L) (L + 1)) 0.
Definition gen_Lp (L : Z) : matrix F := np_diag f0 (Lp_entries L) (-1).
Definition gen_Lm (L : Z) : matrix F := np_diag f0 (Lm_entries L) 1.
Definition gen_Lx (L : Z) : matrix F :=
  mscale fhalf (mmap2 fadd (gen_Lp L) (gen_Lm L)).
Definition gen_Ly (L : Z) : matrix (complex F) :=
  cscale (mkC (fneg f0) (fneg fhalf)) (promote (mmap2 fsub (gen_Lp L) (gen_Lm L))).
Definition gen_SigmaXY (L : Z) : matrix Z :=
  np_diag 0%Z (map (fun m => ((-1) ^ (L + m))%Z) (range (- L) (L + 1))) 0.

(** the instance [__init__] leaves behind when every check passes *)
Definition make (L : Z) : t :=
  mk L (gen_Lx L) (gen_Ly L) (gen_Lz L) (gen_SigmaXY L).

Definition __init__ (Lv : pynum F) : exn + t :=
  match Lv with
  | PyFloat x =>
      assert! fleb f0 x ;;                                   (* assert L >= 0 *)
      match to_int x with
      | None => inl OverflowError                            (* self.L = int(L) *)
      | Some _ => inl TypeError                              (* range(-L, L + 1) *)
      end
  | PyInt L =>
      assert! (0 <=? L)%Z ;;
      let d := side L in
      let Lx := gen_Lx L in
      let Ly := gen_Ly L in
      let Lz := gen_Lz L in
      (* 1. shape *)
      assert! ((np_diag_side (Lp_entries L) (-1) =? d)%nat
               && (np_diag_side (Lm_entries L) 1 =? d)%nat
               && (np_diag_side (range (- L) (L + 1)) 0 =? d)%nat) ;;
      (* 2. hermitian *)
      assert! (allclose d Lx (transpose Lx)
               && callclose d Ly (adjoint Ly)
               && allclose d (mmap of_Z Lz) (transpose (mmap of_Z Lz))) ;;
      (* 3. eigenvalues *)
      let m_ref := map of_Z (range (- L) (L + 1)) in
      let zero := repeat f0 d in
      mx <- eigvalsh d (promote Lx) ;;
      my <- eigvalsh d Ly ;;
      mz <- eigvalsh d (promoteZ Lz) ;;
      assert! (vallclose (np_sort mx) m_ref
               && vallclose (np_sort my) m_ref
               && vallclose (np_sort mz) m_ref) ;;
      assert! (vallclose zero (map (fun _ => f0) mx)
               && vallclose zero (map (fun _ => f0) my)
               && vallclose zero (map (fun _ => f0) mz)) ;;
      inr (make L)
  end.

(** *** [_rotation] *)

(** [M = ax[0] * Lx + ax[1] * Ly + ax[2] * Lz] *)
Definition axis_generator (self : t) (ax : list F) : matrix (complex F) :=
  mmap2 cadd
    (mmap2 cadd (promote (mscale (item ax 0) (Lx self)))
                (cscale (cof (item ax 1)) (Ly self)))
    (promote (mscale (item ax 2) (mmap of_Z (Lz self)))).

(** [np.exp(-1.j * ang * e)] *)
Definition phases (ang : F) (e : list F) : list (complex F) :=
  map (fun x => cexp (cmul (cmul (mkC (fneg f0) (fneg f1)) (cof ang)) (cof x))) e.

Definition _rotation (self : t) (ang : F) (ax : list F) : exn + matrix (complex F) :=
  let d := side (L self) in
  ev <- eigh d (axis_generator self ax) ;;
  let (e, v) := (ev : list F * matrix (complex F)) in
  inr (einsum3 d v (np_diag c0 (phases ang e) 0) (adjoint v)).

(** *** [_reflection] *)
Definition ax_XY : list F := [f0; f0; f1].

(** the normal after [if ax[2] < 0: ax = -ax] *)
Definition reflection_normal (ax : list F) : list F :=
  if fltb (item ax 2) f0 then vneg ax else ax.
(** the value bound to [ang] *)
Definition reflection_angle (ax : list F) : F :=
  let ax := reflection_normal ax in
  fdiv (np_dot ax_XY ax) (fsqrt (np_sum (vsquare ax))).
(** the value bound to [rot_ax] after its normalisation *)
Definition reflection_axis (ax : list F) : list F :=
  let ax := reflection_normal ax in
  let rot_ax := np_cross ax_XY ax in
  vscale_div rot_ax (fsqrt (np_dot rot_ax rot_ax)).

Definition _reflection (self : t) (ax : list F) : exn + matrix (complex F) :=
  let d := side (L self) in
  let ang := reflection_angle ax in
  let rot_ax := reflection_axis ax in
  Rp <- _rotation self ang rot_ax ;;
  Rm <- _rotation self (fneg ang) rot_ax ;;
  inr (einsum3 d Rp (promoteZ (SigmaXY self)) Rm).

(** *** [gen_op] *)
Definition two_pi : F := fmul (of_Z 2) fpi.
Definition not_recognized : string :=
  "Operator type is not recognized; please specifiy either rotation (rot) or reflection (ref).".

(** [ax / np.sqrt(np.sum(ax**2))], for [ax] an array of floats (a list of
    Python ints would be squared as int64).  On binary64 the squares can
    underflow or overflow, so that a non-zero axis is divided by 0 or by
    infinity; on exact reals they cannot. *)
Definition normalize (ax : list F) : list F :=
  vscale_div ax (fsqrt (np_sum (vsquare ax))).

Definition gen_op (self : t) (ang : F) (ax : list F) (op_type : string)
  : exn + retval F :=
  let ax := normalize ax in
  let ang := fabs ang in
  assert! ((List.length ax =? 3)%nat && fltb ang two_pi) ;;
  if (op_type =? "Cn")%string then
    R <- _rotation self ang ax ;; inr (RetMatrix R)
  else if (op_type =? "Sigma")%string then
    S <- _reflection self ax ;; inr (RetMatrix S)
  else if (op_type =? "Sn")%string then
    S <- _reflection self ax ;;
    R <- _rotation self ang ax ;;
    inr (RetMatrix (mdot (side (L self)) S R))
  else inr (RetNone not_recognized).

(** *** The reflection as the description words it

    [rotate(-phi, r) . SigmaRef . rotate(+phi, r)], with [r] the normalised
    [z_hat x normal] and [phi] the angle whose cosine is [z_hat . normal];
    compared with [_reflection] below. *)
Definition described_reflection (self : t) (ax : list F) (phi : F)
  : exn + matrix (complex F) :=
  let d := side (L self) in
  let rot_ax := reflection_axis ax in
  Rm <- _rotation self (fneg phi) rot_ax ;;
  Rp <- _rotation self phi rot_ax ;;
  inr (einsum3 d Rm (promoteZ (SigmaXY self)) Rp).
End Class.
End SU.

(** ** Instance 1: IEEE binary64 *)

Module IEEE.
(** a Python int, rounded to the nearest float64 *)
Definition float_of_Z (z : Z) : float :=
  SF2Prim (binary_normalize prec emax z 0 false).

(** [int(x)]: truncation toward zero *)
Definition int_of_float (x : float) : option Z :=
  match Prim2SF x with
  | S754_zero _ => Some 0%Z
  | S754_finite s m e =>
      let a := match e with
               | Z0 => Zpos m
               | Zpos p => (Zpos m * Z.pow_pos 2 p)%Z
               | Zneg p => (Zpos m / Z.pow_pos 2 p)%Z
               end in
      Some (if s then (- a)%Z else a)
  | S754_infinity _ | S754_nan => None
  end.

#[export] Instance ops : Float64 float := {|
  of_Z := float_of_Z;
  fadd := PrimFloat.add;
  fsub := PrimFloat.sub;
  fmul := PrimFloat.mul;
  fdiv := PrimFloat.div;
  fneg := PrimFloat.opp;
  fabs := PrimFloat.abs;
  fsqrt := PrimFloat.sqrt;
  fltb := PrimFloat.ltb;
  fleb := PrimFloat.leb;
  fpi := 0x1.921fb54442d18p+1%float;
  to_int := int_of_float
|}.
End IEEE.

(** ** Instance 2: exact real arithmetic *)

Module Exact.
Definition Rltb (a b : R) : bool := if Rlt_dec a b then true else false.
Definition Rleb (a b : R) : bool := if Rle_dec a b then true else false.
Definition Rtrunc (x : R) : Z :=
  if Rle_dec 0 x then Int_part x else (- Int_part (- x))%Z.

#[export] Instance ops : Float64 R := {|
  of_Z := IZR;
  fadd := Rplus;
  fsub := Rminus;
  fmul := Rmult;
  fdiv := Rdiv;
  fneg := Ropp;
  fabs := Rabs;
  fsqrt := sqrt;
  fltb := Rltb;
  fleb := Rleb;
  fpi := PI;
  to_int := fun x => Some (Rtrunc x)
|}.

(** the complex exponential *)
Definition Cexp (z : complex R) : complex R :=
  mkC (exp (re z) * cos (im z))%R (exp (re z) * sin (im z))%R.
End Exact.

Unset Implicit Arguments.
Import IEEE Exact.
Open Scope R_scope.

(** ** Linear algebra over exact complex numbers *)
Module LinAlg.
Abbreviation C := (complex R).
Definition Ci : C := mkC 0 1.
Definition meq (d : nat) (A B : matrix C) : Prop :=
  forall i j, (i < d)%nat -> (j < d)%nat -> A i j = B i j.
Definition hermitian (d : nat) (A : matrix C) : Prop := meq d A (adjoint A).
Definition unitary (d : nat) (U : matrix C) : Prop :=
  meq d (mdot d U (adjoint U)) identity.
(** the generators as complex arrays (NumPy's promotion) *)
Definition cLx (L : Z) : matrix C := promote (SU.gen_Lx L).
Definition cLy (L : Z) : matrix C := SU.gen_Ly L.
Definition cLz (L : Z) : matrix C := promoteZ (SU.gen_Lz L).
Definition cSigma (L : Z) : matrix C := promoteZ (SU.gen_SigmaXY L).
Definition ladder (L : Z) (j : nat) : R :=
  sqrt (IZR ((Z.of_nat j + 1) * (2 * L - Z.of_nat j))).
Definition lin2 (a : C) (A : matrix C) (b : C) (B : matrix C) : matrix C :=
  fun i j => cadd (cmul a (A i j)) (cmul b (B i j)).
(** vectors, eigenpairs *)
Definition vec : Type := nat -> C.
Definition mapply (d : nat) (A : matrix C) (v : vec) : vec :=
  fun i => csum (fun k => cmul (A i k) (v k)) d.
Definition inner (d : nat) (u v : vec) : C :=
  csum (fun i => cmul (cconj (u i)) (v i)) d.
Definition nonzero (d : nat) (v : vec) : Prop :=
  exists i, (i < d)%nat /\ v i <> c0.
Definition eigen_eq (d : nat) (A : matrix C) (lam : C) (v : vec) : Prop :=
  forall i, (i < d)%nat -> mapply d A v i = cmul lam (v i).
Definition eigenvalue (d : nat) (A : matrix C) (lam : C) : Prop :=
  exists v, nonzero d v /\ eigen_eq d A lam v.
(** ladder operators of a triple (A, B, D): B + i D and B - i D *)
Definition sgn (up : bool) : R := if up then 1 else -1.
Definition ladder_op (up : bool) (B D : matrix C) : matrix C :=
  lin2 c1 B (mkC 0 (sgn up)) D.
Fixpoint iter_apply (d : nat) (S : matrix C) (k : nat) (v : vec) : vec :=
  match k with
  | O => v
  | S k' => mapply d S (iter_apply d S k' v)
  end.
(** eigenvectors of the largest eigenvalue *)
Fixpoint top_coeff (L : Z) (j : nat) : R :=
  match j with
  | O => 1
  | S j' => top_coeff L j' * ladder L j' / INR (S j')
  end.
Fixpoint cpow (c : C) (n : nat) : C :=
  match n with
  | O => c1
  | S n' => cmul c (cpow c n')
  end.
Definition top_Lx (L : Z) : vec := fun j => cof (top_coeff L j).
Definition top_Ly (L : Z) : vec :=
  fun j => cmul (cpow (mkC 0 (-1)) j) (cof (top_coeff L j)).
Definition top_Lz (L : Z) : vec :=
  fun j => if (j =? Z.to_nat (2 * L))%nat then c1 else c0.
Definition in_spectrum (L : Z) (lam : C) : Prop :=
  exists m : Z, (- L <= m <= L)%Z /\ lam = cofZ m.
(** what LAPACK promises of [eigh]: as many eigenvalues as the side of
    the array, and a unitary array of eigenvectors *)
Definition unitary2 (d : nat) (v : matrix C) : Prop :=
  meq d (mdot d v (adjoint v)) identity /\ meq d (mdot d (adjoint v) v) identity.
Definition eigh_ok (eigh : nat -> matrix C -> exn + (list R * matrix C))
           (d : nat) (M : matrix C) : Prop :=
  match eigh d M with
  | inr (e, v) => List.length e = d /\ unitary2 d v
  | inl _ => False
  end.
(** the instance built by [SU(L)], in exact arithmetic *)
Definition space (L : Z) : SU.t (F:=R) := SU.make L.
(** [v . diag(exp(-i ang e)) . v^H] *)
Definition spectral (d : nat) (ang : R) (e : list R) (v : matrix C) : matrix C :=
  einsum3 d v (np_diag c0 (SU.phases Cexp ang e) 0) (adjoint v).
(** an eigendecomposition of [- Lx] for [L = 1]: eigenvalues -1, 0, 1 *)
Definition h2 : R := sqrt 2 / 2.
Definition v1 : matrix C := fun i k =>
  cof (nth k (nth i [[1 / 2; h2; 1 / 2]; [h2; 0; - h2]; [1 / 2; - h2; 1 / 2]] []) 0).
Definition eigh1 : nat -> matrix C -> exn + (list R * matrix C) :=
  fun _ _ => inr ([-1; 0; 1], v1).
End LinAlg.

(** an eigensolver that does not converge *)
Definition lapack_fails
  : nat -> matrix (complex float) -> exn + (list float * matrix (complex float)) :=
  fun _ _ => inl LinAlgError.
(** stand-in for the libm exponential where it is never reached *)
Definition no_exp : complex float -> complex float := fun z => z.
(** an eigensolver that returns the spectrum -L, ..., L of each generator *)
Definition ideal_eigvalsh (L : Z) : nat -> matrix (complex R) -> exn + list R :=
  fun _ _ => inr (map IZR (range (- L) (L + 1))).
Definition ideal_eigvalsh64 (L : Z) : nat -> matrix (complex float) -> exn + list float :=
  fun _ _ => inr (map IEEE.float_of_Z (range (- L) (L + 1))).
(** the three commutation relations, checked with [np.allclose] *)
Definition commutation_close {F : Type} {ops : Float64 F} (L : Z) : bool :=
  let d := SU.side L in
  let X := promote (SU.gen_Lx L) in
  let Y := SU.gen_Ly L in
  let Z := promoteZ (SU.gen_Lz L) in
  let i := mkC f0 f1 in
  callclose d (commutator d X Y) (cscale i Z)
  && callclose d (commutator d Y Z) (cscale i X)
  && callclose d (commutator d Z X) (cscale i Y).
(** in binary64: each entry of [Ly] has real part +0.0, [Lx] is symmetric
    and [Ly] equals its conjugate transpose *)
Definition generators_check64 (L : Z) : bool :=
  let d := SU.side L in
  all_entries d (fun i j =>
    PrimFloat.Leibniz.eqb (re (SU.gen_Ly (ops:=IEEE.ops) L i j)) 0%float
    && PrimFloat.eqb (SU.gen_Lx (ops:=IEEE.ops) L i j) (SU.gen_Lx (ops:=IEEE.ops) L j i)
    && PrimFloat.eqb (re (SU.gen_Ly (ops:=IEEE.ops) L i j))
                     (re (adjoint (SU.gen_Ly (ops:=IEEE.ops) L) i j))
    && PrimFloat.eqb (im (SU.gen_Ly (ops:=IEEE.ops) L i j))
                     (im (adjoint (SU.gen_Ly (ops:=IEEE.ops) L) i j))).
(** what [SU(L)] is asked to reject: a negative int, or a float (a float of
    integer value included: [range] takes no float) *)
Definition invalid_L {F : Type} (Lv : pynum F) : Prop :=
  match Lv with
  | PyInt z => (z < 0)%Z
  | PyFloat _ => True
  end.

Import LinAlg.

(** ** The eigensolver's full contract, and the notebook's second cell *)

(** what LAPACK promises of [e, v = eigh(M)] in exact arithmetic: as many
    eigenvalues as the side of the array, a unitary array [v], and column
    [k] of [v] an eigenvector of [M] for [e[k]] *)
Definition eigh_valid (eigh : nat -> matrix C -> exn + (list R * matrix C))
           (d : nat) (M : matrix C) : Prop :=
  match eigh d M with
  | inr (e, v) =>
      List.length e = d /\ unitary2 d v /\
      forall i k, (i < d)%nat -> (k < d)%nat ->
        mdot d M v i k = cmul (v i k) (cof (nth k e 0))
  | inl _ => False
  end.
(** [exp(-i ang x)] *)
Definition phase (ang x : R) : C := mkC (cos (ang * x)) (- sin (ang * x)).
(** [x Lx + y Ly + z Lz] *)
Definition gen3 (L : Z) (x y z : R) : matrix C :=
  fun i j => cadd (cadd (cmul (cof x) (cLx L i j)) (cmul (cof y) (cLy L i j)))
                  (cmul (cof z) (cLz L i j)).
Definition column (v : matrix C) (k : nat) : vec := fun i => v i k.
(** an eigensolver for [Lz], which is diagonal already *)
Definition eigh_z (L : Z) : nat -> matrix C -> exn + (list R * matrix C) :=
  fun _ _ => inr (map IZR (range (- L) (L + 1)), identity).
(** eigenvectors of [Ly] for [L = 1]: eigenvalues -1, 0, 1 *)
Definition vy : matrix C := fun i k =>
  nth k (nth i [[mkC (1 / 2) 0; mkC h2 0; mkC (1 / 2) 0];
                [mkC 0 h2; c0; mkC 0 (- h2)];
                [mkC (- (1 / 2)) 0; mkC h2 0; mkC (- (1 / 2)) 0]] []) c0.
(** an eigensolver for [L = 1] that decomposes the generators along the
    coordinate axes, of either sign; it reads the entries (0, 1) and (0, 0)
    of its argument to tell them apart *)
Definition eigh_spin1 : nat -> matrix C -> exn + (list R * matrix C) :=
  fun _ M =>
    let a := re (M 0%nat 1%nat) in
    let b := im (M 0%nat 1%nat) in
    let c := re (M 0%nat 0%nat) in
    if Rltb a 0 then inr ([-1; 0; 1], v1)
    else if Rltb 0 a then inr ([1; 0; -1], v1)
    else if Rltb 0 b then inr ([-1; 0; 1], vy)
    else if Rltb b 0 then inr ([1; 0; -1], vy)
    else if Rltb c 0 then inr ([-1; 0; 1], identity)
    else inr ([1; 0; -1], identity).
(** the eigenvector of the largest eigenvalue of the generator along an
    axis off the north pole: components [t^j sqrt(binomial(2L, j))] *)
Definition top_axis (t : C) (L : Z) : vec :=
  fun j => cmul (cpow t j) (cof (top_coeff L j)).
(** [(1 + z) / (x + i y)] *)
Definition stereo (x y z : R) : C :=
  mkC ((1 + z) * x / (x * x + y * y)) (- ((1 + z) * y / (x * x + y * y))).
(** the sum of [f] over a list *)
Definition lsum {A : Type} (f : A -> C) (l : list A) : C :=
  fold_right (fun x acc => cadd (f x) acc) c0 l.

(** ** The notebook's second cell: the multiplet in a field of D2 symmetry *)

Module Notebook.
Section Cell.
Context {F : Type} {ops : Float64 F}.
Variable eigvalsh : nat -> matrix (complex F) -> exn + list F.
Variable eigh : nat -> matrix (complex F) -> exn + (list F * matrix (complex F)).
Variable cexp : complex F -> complex F.

(** [np.einsum("ii->", op)] *)
Definition trace (d : nat) (op : matrix (complex F)) : complex F :=
  csum (fun i => op i i) d.

(** a value returned by [gen_op], used as an array ([None] is not one) *)
Definition as_array (r : retval F) : exn + matrix (complex F) :=
  match r with
  | RetMatrix m => inr m
  | RetNone _ => inl TypeError
  end.

(** [D = SU(L)] and [D2_group = [E, Cz, Cy, Cx]], the three rotations by
    [np.pi] about z, x and y being computed in this order; [E = np.eye(2*L + 1)]
    is held as the complex array NumPy promotes it to where it is used *)
Definition D2_group (L : Z) : exn + list (matrix (complex F)) :=
  D <- SU.__init__ eigvalsh (PyInt L) ;;
  Cz <- (r <- SU.gen_op eigh cexp D fpi [f0; f0; f1] "Cn" ;; as_array r) ;;
  Cx <- (r <- SU.gen_op eigh cexp D fpi [f1; f0; f0] "Cn" ;; as_array r) ;;
  Cy <- (r <- SU.gen_op eigh cexp D fpi [f0; f1; f0] "Cn" ;; as_array r) ;;
  inr [identity; Cz; Cy; Cx].

Definition character_table_D2 : list (string * list F) :=
  [("A"%string, [f1; f1; f1; f1]);
   ("B1"%string, map of_Z [1; 1; -1; -1]%Z);
   ("B2"%string, map of_Z [1; -1; 1; -1]%Z);
   ("B3"%string, map of_Z [1; -1; -1; 1]%Z)].

(** [chi]: the real part of the trace of each operator *)
Definition chi (d : nat) (group : list (matrix (complex F))) : list F :=
  map (fun op => re (trace d op)) group.

(** [dp = ch[0] / len(D2_group) * np.dot(ch, chi)] *)
Definition dp (group : list (matrix (complex F))) (ch chi : list F) : F :=
  fmul (fdiv (item ch 0) (of_Z (Z.of_nat (List.length group)))) (np_dot ch chi).

(** [P = np.zeros(...); for i in range(len(D2_group)): P += ch[i] * D2_group[i]] *)
Definition projector (group : list (matrix (complex F))) (ch : list F)
  : matrix (complex F) :=
  fold_left (fun P i => madd P (cscale (cof (item ch i)) (nth i group (fun _ _ => c0))))
            (seq 0 (List.length group)) (fun _ _ => c0).

(** the cell: the lines it prints, as pairs of a symmetry type and [dp],
    and the dictionary [proj_operators] *)
Definition cell (L : Z)
  : exn + (list (string * F) * list (string * matrix (complex F))) :=
  group <- D2_group L ;;
  let x := chi (SU.side L) group in
  inr (map (fun row => (fst row, dp group (snd row) x)) character_table_D2,
       map (fun row => (fst row, projector group (snd row))) character_table_D2).
End Cell.

(** [L = 2 # Will look at D-term] *)
Definition L : Z := 2.
End Notebook.

(** eigenvectors of [Lx] for [L = 2]: eigenvalues -2, -1, 0, 1, 2 *)
Definition s6 : R := sqrt 6.
Definition vx2 : matrix C := fun i k =>
  cof (nth k (nth i [[1 / 4; 1 / 2; s6 / 4; 1 / 2; 1 / 4];
                     [- (1 / 2); - (1 / 2); 0; 1 / 2; 1 / 2];
                     [s6 / 4; 0; - (1 / 2); 0; s6 / 4];
                     [- (1 / 2); 1 / 2; 0; - (1 / 2); 1 / 2];
                     [1 / 4; - (1 / 2); s6 / 4; - (1 / 2); 1 / 4]] []) 0).
(** eigenvectors of [Ly] for [L = 2]: row [i] of [vx2] times [(-i)^i] *)
Definition vy2 : matrix C := fun i k => cmul (cpow (mkC 0 (-1)) i) (vx2 i k).
(** an eigensolver for [L = 2] that decomposes [Lx], [Ly] and [Lz]; it reads
    the entry (0, 1) of its argument to tell them apart *)
Definition eigh_spin2 : nat -> matrix C -> exn + (list R * matrix C) :=
  fun _ M =>
    if Rltb 0 (re (M 0%nat 1%nat)) then inr ([-2; -1; 0; 1; 2], vx2)
    else if Rltb 0 (im (M 0%nat 1%nat)) then inr ([-2; -1; 0; 1; 2], vy2)
    else inr ([-2; -1; 0; 1; 2], identity).
(** a real array written out by rows *)
Definition rows (t : list (list R)) : matrix C := fun i j => cof (nth j (nth i t []) 0).
(** a unit normal tilted off the z axis by more than binary64 needs to
    square its [x] and [y] components without underflow *)
Definition tilted (x y z : R) : Prop :=
  x * x + y * y + z * z = 1 /\ 1 / 10 ^ 100 <= x * x + y * y.

(** * Theorems *)

Import LinAlg.

Lemma c_eq (a b : C) : re a = re b -> im a = im b -> a = b.
Proof. destruct a, b; simpl; intros; subst; reflexivity. Qed.

Ltac rsimp :=
  cbn [of_Z fadd fsub fmul fdiv fneg fabs fsqrt fpi Exact.ops
       cadd csub cmul cconj cof cofZ c0 c1 f0 f1 fhalf Ci sgn negb re im] in *.
Ltac zpush :=
  repeat (rewrite mult_IZR || rewrite plus_IZR || rewrite minus_IZR
          || rewrite opp_IZR || rewrite Nat2Z.inj_succ || rewrite succ_IZR).
Ltac cx := apply c_eq; rsimp; zpush; try ring; try lra.

Lemma cadd_comm (a b : C) : cadd a b = cadd b a. Proof. cx. Qed.
Lemma cadd_assoc (a b c : C) : cadd (cadd a b) c = cadd a (cadd b c). Proof. cx. Qed.
Lemma cadd_0_l (a : C) : cadd c0 a = a. Proof. cx. Qed.
Lemma cadd_0_r (a : C) : cadd a c0 = a. Proof. cx. Qed.
Lemma cmul_comm (a b : C) : cmul a b = cmul b a. Proof. cx. Qed.
Lemma cmul_assoc (a b c : C) : cmul (cmul a b) c = cmul a (cmul b c). Proof. cx. Qed.
Lemma cmul_0_l (a : C) : cmul c0 a = c0. Proof. cx. Qed.
Lemma cmul_0_r (a : C) : cmul a c0 = c0. Proof. cx. Qed.
Lemma cmul_1_l (a : C) : cmul c1 a = a. Proof. cx. Qed.
Lemma cmul_1_r (a : C) : cmul a c1 = a. Proof. cx. Qed.
Lemma cmul_add_l (a b c : C) : cmul a (cadd b c) = cadd (cmul a b) (cmul a c). Proof. cx. Qed.
Lemma cmul_add_r (a b c : C) : cmul (cadd a b) c = cadd (cmul a c) (cmul b c). Proof. cx. Qed.
Lemma cconj_mul (a b : C) : cconj (cmul a b) = cmul (cconj a) (cconj b). Proof. cx. Qed.
Lemma cconj_add (a b : C) : cconj (cadd a b) = cadd (cconj a) (cconj b). Proof. cx. Qed.
Lemma cconj_invol (a : C) : cconj (cconj a) = a. Proof. cx. Qed.
Lemma cconj_0 : cconj c0 = c0. Proof. cx. Qed.

(** sums *)
Lemma csum_ext (f g : nat -> C) n :
  (forall k, (k < n)%nat -> f k = g k) -> csum f n = csum g n.
Proof.
  induction n as [|n IH]; intros H; simpl; [reflexivity|].
  rewrite IH, H by auto with arith. reflexivity.
Qed.

Lemma csum_zero (f : nat -> C) n :
  (forall k, (k < n)%nat -> f k = c0) -> csum f n = c0.
Proof.
  induction n as [|n IH]; intros H; simpl; [reflexivity|].
  rewrite IH, H by auto with arith. apply cadd_0_l.
Qed.

Lemma csum_add (f g : nat -> C) n :
  csum (fun k => cadd (f k) (g k)) n = cadd (csum f n) (csum g n).
Proof.
  induction n as [|n IH]; simpl; [cx|]. rewrite IH. cx.
Qed.

Lemma csum_scale_l (a : C) (f : nat -> C) n :
  csum (fun k => cmul a (f k)) n = cmul a (csum f n).
Proof.
  induction n as [|n IH]; simpl; [cx|]. rewrite IH. cx.
Qed.

Lemma csum_scale_r (a : C) (f : nat -> C) n :
  csum (fun k => cmul (f k) a) n = cmul (csum f n) a.
Proof.
  induction n as [|n IH]; simpl; [cx|]. rewrite IH. cx.
Qed.

Lemma csum_conj (f : nat -> C) n :
  cconj (csum f n) = csum (fun k => cconj (f k)) n.
Proof.
  induction n as [|n IH]; simpl; [cx|]. rewrite cconj_add, IH. reflexivity.
Qed.

Lemma csum_single (f : nat -> C) n k0 :
  (k0 < n)%nat -> (forall k, (k < n)%nat -> k <> k0 -> f k = c0) ->
  csum f n = f k0.
Proof.
  induction n as [|n IH]; intros Hk H; [lia|]. simpl.
  destruct (Nat.eq_dec k0 n) as [->|Hne].
  - rewrite csum_zero; [apply cadd_0_l|]. intros k Hk'. apply H; lia.
  - rewrite IH, (H n) by (try lia; intros; apply H; lia). apply cadd_0_r.
Qed.

Lemma csum_swap (f : nat -> nat -> C) n m :
  csum (fun i => csum (fun j => f i j) m) n =
  csum (fun j => csum (fun i => f i j) n) m.
Proof.
  induction n as [|n IH]; simpl.
  - symmetry. apply csum_zero. reflexivity.
  - rewrite IH, <- csum_add. reflexivity.
Qed.

(** matrices *)
Lemma meq_refl d A : meq d A A.
Proof. intros i j _ _. reflexivity. Qed.
Lemma meq_sym d A B : meq d A B -> meq d B A.
Proof. intros H i j Hi Hj. symmetry. auto. Qed.
Lemma meq_trans d A B D : meq d A B -> meq d B D -> meq d A D.
Proof. intros H1 H2 i j Hi Hj. rewrite H1, H2; auto. Qed.

Lemma mdot_meq d A A' B B' :
  meq d A A' -> meq d B B' -> meq d (mdot d A B) (mdot d A' B').
Proof.
  intros HA HB i j Hi Hj. unfold mdot. apply csum_ext. intros k Hk.
  rewrite HA, HB; auto.
Qed.

Lemma mdot_assoc d (A B D : matrix C) i l :
  mdot d (mdot d A B) D i l = mdot d A (mdot d B D) i l.
Proof.
  unfold mdot.
  rewrite (csum_ext (fun k => cmul (csum (fun k0 => cmul (A i k0) (B k0 k)) d) (D k l))
                    (fun k => csum (fun k0 => cmul (A i k0) (cmul (B k0 k) (D k l))) d)).
  2:{ intros k _. rewrite <- csum_scale_r. apply csum_ext. intros; apply cmul_assoc. }
  rewrite csum_swap. apply csum_ext. intros k _. apply csum_scale_l.
Qed.

Lemma einsum3_mdot d (A B D : matrix C) i l :
  einsum3 d A B D i l = mdot d A (mdot d B D) i l.
Proof.
  unfold einsum3, mdot. apply csum_ext. intros j _.
  rewrite <- csum_scale_l. apply csum_ext. intros k _. apply cmul_assoc.
Qed.

Lemma adjoint_mdot d (A B : matrix C) i j :
  adjoint (mdot d A B) i j = mdot d (adjoint B) (adjoint A) i j.
Proof.
  unfold adjoint, mmap, transpose, mdot. rewrite csum_conj.
  apply csum_ext. intros k _. rewrite cconj_mul. apply cmul_comm.
Qed.

Lemma adjoint_invol (A : matrix C) i j : adjoint (adjoint A) i j = A i j.
Proof. unfold adjoint, mmap, transpose. apply cconj_invol. Qed.

Lemma mdot_identity_r d (A : matrix C) : meq d (mdot d A identity) A.
Proof.
  intros i j Hi Hj. unfold mdot.
  rewrite (csum_single _ d j); auto.
  - unfold identity. rewrite Nat.eqb_refl. apply cmul_1_r.
  - intros k _ Hne. unfold identity. destruct (Nat.eqb_spec k j); [lia|]. apply cmul_0_r.
Qed.

Lemma mdot_identity_l d (A : matrix C) : meq d (mdot d identity A) A.
Proof.
  intros i j Hi Hj. unfold mdot.
  rewrite (csum_single _ d i); auto.
  - unfold identity. rewrite Nat.eqb_refl. apply cmul_1_l.
  - intros k _ Hne. unfold identity. destruct (Nat.eqb_spec i k); [lia|]. apply cmul_0_l.
Qed.

(** ** The generator matrices *)

Lemma range_map_nth {A : Type} (f : Z -> A) a b t z :
  nth t (map f (range a b)) z =
  if (t <? Z.to_nat (b - a))%nat then f (a + Z.of_nat t)%Z else z.
Proof.
  unfold range. rewrite map_map.
  generalize (Z.to_nat (b - a)) as n. intros n.
  destruct (Nat.ltb_spec t n) as [Hlt|Hge].
  - rewrite (nth_indep _ z (f (a + Z.of_nat 0)%Z)) by (rewrite length_map, length_seq; lia).
    rewrite (map_nth (fun i => f (a + Z.of_nat i)%Z) (seq 0 n) 0%nat t).
    rewrite seq_nth by lia. reflexivity.
  - apply nth_overflow. rewrite length_map, length_seq. lia.
Qed.

Lemma range_length a b : List.length (range a b) = Z.to_nat (b - a).
Proof. unfold range. rewrite length_map, length_seq. reflexivity. Qed.

(** The two lists of off-diagonal entries are the same list, at every
    instance of the arithmetic. *)
Lemma Lm_entries_Lp_entries {F : Type} {ops : Float64 F} (L : Z) :
  SU.Lm_entries L = SU.Lp_entries L.
Proof.
  unfold SU.Lm_entries, SU.Lp_entries, range. rewrite !map_map.
  replace (L + 1 - (- L + 1))%Z with (L - - L)%Z by ring.
  apply map_ext. intros t. do 2 f_equal. ring.
Qed.

Lemma ladder_sqr L j :
  (Z.of_nat j <= 2 * L)%Z ->
  ladder L j * ladder L j = IZR ((Z.of_nat j + 1) * (2 * L - Z.of_nat j)).
Proof.
  intros H. unfold ladder. apply sqrt_sqrt. apply IZR_le. nia.
Qed.

Lemma ladder_out L j : (2 * L <= Z.of_nat j)%Z -> ladder L j = 0.
Proof.
  intros H. unfold ladder. apply sqrt_neg_0. apply IZR_le. nia.
Qed.

Lemma Lp_entries_nth L j : nth j (SU.Lp_entries (ops:=Exact.ops) L) 0 = ladder L j.
Proof.
  unfold SU.Lp_entries. rewrite (range_map_nth _ (- L) L j 0).
  destruct (Nat.ltb_spec j (Z.to_nat (L - - L))) as [Hlt|Hge].
  - rsimp. unfold ladder. do 2 f_equal. ring.
  - symmetry. apply ladder_out. lia.
Qed.

Lemma Lp_entry L i j :
  SU.gen_Lp (ops:=Exact.ops) L i j = if (i =? S j)%nat then ladder L j else 0.
Proof.
  unfold SU.gen_Lp, np_diag. change ((0 <=? -1)%Z) with false.
  destruct (Z.eqb_spec (Z.of_nat j) (Z.of_nat i + -1)) as [He|Hne];
    destruct (Nat.eqb_spec i (S j)); try lia; try reflexivity.
  apply Lp_entries_nth.
Qed.

Lemma Lm_entry L i j :
  SU.gen_Lm (ops:=Exact.ops) L i j = if (j =? S i)%nat then ladder L i else 0.
Proof.
  unfold SU.gen_Lm, np_diag. rewrite Lm_entries_Lp_entries. change ((0 <=? 1)%Z) with true.
  destruct (Z.eqb_spec (Z.of_nat j) (Z.of_nat i + 1)) as [He|Hne];
    destruct (Nat.eqb_spec j (S i)); try lia; try reflexivity.
  apply Lp_entries_nth.
Qed.

Lemma Lz_entry L i j :
  (Z.of_nat i < 2 * L + 1)%Z ->
  SU.gen_Lz L i j = if (i =? j)%nat then (Z.of_nat i - L)%Z else 0%Z.
Proof.
  intros Hi. unfold SU.gen_Lz, np_diag. change ((0 <=? 0)%Z) with true.
  destruct (Z.eqb_spec (Z.of_nat j) (Z.of_nat i + 0)) as [He|Hne];
    destruct (Nat.eqb_spec i j); try lia; try reflexivity.
  rewrite <- (map_id (range (- L) (L + 1))).
  rewrite (range_map_nth (fun x => x) (- L) (L + 1) i 0%Z).
  destruct (Nat.ltb_spec i (Z.to_nat (L + 1 - - L))); lia.
Qed.

Lemma Lx_entry L i j :
  SU.gen_Lx (ops:=Exact.ops) L i j =
  (1 / 2) * ((if (i =? S j)%nat then ladder L j else 0)
             + (if (j =? S i)%nat then ladder L i else 0)).
Proof.
  unfold SU.gen_Lx, mscale, mmap, mmap2. rewrite Lp_entry, Lm_entry. reflexivity.
Qed.

Lemma Ly_entry L i j :
  SU.gen_Ly (ops:=Exact.ops) L i j =
  mkC 0 (- (1 / 2) * ((if (i =? S j)%nat then ladder L j else 0)
                      - (if (j =? S i)%nat then ladder L i else 0))).
Proof.
  unfold SU.gen_Ly, cscale, promote, mmap, mmap2. rewrite Lp_entry, Lm_entry.
  cx.
Qed.

(** ** Products of the ladder matrices *)

Lemma mdot_lin2 d (a b c e : C) (A B D E : matrix C) i l :
  mdot d (lin2 a A b B) (lin2 c D e E) i l =
  cadd (cadd (cmul (cmul a c) (mdot d A D i l)) (cmul (cmul a e) (mdot d A E i l)))
       (cadd (cmul (cmul b c) (mdot d B D i l)) (cmul (cmul b e) (mdot d B E i l))).
Proof.
  unfold mdot, lin2. rewrite <- !csum_scale_l, <- !csum_add.
  apply csum_ext. intros k _. cx.
Qed.

Lemma mdot_ext_l d (A A' B : matrix C) i l :
  (forall k, A i k = A' i k) -> mdot d A B i l = mdot d A' B i l.
Proof. intros H. unfold mdot. apply csum_ext. intros k _. rewrite H. reflexivity. Qed.

Lemma mdot_ext_r d (A B B' : matrix C) i l :
  (forall k, B k l = B' k l) -> mdot d A B i l = mdot d A B' i l.
Proof. intros H. unfold mdot. apply csum_ext. intros k _. rewrite H. reflexivity. Qed.

Abbreviation Pm L := (promote (SU.gen_Lp (ops:=Exact.ops) L)).
Abbreviation Mm L := (promote (SU.gen_Lm (ops:=Exact.ops) L)).

Lemma cLx_lin2 L i j :
  cLx L i j = lin2 (mkC (1/2) 0) (Pm L) (mkC (1/2) 0) (Mm L) i j.
Proof.
  unfold cLx, SU.gen_Lx, lin2, promote, mscale, mmap, mmap2. cx.
Qed.

Lemma cLy_lin2 L i j :
  cLy L i j = lin2 (mkC 0 (-(1/2))) (Pm L) (mkC 0 (1/2)) (Mm L) i j.
Proof.
  unfold cLy, SU.gen_Ly, lin2, promote, cscale, mmap, mmap2. cx.
Qed.

Lemma PM_entry L i l :
  (0 <= L)%Z -> (i < SU.side L)%nat -> (l < SU.side L)%nat ->
  mdot (SU.side L) (Pm L) (Mm L) i l =
  if (i =? l)%nat then cofZ (Z.of_nat i * (2 * L + 1 - Z.of_nat i)) else c0.
Proof.
  intros HL Hi Hl. unfold SU.side in *. unfold mdot, promote, mmap.
  destruct i as [|i'].
  - rewrite csum_zero.
    + destruct (Nat.eqb_spec 0 l); [|reflexivity]. cx.
    + intros k _. rewrite Lp_entry. simpl. cx.
  - rewrite (csum_single _ _ i').
    2: lia.
    2:{ intros k _ Hne. rewrite Lp_entry.
        destruct (Nat.eqb_spec (S i') (S k)); [lia|cx]. }
    rewrite Lp_entry, Lm_entry, Nat.eqb_refl.
    destruct (Nat.eqb_spec l (S i')) as [Hl'|Hne];
      destruct (Nat.eqb_spec (S i') l) as [He|Hne']; try lia; [|cx].
    apply c_eq; rsimp; [|ring]. rewrite Rmult_0_l, Rminus_0_r, ladder_sqr by lia.
    f_equal. lia.
Qed.

Lemma MP_entry L i l :
  (0 <= L)%Z -> (i < SU.side L)%nat -> (l < SU.side L)%nat ->
  mdot (SU.side L) (Mm L) (Pm L) i l =
  if (i =? l)%nat then cofZ ((Z.of_nat i + 1) * (2 * L - Z.of_nat i)) else c0.
Proof.
  intros HL Hi Hl. unfold SU.side in *. unfold mdot, promote, mmap.
  destruct (Nat.lt_ge_cases (S i) (Z.to_nat (2 * L + 1))) as [Hin|Hout].
  - rewrite (csum_single _ _ (S i)).
    2: lia.
    2:{ intros k _ Hne. rewrite Lm_entry.
        destruct (Nat.eqb_spec k (S i)); [lia|cx]. }
    rewrite Lp_entry, Lm_entry, Nat.eqb_refl.
    destruct (Nat.eqb_spec (S i) (S l)) as [He|Hne];
      destruct (Nat.eqb_spec i l) as [He'|Hne']; try lia; [|cx].
    subst l. apply c_eq; rsimp; [|ring]. rewrite Rmult_0_l, Rminus_0_r. apply ladder_sqr. lia.
  - rewrite csum_zero.
    + destruct (Nat.eqb_spec i l); [|reflexivity].
      apply c_eq; rsimp; [|reflexivity].
      replace (2 * L - Z.of_nat i)%Z with 0%Z by lia. rewrite Z.mul_0_r. reflexivity.
    + intros k Hk. rewrite Lm_entry. destruct (Nat.eqb_spec k (S i)); [lia|cx].
Qed.

Lemma cLz_entry L i j :
  (i < SU.side L)%nat ->
  cLz L i j = if (i =? j)%nat then cofZ (Z.of_nat i - L) else c0.
Proof.
  intros Hi. unfold cLz, promoteZ, mmap. rewrite Lz_entry by (unfold SU.side in Hi; lia).
  destruct (i =? j)%nat; reflexivity.
Qed.

Lemma cLz_mdot_l L (A : matrix C) i l :
  (i < SU.side L)%nat ->
  mdot (SU.side L) (cLz L) A i l = cmul (cofZ (Z.of_nat i - L)) (A i l).
Proof.
  intros Hi. unfold mdot. rewrite (csum_single _ _ i); auto.
  - rewrite cLz_entry, Nat.eqb_refl by auto. reflexivity.
  - intros k _ Hne. rewrite cLz_entry by auto.
    destruct (Nat.eqb_spec i k); [lia|]. apply cmul_0_l.
Qed.

Lemma cLz_mdot_r L (A : matrix C) i l :
  (l < SU.side L)%nat ->
  mdot (SU.side L) A (cLz L) i l = cmul (A i l) (cofZ (Z.of_nat l - L)).
Proof.
  intros Hl. unfold mdot. rewrite (csum_single _ _ l); auto.
  - rewrite cLz_entry, Nat.eqb_refl by auto. reflexivity.
  - intros k Hk Hne. rewrite cLz_entry by auto.
    destruct (Nat.eqb_spec k l); [lia|]. apply cmul_0_r.
Qed.

Lemma mdot_ext d (A A' B B' : matrix C) i l :
  (forall k, A i k = A' i k) -> (forall k, B k l = B' k l) ->
  mdot d A B i l = mdot d A' B' i l.
Proof. intros HA HB. unfold mdot. apply csum_ext. intros k _. rewrite HA, HB. reflexivity. Qed.

Lemma comm_Lx_Ly L :
  (0 <= L)%Z ->
  meq (SU.side L) (commutator (SU.side L) (cLx L) (cLy L)) (cscale Ci (cLz L)).
Proof.
  intros HL i l Hi Hl. unfold commutator, msub, mmap2, cscale, mmap.
  rewrite (mdot_ext _ (cLx L) _ (cLy L) _ i l (fun k => cLx_lin2 L i k) (fun k => cLy_lin2 L k l)).
  rewrite (mdot_ext _ (cLy L) _ (cLx L) _ i l (fun k => cLy_lin2 L i k) (fun k => cLx_lin2 L k l)).
  rewrite !mdot_lin2, !PM_entry, !MP_entry, cLz_entry by assumption.
  destruct (i =? l)%nat; cx.
Qed.

Lemma comm_Ly_Lz L :
  (0 <= L)%Z ->
  meq (SU.side L) (commutator (SU.side L) (cLy L) (cLz L)) (cscale Ci (cLx L)).
Proof.
  intros HL i l Hi Hl. unfold commutator, msub, mmap2, cscale, mmap.
  rewrite cLz_mdot_l, cLz_mdot_r by assumption.
  unfold cLx, cLy, promote, mmap. rewrite Lx_entry, Ly_entry.
  destruct (Nat.eqb_spec i (S l)); destruct (Nat.eqb_spec l (S i)); subst; try lia; cx.
Qed.

Lemma comm_Lz_Lx L :
  (0 <= L)%Z ->
  meq (SU.side L) (commutator (SU.side L) (cLz L) (cLx L)) (cscale Ci (cLy L)).
Proof.
  intros HL i l Hi Hl. unfold commutator, msub, mmap2, cscale, mmap.
  rewrite cLz_mdot_l, cLz_mdot_r by assumption.
  unfold cLx, cLy, promote, mmap. rewrite Lx_entry, Ly_entry.
  destruct (Nat.eqb_spec i (S l)); destruct (Nat.eqb_spec l (S i)); subst; try lia; cx.
Qed.

(** Casimir operator: Lx.Lx + Ly.Ly + Lz.Lz = L (L + 1) 1 *)
Lemma casimir L :
  (0 <= L)%Z ->
  meq (SU.side L)
      (madd (madd (mdot (SU.side L) (cLx L) (cLx L)) (mdot (SU.side L) (cLy L) (cLy L)))
            (mdot (SU.side L) (cLz L) (cLz L)))
      (cscale (cofZ (L * (L + 1))) identity).
Proof.
  intros HL i l Hi Hl. unfold madd, mmap2, cscale, mmap.
  rewrite (mdot_ext _ (cLx L) _ (cLx L) _ i l (fun k => cLx_lin2 L i k) (fun k => cLx_lin2 L k l)).
  rewrite (mdot_ext _ (cLy L) _ (cLy L) _ i l (fun k => cLy_lin2 L i k) (fun k => cLy_lin2 L k l)).
  rewrite !mdot_lin2, !PM_entry, !MP_entry, cLz_mdot_l, cLz_entry by assumption.
  unfold identity. destruct (i =? l)%nat; cx.
Qed.

Lemma hermitian_Lx L : hermitian (SU.side L) (cLx L).
Proof.
  intros i j _ _. unfold cLx, promote, adjoint, transpose, mmap. rewrite !Lx_entry. cx.
Qed.

Lemma hermitian_Ly L : hermitian (SU.side L) (cLy L).
Proof.
  intros i j _ _. unfold cLy, adjoint, transpose, mmap. rewrite !Ly_entry. cx.
Qed.

Lemma hermitian_Lz L : hermitian (SU.side L) (cLz L).
Proof.
  intros i j Hi Hj. unfold adjoint, transpose, mmap. rewrite !cLz_entry by assumption.
  rewrite (Nat.eqb_sym j i). destruct (Nat.eqb_spec i j); subst; cx.
Qed.

(** ** Vectors *)

Lemma mapply_ext_v d (A : matrix C) (u v : vec) i :
  (forall k, (k < d)%nat -> u k = v k) -> mapply d A u i = mapply d A v i.
Proof. intros H. unfold mapply. apply csum_ext. intros k Hk. rewrite H; auto. Qed.

Lemma mapply_meq d (A B : matrix C) (v : vec) i :
  meq d A B -> (i < d)%nat -> mapply d A v i = mapply d B v i.
Proof. intros H Hi. unfold mapply. apply csum_ext. intros k Hk. rewrite H; auto. Qed.

Lemma mapply_mdot d (A B : matrix C) (v : vec) i :
  mapply d (mdot d A B) v i = mapply d A (mapply d B v) i.
Proof.
  unfold mapply, mdot.
  rewrite (csum_ext (fun k => cmul (csum (fun k0 => cmul (A i k0) (B k0 k)) d) (v k))
                    (fun k => csum (fun k0 => cmul (A i k0) (cmul (B k0 k) (v k))) d)).
  2:{ intros k _. rewrite <- csum_scale_r. apply csum_ext. intros; apply cmul_assoc. }
  rewrite csum_swap. apply csum_ext. intros k _. apply csum_scale_l.
Qed.

Lemma mapply_lin2 d (a b : C) (A B : matrix C) (v : vec) i :
  mapply d (lin2 a A b B) v i =
  cadd (cmul a (mapply d A v i)) (cmul b (mapply d B v i)).
Proof.
  unfold mapply, lin2. rewrite <- !csum_scale_l, <- csum_add.
  apply csum_ext. intros k _. cx.
Qed.

Lemma mapply_scale_v d (A : matrix C) (c : C) (v : vec) i :
  mapply d A (fun k => cmul c (v k)) i = cmul c (mapply d A v i).
Proof.
  unfold mapply. rewrite <- csum_scale_l. apply csum_ext. intros k _. cx.
Qed.

Lemma inner_adjoint d (A : matrix C) (u v : vec) :
  inner d u (mapply d A v) = inner d (mapply d (adjoint A) u) v.
Proof.
  unfold inner, mapply.
  rewrite (csum_ext _ (fun i => csum (fun k => cmul (cconj (u i)) (cmul (A i k) (v k))) d)).
  2:{ intros i _. symmetry. apply csum_scale_l. }
  rewrite csum_swap. apply csum_ext. intros k _.
  rewrite csum_conj, <- csum_scale_r. apply csum_ext. intros i _.
  unfold adjoint, transpose, mmap. cx.
Qed.

Lemma inner_ext_l d (u u' v : vec) :
  (forall k, (k < d)%nat -> u k = u' k) -> inner d u v = inner d u' v.
Proof. intros H. unfold inner. apply csum_ext. intros k Hk. rewrite H; auto. Qed.

Lemma inner_ext_r d (u v v' : vec) :
  (forall k, (k < d)%nat -> v k = v' k) -> inner d u v = inner d u v'.
Proof. intros H. unfold inner. apply csum_ext. intros k Hk. rewrite H; auto. Qed.

Lemma inner_scale_r d (c : C) (u v : vec) :
  inner d u (fun k => cmul c (v k)) = cmul c (inner d u v).
Proof.
  unfold inner. rewrite <- csum_scale_l. apply csum_ext. intros k _. cx.
Qed.

Lemma inner_self_im d (v : vec) : im (inner d v v) = 0.
Proof.
  unfold inner. induction d as [|d IH]; simpl; [reflexivity|].
  rsimp. rewrite IH. ring.
Qed.

Lemma inner_self_nonneg d (v : vec) : 0 <= re (inner d v v).
Proof.
  unfold inner. induction d as [|d IH]; simpl; [rsimp; lra|].
  rsimp. nra.
Qed.

Lemma inner_self_pos d (v : vec) : nonzero d v -> 0 < re (inner d v v).
Proof.
  intros [i [Hi Hv]]. unfold inner. induction d as [|d IH]; [lia|].
  simpl. rsimp.
  assert (Hd := inner_self_nonneg d v). unfold inner in Hd.
  destruct (Nat.eq_dec i d) as [->|Hne].
  - assert (re (v d) * re (v d) + im (v d) * im (v d) > 0).
    { destruct (Req_dec (re (v d)) 0) as [Hr|Hr]; destruct (Req_dec (im (v d)) 0) as [Hi'|Hi'];
        try nra.
      exfalso. apply Hv. apply c_eq; rsimp; assumption. }
    nra.
  - assert (0 < re (csum (fun i0 => cmul (cconj (v i0)) (v i0)) d)) by (apply IH; lia).
    nra.
Qed.

Lemma inner_self_zero d (v : vec) :
  ~ nonzero d v -> inner d v v = c0.
Proof.
  intros H. unfold inner. apply csum_zero. intros k Hk.
  destruct (Req_dec (re (v k)) 0) as [Hr|Hr]; destruct (Req_dec (im (v k)) 0) as [Hi|Hi].
  - cx; rewrite Hr, Hi; ring.
  - exfalso. apply H. exists k. split; [assumption|]. intros E. rewrite E in Hi. apply Hi. reflexivity.
  - exfalso. apply H. exists k. split; [assumption|]. intros E. rewrite E in Hr. apply Hr. reflexivity.
  - exfalso. apply H. exists k. split; [assumption|]. intros E. rewrite E in Hr. apply Hr. reflexivity.
Qed.

Lemma mdot_lin2_r d (a b : C) (A B D : matrix C) i l :
  mdot d A (lin2 a B b D) i l = cadd (cmul a (mdot d A B i l)) (cmul b (mdot d A D i l)).
Proof.
  unfold mdot, lin2. rewrite <- !csum_scale_l, <- csum_add.
  apply csum_ext. intros k _. cx.
Qed.

Lemma mdot_lin2_l d (a b : C) (A B D : matrix C) i l :
  mdot d (lin2 a B b D) A i l = cadd (cmul a (mdot d B A i l)) (cmul b (mdot d D A i l)).
Proof.
  unfold mdot, lin2. rewrite <- !csum_scale_l, <- csum_add.
  apply csum_ext. intros k _. cx.
Qed.

Lemma mapply_identity d (v : vec) i : (i < d)%nat -> mapply d identity v i = v i.
Proof.
  intros Hi. unfold mapply. rewrite (csum_single _ d i); auto.
  - unfold identity. rewrite Nat.eqb_refl. apply cmul_1_l.
  - intros k _ Hne. unfold identity. destruct (Nat.eqb_spec i k); [lia|]. apply cmul_0_l.
Qed.

Lemma mapply_ext_m d (M N : matrix C) (v : vec) i :
  (forall k, (k < d)%nat -> M i k = N i k) -> mapply d M v i = mapply d N v i.
Proof. intros H. unfold mapply. apply csum_ext. intros k Hk. rewrite H; auto. Qed.

Lemma csub_eq (x y z : C) : csub x y = z -> x = cadd y z.
Proof. intros <-. cx. Qed.

(** ** The ladder argument *)

Lemma top_root (l mu n : R) :
  0 <= l -> - l <= mu <= l -> 0 < n ->
  0 = (l * (l + 1) - mu * mu - 1 * mu) * n -> mu = l.
Proof.
  intros Hl Hmu Hn E. symmetry in E. apply Rmult_integral in E.
  destruct E as [E|E]; [|lra].
  assert (E' : (l - mu) * (l + mu + 1) = 0) by (rewrite <- E; ring).
  apply Rmult_integral in E'. destruct E' as [E'|E']; lra.
Qed.

Lemma below_top_pos (l k n : R) :
  0 <= k -> k + 1 <= 2 * l -> 0 < n ->
  0 = (l * (l + 1) - (l - k) * (l - k) - -1 * (l - k)) * n -> False.
Proof.
  intros Hk Hl Hn E. symmetry in E. apply Rmult_integral in E.
  destruct E as [E|E]; [|lra].
  assert (E' : (2 * l - k) * (k + 1) = 0) by (rewrite <- E; ring).
  apply Rmult_integral in E'. destruct E' as [E'|E']; lra.
Qed.

Section Ladder.
Variables (d : nat) (L : Z) (A B D : matrix C).
Hypothesis HL : (0 <= L)%Z.
Hypothesis hB : hermitian d B.
Hypothesis hD : hermitian d D.
Hypothesis hA : hermitian d A.
Hypothesis cAB : meq d (commutator d A B) (cscale Ci D).
Hypothesis cBD : meq d (commutator d B D) (cscale Ci A).
Hypothesis cDA : meq d (commutator d D A) (cscale Ci B).
Hypothesis cas :
  meq d (madd (madd (mdot d A A) (mdot d B B)) (mdot d D D))
        (cscale (cofZ (L * (L + 1))) identity).

Lemma ladder_comm up i l :
  (i < d)%nat -> (l < d)%nat ->
  mdot d A (ladder_op up B D) i l =
  cadd (mdot d (ladder_op up B D) A i l) (cmul (cof (sgn up)) (ladder_op up B D i l)).
Proof.
  intros Hi Hl. unfold ladder_op. rewrite mdot_lin2_r, mdot_lin2_l.
  generalize (cAB i l Hi Hl). generalize (cDA i l Hi Hl).
  unfold commutator, msub, mmap2, cscale, mmap, lin2.
  intros H1 H2. apply csub_eq in H1, H2. rewrite H1, H2.
  destruct up; cx.
Qed.

Lemma ladder_eigen up lam v :
  eigen_eq d A lam v ->
  eigen_eq d A (cadd lam (cof (sgn up))) (mapply d (ladder_op up B D) v).
Proof.
  intros H i Hi. rewrite <- mapply_mdot.
  rewrite (mapply_ext_m d _ (lin2 c1 (mdot d (ladder_op up B D) A)
                                  (cof (sgn up)) (ladder_op up B D)) v i).
  2:{ intros k Hk. rewrite ladder_comm by assumption. unfold lin2. cx. }
  rewrite mapply_lin2, mapply_mdot.
  rewrite (mapply_ext_v d _ (mapply d A v) (fun k => cmul lam (v k)) i) by (intros; apply H; auto).
  rewrite mapply_scale_v. cx.
Qed.

Lemma ladder_adjoint up i k :
  (i < d)%nat -> (k < d)%nat ->
  adjoint (ladder_op (negb up) B D) i k = ladder_op up B D i k.
Proof.
  intros Hi Hk. unfold ladder_op, lin2, adjoint, transpose, mmap.
  rewrite (hB i k Hi Hk), (hD i k Hi Hk). unfold adjoint, transpose, mmap.
  destruct up; cx.
Qed.

Lemma ladder_product up i l :
  (i < d)%nat -> (l < d)%nat ->
  mdot d (ladder_op (negb up) B D) (ladder_op up B D) i l =
  lin2 c1 (lin2 (cofZ (L * (L + 1))) identity (mkC (-1) 0) (mdot d A A))
       (mkC (- sgn up) 0) A i l.
Proof.
  intros Hi Hl. unfold ladder_op. rewrite mdot_lin2.
  generalize (cBD i l Hi Hl). generalize (cas i l Hi Hl).
  unfold commutator, msub, madd, mmap2, cscale, mmap, lin2.
  intros H1 H2. apply csub_eq in H2. rewrite H2.
  assert (H3 : mdot d B B i l =
               csub (csub (cmul (cofZ (L * (L + 1))) (identity i l)) (mdot d A A i l))
                    (mdot d D D i l)).
  { rewrite <- H1. cx. }
  rewrite H3. destruct up; cx.
Qed.

Lemma ladder_norm up lam v :
  eigen_eq d A lam v ->
  inner d (mapply d (ladder_op up B D) v) (mapply d (ladder_op up B D) v) =
  cmul (csub (csub (cofZ (L * (L + 1))) (cmul lam lam)) (cmul (cof (sgn up)) lam))
       (inner d v v).
Proof.
  intros H.
  rewrite <- (inner_ext_l d (mapply d (adjoint (ladder_op (negb up) B D)) v)).
  2:{ intros k Hk. apply mapply_ext_m. intros j Hj. apply ladder_adjoint; assumption. }
  rewrite <- inner_adjoint.
  rewrite <- inner_scale_r. apply inner_ext_r. intros i Hi.
  rewrite <- mapply_mdot.
  rewrite (mapply_ext_m d _ _ v i (fun k Hk => ladder_product up i k Hi Hk)).
  rewrite !mapply_lin2, mapply_identity, mapply_mdot by assumption.
  rewrite (mapply_ext_v d _ (mapply d A v) (fun k => cmul lam (v k)) i) by (intros; apply H; auto).
  rewrite mapply_scale_v, (H i Hi). cx.
Qed.

Lemma eigen_real lam v :
  nonzero d v -> eigen_eq d A lam v -> im lam = 0.
Proof.
  intros Hv H.
  assert (E1 : inner d v (mapply d A v) = cmul lam (inner d v v)).
  { rewrite <- inner_scale_r. apply inner_ext_r. intros k Hk. apply H; assumption. }
  assert (E2 : inner d v (mapply d A v) = cmul (cconj lam) (inner d v v)).
  { rewrite inner_adjoint.
    rewrite (inner_ext_l d _ (fun k => cmul lam (v k))).
    - unfold inner. rewrite <- csum_scale_l. apply csum_ext. intros k _. cx.
    - intros k Hk. rewrite <- (H k Hk). apply mapply_ext_m.
      intros j Hj. symmetry. apply hA; assumption. }
  rewrite E1 in E2. apply (f_equal im) in E2.
  pose proof (inner_self_pos d v Hv) as Hp. pose proof (inner_self_im d v) as Hi.
  rsimp. rewrite Hi in E2. nra.
Qed.

Lemma ladder_norm_re up lam v :
  eigen_eq d A lam v -> im lam = 0 ->
  re (inner d (mapply d (ladder_op up B D) v) (mapply d (ladder_op up B D) v)) =
  (IZR L * (IZR L + 1) - re lam * re lam - sgn up * re lam) * re (inner d v v).
Proof.
  intros H Hi. rewrite (ladder_norm up lam v H).
  pose proof (inner_self_im d v) as Him. rsimp. zpush. rewrite Him, Hi.
  change (IZR 1) with 1. ring.
Qed.

Lemma eigen_range lam v :
  nonzero d v -> eigen_eq d A lam v -> - IZR L <= re lam <= IZR L.
Proof.
  intros Hv H. pose proof (eigen_real lam v Hv H) as Hi.
  pose proof (inner_self_pos d v Hv) as Hp.
  pose proof (ladder_norm_re true lam v H Hi) as Hu.
  pose proof (ladder_norm_re false lam v H Hi) as Hd.
  pose proof (inner_self_nonneg d (mapply d (ladder_op true B D) v)) as Nu.
  pose proof (inner_self_nonneg d (mapply d (ladder_op false B D) v)) as Nd.
  rewrite Hu in Nu. rewrite Hd in Nd. rsimp.
  assert (0 <= IZR L) by (apply IZR_le; assumption).
  assert (0 <= IZR L * (IZR L + 1) - re lam * re lam - 1 * re lam) by nra.
  assert (0 <= IZR L * (IZR L + 1) - re lam * re lam - -1 * re lam) by nra.
  split; nra.
Qed.

Lemma climb k lam v :
  nonzero d v -> eigen_eq d A lam v ->
  (exists j, (j < k)%nat /\ re lam + INR j = IZR L) \/
  (nonzero d (iter_apply d (ladder_op true B D) k v) /\
   eigen_eq d A (cadd lam (cof (INR k))) (iter_apply d (ladder_op true B D) k v)).
Proof.
  intros Hv H. induction k as [|k IH].
  - right. simpl. split; [assumption|]. intros i Hi. rewrite (H i Hi). cx.
  - destruct IH as [[j [Hj E]]|[Hw Hk]].
    + left. exists j. split; [lia|assumption].
    + set (w := iter_apply d (ladder_op true B D) k v) in *.
      pose proof (ladder_eigen true _ _ Hk) as Hk'.
      destruct (classic (nonzero d (mapply d (ladder_op true B D) w))) as [Hn|Hn].
      * right. cbn [iter_apply]. fold w. split; [assumption|].
        intros i Hi. rewrite (Hk' i Hi). rewrite S_INR. cx.
      * left. exists k. split; [lia|].
        pose proof (eigen_real _ _ Hw Hk) as Him.
        pose proof (ladder_norm_re true _ _ Hk Him) as Hnorm.
        rewrite (inner_self_zero _ _ Hn) in Hnorm.
        pose proof (inner_self_pos d w Hw) as Hp.
        pose proof (eigen_range _ _ Hw Hk) as Hr.
        assert (0 <= IZR L) by (apply IZR_le; assumption).
        rsimp. eapply top_root; eauto.
Qed.

Lemma eigenvalue_integer lam :
  eigenvalue d A lam -> exists m : Z, (- L <= m <= L)%Z /\ lam = cofZ m.
Proof.
  intros [v [Hv H]].
  pose proof (eigen_range _ _ Hv H) as Hr.
  pose proof (eigen_real _ _ Hv H) as Him.
  destruct (climb (Z.to_nat (2 * L + 1)) lam v Hv H) as [[j [Hj E]]|[Hw Hk]].
  - exists (L - Z.of_nat j)%Z.
    assert (Ej : re lam = IZR (L - Z.of_nat j)).
    { rewrite minus_IZR, <- INR_IZR_INZ. lra. }
    split.
    + rewrite Ej in Hr. destruct Hr as [Hlo Hhi]. rewrite <- opp_IZR in Hlo.
      apply le_IZR in Hlo. apply le_IZR in Hhi. lia.
    + apply c_eq; rsimp; assumption.
  - exfalso. pose proof (eigen_range _ _ Hw Hk) as Hr'. rsimp.
    rewrite INR_IZR_INZ, Z2Nat.id in Hr' by lia.
    rewrite plus_IZR, mult_IZR in Hr'. lra.
Qed.

Lemma descend k v :
  (Z.of_nat k <= 2 * L)%Z ->
  nonzero d v -> eigen_eq d A (cofZ L) v ->
  nonzero d (iter_apply d (ladder_op false B D) k v) /\
  eigen_eq d A (cofZ (L - Z.of_nat k)) (iter_apply d (ladder_op false B D) k v).
Proof.
  intros Hk Hv H. induction k as [|k IH].
  - simpl. split; [assumption|]. intros i Hi. rewrite (H i Hi). cx.
  - destruct IH as [Hw Hweq]; [lia|].
    set (w := iter_apply d (ladder_op false B D) k v) in *.
    pose proof (ladder_eigen false _ _ Hweq) as Hk'.
    cbn [iter_apply]. fold w. split.
    + destruct (classic (nonzero d (mapply d (ladder_op false B D) w))) as [Hn|Hn];
        [assumption|exfalso].
      assert (Him : im (cofZ (F:=R) (L - Z.of_nat k)) = 0) by reflexivity.
      pose proof (ladder_norm_re false _ _ Hweq Him) as Hnorm.
      rewrite (inner_self_zero _ _ Hn) in Hnorm.
      pose proof (inner_self_pos d w Hw) as Hp.
      rsimp. rewrite minus_IZR, <- INR_IZR_INZ in Hnorm.
      assert (INR k + 1 <= 2 * IZR L).
      { rewrite <- S_INR, INR_IZR_INZ, <- mult_IZR. apply IZR_le. lia. }
      pose proof (pos_INR k). eapply (below_top_pos (IZR L) (INR k)); eauto.
    + intros i Hi. rewrite (Hk' i Hi). cx.
Qed.

Lemma eigenvalue_all m :
  eigenvalue d A (cofZ L) -> (- L <= m <= L)%Z -> eigenvalue d A (cofZ m).
Proof.
  intros [v [Hv H]] Hm.
  destruct (descend (Z.to_nat (L - m)) v) as [Hw Hweq]; try assumption; [lia|].
  rewrite Z2Nat.id in Hweq by lia.
  replace (L - (L - m))%Z with m in Hweq by ring.
  eexists. split; eassumption.
Qed.
End Ladder.

(** ** Eigenvectors of the largest eigenvalue *)

Lemma P_apply L (v : vec) i :
  (i < SU.side L)%nat ->
  mapply (SU.side L) (Pm L) v i =
  match i with
  | O => c0
  | S i' => cmul (cof (ladder L i')) (v i')
  end.
Proof.
  intros Hi. unfold mapply, promote, mmap. destruct i as [|i'].
  - apply csum_zero. intros k _. rewrite Lp_entry. simpl. cx.
  - rewrite (csum_single _ _ i').
    + rewrite Lp_entry, Nat.eqb_refl. reflexivity.
    + lia.
    + intros k _ Hne. rewrite Lp_entry. destruct (Nat.eqb_spec (S i') (S k)); [lia|cx].
Qed.

Lemma M_apply L (v : vec) i :
  (0 <= L)%Z -> (i < SU.side L)%nat ->
  mapply (SU.side L) (Mm L) v i = cmul (cof (ladder L i)) (v (S i)).
Proof.
  intros HL Hi. unfold mapply, promote, mmap.
  destruct (Nat.lt_ge_cases (S i) (SU.side L)) as [Hin|Hout].
  - rewrite (csum_single _ _ (S i)).
    + rewrite Lm_entry, Nat.eqb_refl. reflexivity.
    + assumption.
    + intros k _ Hne. rewrite Lm_entry. destruct (Nat.eqb_spec k (S i)); [lia|cx].
  - rewrite ladder_out by (unfold SU.side in *; lia).
    rewrite csum_zero; [cx|].
    intros k Hk. rewrite Lm_entry. destruct (Nat.eqb_spec k (S i)); [lia|cx].
Qed.

Lemma top_coeff_down L i :
  ladder L i * top_coeff L i = INR (S i) * top_coeff L (S i).
Proof.
  cbn [top_coeff]. field. apply not_0_INR. lia.
Qed.

Lemma top_coeff_up L i :
  (Z.of_nat i <= 2 * L)%Z ->
  ladder L i * top_coeff L (S i) = (2 * IZR L - INR i) * top_coeff L i.
Proof.
  intros Hi. cbn [top_coeff].
  replace (ladder L i * (top_coeff L i * ladder L i / INR (S i)))
    with (ladder L i * ladder L i * top_coeff L i / INR (S i))
    by (field; apply not_0_INR; lia).
  rewrite ladder_sqr by assumption. rewrite mult_IZR, plus_IZR, minus_IZR, mult_IZR.
  rewrite <- INR_IZR_INZ, S_INR. field.
  pose proof (pos_INR i). lra.
Qed.

Lemma cof_mul (x y : R) : cmul (cof x) (cof y) = cof (x * y).
Proof. cx. Qed.

Lemma cof_pull (x y : R) (p : C) : cmul (cof x) (cmul p (cof y)) = cmul p (cof (x * y)).
Proof. cx. Qed.

Lemma P_top_Lx L i :
  (i < SU.side L)%nat ->
  mapply (SU.side L) (Pm L) (top_Lx L) i = cof (INR i * top_coeff L i).
Proof.
  intros Hi. rewrite P_apply by assumption. unfold top_Lx. destruct i as [|i'].
  - change (INR 0) with 0. cx.
  - rewrite cof_mul, top_coeff_down. reflexivity.
Qed.

Lemma M_top_Lx L i :
  (0 <= L)%Z -> (i < SU.side L)%nat ->
  mapply (SU.side L) (Mm L) (top_Lx L) i = cof ((2 * IZR L - INR i) * top_coeff L i).
Proof.
  intros HL Hi. rewrite M_apply by assumption. unfold top_Lx.
  rewrite cof_mul, top_coeff_up by (unfold SU.side in Hi; lia). reflexivity.
Qed.

Lemma Lx_top L :
  (0 <= L)%Z -> eigen_eq (SU.side L) (cLx L) (cofZ L) (top_Lx L).
Proof.
  intros HL i Hi.
  rewrite (mapply_ext_m _ _ _ _ i (fun k _ => cLx_lin2 L i k)).
  rewrite mapply_lin2, P_top_Lx, M_top_Lx by assumption.
  unfold top_Lx. cx.
Qed.

Lemma P_top_Ly L i :
  (i < SU.side L)%nat ->
  mapply (SU.side L) (Pm L) (top_Ly L) i =
  cmul (cmul Ci (cpow (mkC 0 (-1)) i)) (cof (INR i * top_coeff L i)).
Proof.
  intros Hi. rewrite P_apply by assumption. unfold top_Ly. destruct i as [|i'].
  - change (INR 0) with 0. cx.
  - rewrite cof_pull, top_coeff_down. cbn [cpow]. cx.
Qed.

Lemma M_top_Ly L i :
  (0 <= L)%Z -> (i < SU.side L)%nat ->
  mapply (SU.side L) (Mm L) (top_Ly L) i =
  cmul (cmul (mkC 0 (-1)) (cpow (mkC 0 (-1)) i))
       (cof ((2 * IZR L - INR i) * top_coeff L i)).
Proof.
  intros HL Hi. rewrite M_apply by assumption. unfold top_Ly.
  rewrite cof_pull, top_coeff_up by (unfold SU.side in Hi; lia). reflexivity.
Qed.

Lemma Ly_top L :
  (0 <= L)%Z -> eigen_eq (SU.side L) (cLy L) (cofZ L) (top_Ly L).
Proof.
  intros HL i Hi.
  rewrite (mapply_ext_m _ _ _ _ i (fun k _ => cLy_lin2 L i k)).
  rewrite mapply_lin2, P_top_Ly, M_top_Ly by assumption.
  unfold top_Ly. cx.
Qed.

Lemma Lz_top L :
  (0 <= L)%Z -> eigen_eq (SU.side L) (cLz L) (cofZ L) (top_Lz L).
Proof.
  intros HL i Hi. unfold mapply. rewrite (csum_single _ _ i); auto.
  - rewrite cLz_entry, Nat.eqb_refl by assumption. unfold top_Lz.
    destruct (Nat.eqb_spec i (Z.to_nat (2 * L))) as [->|Hne]; [|cx].
    rewrite Z2Nat.id by lia. f_equal. f_equal. ring.
  - intros k _ Hne. rewrite cLz_entry by assumption.
    destruct (Nat.eqb_spec i k); [lia|cx].
Qed.

Lemma top_Lx_nonzero L : (0 <= L)%Z -> nonzero (SU.side L) (top_Lx L).
Proof.
  intros HL. exists 0%nat. split; [unfold SU.side; lia|].
  unfold top_Lx. cbn [top_coeff]. intros E. apply (f_equal re) in E. rsimp. lra.
Qed.

Lemma top_Ly_nonzero L : (0 <= L)%Z -> nonzero (SU.side L) (top_Ly L).
Proof.
  intros HL. exists 0%nat. split; [unfold SU.side; lia|].
  unfold top_Ly. cbn [top_coeff cpow]. intros E. apply (f_equal re) in E. rsimp. lra.
Qed.

Lemma top_Lz_nonzero L : (0 <= L)%Z -> nonzero (SU.side L) (top_Lz L).
Proof.
  intros HL. exists (Z.to_nat (2 * L)). split; [unfold SU.side; lia|].
  unfold top_Lz. rewrite Nat.eqb_refl. intros E. apply (f_equal re) in E. rsimp. lra.
Qed.

(** ** Rotations *)

Lemma phase_value (ang x : R) :
  Cexp (cmul (cmul (mkC (fneg f0) (fneg f1)) (cof ang)) (cof x)) =
  mkC (cos (ang * x)) (- sin (ang * x)).
Proof.
  unfold Cexp. rsimp.
  replace ((- 0 * ang - - (1) * 0) * x - (- 0 * 0 + - (1) * ang) * 0) with 0 by ring.
  replace ((- 0 * ang - - (1) * 0) * 0 + (- 0 * 0 + - (1) * ang) * x)
    with (- (ang * x)) by ring.
  rewrite exp_0, cos_neg, sin_neg. f_equal; ring.
Qed.

Lemma phases_nth (ang : R) (e : list R) i :
  (i < List.length e)%nat ->
  nth i (SU.phases Cexp ang e) c0 = mkC (cos (ang * nth i e 0)) (- sin (ang * nth i e 0)).
Proof.
  intros Hi. unfold SU.phases. rewrite <- phase_value.
  rewrite (nth_indep _ c0 (Cexp (cmul (cmul (mkC (fneg f0) (fneg f1)) (cof ang)) (cof 0))))
    by (rewrite length_map; assumption).
  apply (map_nth (fun x => Cexp (cmul (cmul (mkC (fneg f0) (fneg f1)) (cof ang)) (cof x)))).
Qed.

Lemma diag_entry (ang : R) (e : list R) i j :
  (i < List.length e)%nat ->
  np_diag c0 (SU.phases Cexp ang e) 0 i j =
  if (i =? j)%nat then mkC (cos (ang * nth i e 0)) (- sin (ang * nth i e 0)) else c0.
Proof.
  intros Hi. unfold np_diag. change ((0 <=? 0)%Z) with true.
  destruct (Z.eqb_spec (Z.of_nat j) (Z.of_nat i + 0));
    destruct (Nat.eqb_spec i j); try lia; try reflexivity.
  apply phases_nth. assumption.
Qed.

Lemma diag_adjoint (ang : R) (e : list R) d :
  List.length e = d ->
  meq d (adjoint (np_diag c0 (SU.phases Cexp ang e) 0))
        (np_diag c0 (SU.phases Cexp (- ang) e) 0).
Proof.
  intros He i j Hi Hj. unfold adjoint, transpose, mmap.
  rewrite !diag_entry by lia. rewrite (Nat.eqb_sym j i).
  destruct (Nat.eqb_spec i j) as [->|Hne]; [|cx].
  apply c_eq; rsimp.
  - replace (- ang * nth j e 0) with (- (ang * nth j e 0)) by ring. rewrite cos_neg. reflexivity.
  - replace (- ang * nth j e 0) with (- (ang * nth j e 0)) by ring. rewrite sin_neg. reflexivity.
Qed.

Lemma diag_inverse (ang : R) (e : list R) d :
  List.length e = d ->
  meq d (mdot d (np_diag c0 (SU.phases Cexp ang e) 0)
                (np_diag c0 (SU.phases Cexp (- ang) e) 0))
        identity.
Proof.
  intros He i l Hi Hl. unfold mdot. rewrite (csum_single _ d i); auto.
  - rewrite !diag_entry by lia. rewrite Nat.eqb_refl. unfold identity.
    destruct (Nat.eqb_spec i l) as [->|Hne]; [|cx].
    replace (- ang * nth l e 0) with (- (ang * nth l e 0)) by ring.
    rewrite cos_neg, sin_neg.
    pose proof (sin2_cos2 (ang * nth l e 0)) as H. unfold Rsqr in H.
    apply c_eq; rsimp; [|ring]. lra.
  - intros k Hk Hne. rewrite diag_entry by lia.
    destruct (Nat.eqb_spec i k); [lia|cx].
Qed.

Lemma sandwich d (v X Y : matrix C) :
  unitary2 d v ->
  meq d (mdot d (mdot d v (mdot d X (adjoint v))) (mdot d v (mdot d Y (adjoint v))))
        (mdot d v (mdot d (mdot d X Y) (adjoint v))).
Proof.
  intros [_ Hv] i l Hi Hl.
  rewrite mdot_assoc.
  apply mdot_meq with (A := v) (A' := v); try assumption; [apply meq_refl|].
  clear i l Hi Hl. intros i l Hi Hl.
  rewrite mdot_assoc. rewrite (mdot_assoc d X Y).
  apply mdot_meq with (A := X) (A' := X); try assumption; [apply meq_refl|].
  clear i l Hi Hl. intros i l Hi Hl.
  rewrite <- mdot_assoc.
  transitivity (mdot d identity (mdot d Y (adjoint v)) i l).
  - apply mdot_meq; try assumption. apply meq_refl.
  - apply mdot_identity_l; assumption.
Qed.

Lemma spectral_mdot d ang e v i l :
  spectral d ang e v i l =
  mdot d v (mdot d (np_diag c0 (SU.phases Cexp ang e) 0) (adjoint v)) i l.
Proof. apply einsum3_mdot. Qed.

Lemma spectral_inverse d ang e v :
  List.length e = d -> unitary2 d v ->
  meq d (mdot d (spectral d ang e v) (spectral d (- ang) e v)) identity.
Proof.
  intros He Hv.
  eapply meq_trans.
  { apply mdot_meq; intros i l _ _; apply spectral_mdot. }
  eapply meq_trans; [apply sandwich; assumption|].
  eapply meq_trans.
  { apply mdot_meq; [apply meq_refl|].
    apply mdot_meq; [apply diag_inverse; assumption|apply meq_refl]. }
  eapply meq_trans.
  { apply mdot_meq; [apply meq_refl|apply mdot_identity_l]. }
  apply Hv.
Qed.

Lemma spectral_adjoint d ang e v :
  List.length e = d ->
  meq d (adjoint (spectral d ang e v)) (spectral d (- ang) e v).
Proof.
  intros He i l Hi Hl.
  unfold adjoint at 1, mmap, transpose. rewrite !spectral_mdot.
  change (cconj (mdot d v (mdot d (np_diag c0 (SU.phases Cexp ang e) 0) (adjoint v)) l i))
    with (adjoint (mdot d v (mdot d (np_diag c0 (SU.phases Cexp ang e) 0) (adjoint v))) i l).
  rewrite adjoint_mdot.
  rewrite (mdot_ext d _ (mdot d (adjoint (adjoint v)) (adjoint (np_diag c0 (SU.phases Cexp ang e) 0)))
                    _ (adjoint v) i l (fun k => adjoint_mdot d _ _ i k) (fun k => eq_refl)).
  rewrite mdot_assoc.
  apply mdot_meq; try assumption.
  - intros a b _ _. apply adjoint_invol.
  - apply mdot_meq; [apply diag_adjoint; assumption|apply meq_refl].
Qed.

Lemma spectral_unitary d ang e v :
  List.length e = d -> unitary2 d v -> unitary d (spectral d ang e v).
Proof.
  intros He Hv. unfold unitary.
  eapply meq_trans; [|apply (spectral_inverse d ang e v He Hv)].
  apply mdot_meq; [apply meq_refl|apply spectral_adjoint; assumption].
Qed.

Lemma rotation_value eigh (self : SU.t) ang ax e v :
  eigh (SU.side (SU.L self)) (SU.axis_generator self ax) = inr (e, v) ->
  SU._rotation eigh Cexp self ang ax = inr (spectral (SU.side (SU.L self)) ang e v).
Proof.
  intros H. unfold SU._rotation. rewrite H. reflexivity.
Qed.

(** ** [gen_op] with type 'Cn' *)

Lemma normalize_length {F : Type} {ops : Float64 F} (ax : list F) :
  List.length (SU.normalize ax) = List.length ax.
Proof. unfold SU.normalize, vscale_div. apply length_map. Qed.

Lemma Rltb_true a b : a < b -> Rltb a b = true.
Proof. intros H. unfold Rltb. destruct (Rlt_dec a b); [reflexivity|contradiction]. Qed.

Lemma Rltb_false a b : ~ a < b -> Rltb a b = false.
Proof. intros H. unfold Rltb. destruct (Rlt_dec a b); [contradiction|reflexivity]. Qed.

Lemma Rleb_true a b : a <= b -> Rleb a b = true.
Proof. intros H. unfold Rleb. destruct (Rle_dec a b); [reflexivity|contradiction]. Qed.

Lemma rotation_unitary eigh (self : SU.t) ang ax :
  eigh_ok eigh (SU.side (SU.L self)) (SU.axis_generator self ax) ->
  exists Rm, SU._rotation eigh Cexp self ang ax = inr Rm /\
             unitary (SU.side (SU.L self)) Rm.
Proof.
  unfold eigh_ok. intros H.
  destruct (eigh (SU.side (SU.L self)) (SU.axis_generator self ax)) as [?|[e v]] eqn:E;
    [contradiction|].
  destruct H as [He Hv]. eexists. split.
  - apply rotation_value. exact E.
  - apply spectral_unitary; assumption.
Qed.

(** ** Reflections *)

Lemma SigmaXY_entry L i j :
  (Z.of_nat i < 2 * L + 1)%Z ->
  SU.gen_SigmaXY L i j = if (i =? j)%nat then ((-1) ^ Z.of_nat i)%Z else 0%Z.
Proof.
  intros Hi. unfold SU.gen_SigmaXY, np_diag. change ((0 <=? 0)%Z) with true.
  destruct (Z.eqb_spec (Z.of_nat j) (Z.of_nat i + 0)) as [He|Hne];
    destruct (Nat.eqb_spec i j); try lia; try reflexivity.
  rewrite (range_map_nth (fun m => ((-1) ^ (L + m))%Z) (- L) (L + 1) i 0%Z).
  destruct (Nat.ltb_spec i (Z.to_nat (L + 1 - - L))); [|lia].
  f_equal. ring.
Qed.

Lemma sign_sqr (k : Z) : (0 <= k)%Z -> ((-1) ^ k * (-1) ^ k = 1)%Z.
Proof.
  intros Hk. rewrite <- Z.pow_mul_l. change (-1 * -1)%Z with 1%Z. apply Z.pow_1_l. exact Hk.
Qed.

Lemma Sigma_involution L :
  meq (SU.side L) (mdot (SU.side L) (cSigma L) (cSigma L)) identity.
Proof.
  intros i l Hi Hl. unfold SU.side in *. unfold mdot, cSigma, promoteZ, mmap.
  rewrite (csum_single _ _ i); auto.
  - rewrite !SigmaXY_entry by lia. rewrite Nat.eqb_refl. unfold identity.
    destruct (Nat.eqb_spec i l) as [->|Hne]; [|cx].
    apply c_eq; rsimp; [|ring]. rewrite Rmult_0_l, Rminus_0_r, <- mult_IZR.
    rewrite sign_sqr by lia. reflexivity.
  - intros k Hk Hne. rewrite (SigmaXY_entry L i k) by lia.
    destruct (Nat.eqb_spec i k); [lia|cx].
Qed.

Lemma reflection_value eigh (self : SU.t) n e v :
  eigh (SU.side (SU.L self)) (SU.axis_generator self (SU.reflection_axis n)) = inr (e, v) ->
  SU._reflection eigh Cexp self n =
  inr (einsum3 (SU.side (SU.L self))
         (spectral (SU.side (SU.L self)) (SU.reflection_angle n) e v)
         (promoteZ (SU.SigmaXY self))
         (spectral (SU.side (SU.L self)) (- SU.reflection_angle n) e v)).
Proof.
  intros H. unfold SU._reflection.
  rewrite (rotation_value eigh self _ _ e v H).
  rewrite (rotation_value eigh self _ _ e v H). reflexivity.
Qed.

Lemma conjugation_involution d (U V S : matrix C) :
  meq d (mdot d U V) identity -> meq d (mdot d V U) identity ->
  meq d (mdot d S S) identity ->
  meq d (mdot d (einsum3 d U S V) (einsum3 d U S V)) identity.
Proof.
  intros HUV HVU HS.
  eapply meq_trans.
  { apply mdot_meq; intros i l _ _; apply einsum3_mdot. }
  eapply meq_trans.
  { intros i l _ _. rewrite mdot_assoc. reflexivity. }
  eapply meq_trans.
  { apply mdot_meq; [apply meq_refl|]. intros i l _ _. rewrite mdot_assoc. reflexivity. }
  eapply meq_trans.
  { apply mdot_meq; [apply meq_refl|]. apply mdot_meq; [apply meq_refl|].
    eapply meq_trans.
    { intros i l _ _. rewrite <- mdot_assoc. reflexivity. }
    eapply meq_trans.
    { apply mdot_meq; [exact HVU|apply meq_refl]. }
    apply mdot_identity_l. }
  eapply meq_trans.
  { apply mdot_meq; [apply meq_refl|].
    eapply meq_trans.
    { intros i l _ _. rewrite <- mdot_assoc. reflexivity. }
    eapply meq_trans.
    { apply mdot_meq; [exact HS|apply meq_refl]. }
    apply mdot_identity_l. }
  exact HUV.
Qed.

Lemma Rltb_spec a b : reflect (a < b) (Rltb a b).
Proof. unfold Rltb. destruct (Rlt_dec a b); constructor; assumption. Qed.

Lemma reflection_normal_cases (x y z : R) :
  exists a b c, SU.reflection_normal [x; y; z] = [a; b; c] /\ 0 <= c /\
                a * a + b * b = x * x + y * y.
Proof.
  unfold SU.reflection_normal, item. cbn [nth fltb Exact.ops f0 of_Z].
  destruct (Rltb_spec z 0) as [Hz|Hz].
  - exists (- x), (- y), (- z). cbn. split; [reflexivity|]. split; [lra|ring].
  - exists x, y, z. split; [reflexivity|]. split; [lra|ring].
Qed.

Lemma reflection_angle_nonneg (x y z : R) : 0 <= SU.reflection_angle [x; y; z].
Proof.
  unfold SU.reflection_angle.
  destruct (reflection_normal_cases x y z) as [a [b [c [E [Hc _]]]]]. rewrite E.
  unfold np_dot, np_sum, SU.ax_XY, vsquare. cbn. rsimp.
  unfold Rdiv. apply Rmult_le_pos; [lra|].
  set (s := sqrt _). destruct (Req_dec s 0) as [->|Hs].
  - rewrite Rinv_0. lra.
  - left. apply Rinv_0_lt_compat. pose proof (sqrt_pos (0 + a * a + b * b + c * c)). fold s in H. lra.
Qed.

Lemma reflection_axis_unit (x y z : R) :
  ~ (x = 0 /\ y = 0) ->
  np_dot (SU.reflection_axis [x; y; z]) (SU.reflection_axis [x; y; z]) = 1.
Proof.
  intros Hxy. unfold SU.reflection_axis.
  destruct (reflection_normal_cases x y z) as [a [b [c [E [_ Hab]]]]]. rewrite E.
  unfold np_cross, np_dot, np_sum, SU.ax_XY, vscale_div, item. cbn. rsimp.
  assert (Hpos : 0 < x * x + y * y).
  { destruct (Req_dec x 0) as [Hx|Hx]; destruct (Req_dec y 0) as [Hy|Hy];
      [exfalso; apply Hxy; split; assumption|nra|nra|nra]. }
  set (q := 0 + (0 * c - 1 * b) * (0 * c - 1 * b) + (1 * a - 0 * c) * (1 * a - 0 * c)
            + (0 * b - 0 * a) * (0 * b - 0 * a)).
  assert (Hq : q = a * a + b * b) by (unfold q; ring).
  assert (Hs : sqrt q * sqrt q = q) by (apply sqrt_sqrt; nra).
  assert (Hs0 : sqrt q <> 0).
  { intros E0. rewrite E0 in Hs. nra. }
  field_simplify; [|assumption].
  replace (sqrt q ^ 2) with (sqrt q * sqrt q) by ring.
  rewrite Hs, Hq. field. nra.
Qed.

Lemma normalize_3 (x y z : R) :
  SU.normalize [x; y; z] =
  [x / sqrt (0 + x * x + y * y + z * z); y / sqrt (0 + x * x + y * y + z * z);
   z / sqrt (0 + x * x + y * y + z * z)].
Proof. reflexivity. Qed.

Lemma normalize_off_axis (x y z : R) :
  ~ (x = 0 /\ y = 0) ->
  ~ (x / sqrt (0 + x * x + y * y + z * z) = 0 /\ y / sqrt (0 + x * x + y * y + z * z) = 0).
Proof.
  intros Hxy [Hx Hy].
  assert (Hpos : 0 < 0 + x * x + y * y + z * z).
  { destruct (Req_dec x 0) as [Ex|Ex]; destruct (Req_dec y 0) as [Ey|Ey];
      [exfalso; apply Hxy; split; assumption|nra|nra|nra]. }
  pose proof (sqrt_lt_R0 _ Hpos) as Hs.
  assert (Hinv : / sqrt (0 + x * x + y * y + z * z) <> 0)
    by (apply Rinv_neq_0_compat; lra).
  unfold Rdiv in Hx, Hy.
  apply Rmult_integral in Hx. apply Rmult_integral in Hy.
  apply Hxy. split; [destruct Hx|destruct Hy]; tauto.
Qed.

Lemma gen_op_Sigma eigh (self : SU.t) (ang x y z : R) :
  Rabs ang < 2 * PI ->
  SU.gen_op eigh Cexp self ang [x; y; z] "Sigma" =
  (S <- SU._reflection eigh Cexp self (SU.normalize [x; y; z]) ;; inr (RetMatrix S)).
Proof.
  intros Hang. unfold SU.gen_op. rewrite normalize_length. cbn [List.length Nat.eqb andb].
  replace (fltb (fabs ang) SU.two_pi) with true
    by (symmetry; apply Rltb_true; exact Hang).
  reflexivity.
Qed.

(** ** A worked instance: L = 1, normal (0, 1, 0) *)

Lemma sqrt2_sqr : sqrt 2 * sqrt 2 = 2.
Proof. apply sqrt_sqrt. lra. Qed.

Lemma h2_sqr : h2 * h2 = 1 / 2.
Proof. unfold h2. pose proof sqrt2_sqr. nra. Qed.

Lemma ladder_1_0 : ladder 1 0 = sqrt 2.
Proof. unfold ladder. f_equal. Qed.
Lemma ladder_1_1 : ladder 1 1 = sqrt 2.
Proof. unfold ladder. f_equal. Qed.
Lemma ladder_1_2 : ladder 1 2 = 0.
Proof. apply ladder_out. lia. Qed.

Lemma axis_010 : SU.reflection_axis (ops:=Exact.ops) [0; 1; 0] = [-1; 0; 0].
Proof.
  unfold SU.reflection_axis, SU.reflection_normal, item. cbn [nth fltb Exact.ops f0 of_Z].
  rewrite Rltb_false by lra.
  unfold np_cross, np_dot, np_sum, SU.ax_XY, vscale_div, item. cbn. rsimp.
  replace (0 + (0 * 0 - 1 * 1) * (0 * 0 - 1 * 1) + (1 * 0 - 0 * 0) * (1 * 0 - 0 * 0)
           + (0 * 1 - 0 * 0) * (0 * 1 - 0 * 0)) with 1 by ring.
  rewrite sqrt_1. repeat f_equal; field.
Qed.

Lemma angle_010 : SU.reflection_angle (ops:=Exact.ops) [0; 1; 0] = 0.
Proof.
  unfold SU.reflection_angle, SU.reflection_normal, item. cbn [nth fltb Exact.ops f0 of_Z].
  rewrite Rltb_false by lra.
  unfold np_dot, np_sum, SU.ax_XY, vsquare. cbn. rsimp. unfold Rdiv. ring.
Qed.

Ltac fin3 i H := destruct i as [|[|[|i]]]; [| | |exfalso; lia].

Lemma v1_unitary : unitary2 3 v1.
Proof.
  pose proof h2_sqr as Hh.
  split; intros i j Hi Hj; fin3 i Hi; fin3 j Hj;
    apply c_eq; cbn -[h2]; nra.
Qed.


Lemma Lx_1_table i j :
  (i < 3)%nat -> (j < 3)%nat ->
  SU.gen_Lx (ops:=Exact.ops) 1 i j =
  nth j (nth i [[0; h2; 0]; [h2; 0; h2]; [0; h2; 0]] []) 0.
Proof.
  intros Hi Hj. rewrite Lx_entry. unfold h2.
  fin3 i Hi; fin3 j Hj; cbn [Nat.eqb nth]; rewrite ?ladder_1_0, ?ladder_1_1, ?ladder_1_2; lra.
Qed.


Lemma phases_quarter :
  SU.phases Cexp (PI / 2) [-1; 0; 1] = [mkC 0 1; mkC 1 0; mkC 0 (-1)].
Proof.
  unfold SU.phases. cbn [map]. rewrite !phase_value.
  replace (PI / 2 * -1) with (- (PI / 2)) by lra.
  replace (PI / 2 * 0) with 0 by lra. replace (PI / 2 * 1) with (PI / 2) by lra.
  rewrite cos_neg, sin_neg, cos_PI2, sin_PI2, cos_0, sin_0.
  repeat f_equal; lra.
Qed.

Lemma phases_minus_quarter :
  SU.phases Cexp (- (PI / 2)) [-1; 0; 1] = [mkC 0 (-1); mkC 1 0; mkC 0 1].
Proof.
  unfold SU.phases. cbn [map]. rewrite !phase_value.
  replace (- (PI / 2) * -1) with (PI / 2) by lra.
  replace (- (PI / 2) * 0) with 0 by lra. replace (- (PI / 2) * 1) with (- (PI / 2)) by lra.
  rewrite cos_neg, sin_neg, cos_PI2, sin_PI2, cos_0, sin_0.
  repeat f_equal; lra.
Qed.

Lemma phases_none :
  SU.phases Cexp 0 [-1; 0; 1] = [c1; c1; c1].
Proof.
  unfold SU.phases. cbn [map]. rewrite !phase_value.
  rewrite !Rmult_0_l, cos_0, sin_0. unfold c1, cof. rsimp. repeat f_equal; lra.
Qed.

Lemma quarter_turn_column j :
  (j < 3)%nat ->
  spectral 3 (PI / 2) [-1; 0; 1] v1 j 0%nat = nth j [mkC (1 / 2) 0; mkC 0 h2; mkC (- (1 / 2)) 0] c0.
Proof.
  intros Hj. unfold spectral, einsum3. rewrite phases_quarter.
  pose proof h2_sqr as Hh.
  fin3 j Hj; apply c_eq; cbn -[h2]; nra.
Qed.

Lemma minus_quarter_turn_row j :
  (j < 3)%nat ->
  spectral 3 (- (PI / 2)) [-1; 0; 1] v1 0%nat j =
  nth j [mkC (1 / 2) 0; mkC 0 (- h2); mkC (- (1 / 2)) 0] c0.
Proof.
  intros Hj. unfold spectral, einsum3. rewrite phases_minus_quarter.
  pose proof h2_sqr as Hh.
  fin3 j Hj; apply c_eq; cbn -[h2]; nra.
Qed.

Lemma no_turn i j :
  (i < 3)%nat -> (j < 3)%nat ->
  spectral 3 0 [-1; 0; 1] v1 i j = identity i j.
Proof.
  intros Hi Hj. unfold spectral, einsum3. rewrite phases_none.
  pose proof h2_sqr as Hh.
  fin3 i Hi; fin3 j Hj; apply c_eq; cbn -[h2]; nra.
Qed.

Lemma Sigma_1_table i j :
  (i < 3)%nat -> (j < 3)%nat ->
  cSigma 1 i j = cof (nth j (nth i [[1; 0; 0]; [0; -1; 0]; [0; 0; 1]] []) 0).
Proof.
  intros Hi Hj. unfold cSigma, promoteZ, mmap. rewrite SigmaXY_entry by lia.
  fin3 i Hi; fin3 j Hj; reflexivity.
Qed.

Lemma normalize_010 : SU.normalize (ops:=Exact.ops) [0; 1; 0] = [0; 1; 0].
Proof.
  rewrite normalize_3.
  replace (0 + 0 * 0 + 1 * 1 + 0 * 0) with 1 by ring. rewrite sqrt_1.
  repeat f_equal; field.
Qed.

Lemma quarter_turn_row j :
  (j < 3)%nat ->
  spectral 3 (PI / 2) [-1; 0; 1] v1 0%nat j =
  nth j [mkC (1 / 2) 0; mkC 0 h2; mkC (- (1 / 2)) 0] c0.
Proof.
  intros Hj. unfold spectral, einsum3. rewrite phases_quarter.
  pose proof h2_sqr as Hh.
  fin3 j Hj; apply c_eq; cbn -[h2]; nra.
Qed.

Lemma minus_quarter_turn_column j :
  (j < 3)%nat ->
  spectral 3 (- (PI / 2)) [-1; 0; 1] v1 j 0%nat =
  nth j [mkC (1 / 2) 0; mkC 0 (- h2); mkC (- (1 / 2)) 0] c0.
Proof.
  intros Hj. unfold spectral, einsum3. rewrite phases_minus_quarter.
  pose proof h2_sqr as Hh.
  fin3 j Hj; apply c_eq; cbn -[h2]; nra.
Qed.

Lemma reflection_angle_value (x y z : R) :
  SU.reflection_angle (ops:=Exact.ops) [x; y; z] = Rabs z / sqrt (x * x + y * y + z * z).
Proof.
  unfold SU.reflection_angle, SU.reflection_normal, item.
  cbn [nth fltb Exact.ops f0 of_Z].
  destruct (Rlt_dec z 0) as [Hz|Hz].
  - rewrite Rltb_true by exact Hz.
    unfold np_dot, np_sum, SU.ax_XY, vsquare, vneg. cbn. rsimp.
    rewrite Rabs_left by exact Hz. f_equal; [ring|f_equal; ring].
  - rewrite Rltb_false by exact Hz.
    unfold np_dot, np_sum, SU.ax_XY, vsquare. cbn. rsimp.
    rewrite Rabs_right by lra. f_equal; [ring|f_equal; ring].
Qed.

(** C2.  The value [_reflection] binds to [ang] and passes to [_rotation]
    as the rotation angle is the cosine [z_hat . n / |n|] itself: no arccos
    is taken, although the comment on [rot_ax] speaks of the rotation angle
    from the XY plane to the plane of [n].
    - For every normal, [ang = |n_z| / |n|].
    - On binary64, for the normal (1, 0, 1), at 45 degrees from [z_hat],
      [ang] is 0.7071... (the cosine), below pi/4 = 0.7853...
      (written [two_pi / 8]).
    - For the unit normal n = (0, 1, 0), [z_hat . n = 0 = cos (pi / 2)], so
      the angle of the claim is pi/2 while the code rotates by 0: at L = 1
      [gen_op] returns [SigmaXY] itself, whose first entry is 1, while
      [rotation(-pi/2, r) . SigmaXY . rotation(+pi/2, r)] and the product
      with the two rotations exchanged both have 0 there ([eigh1] is the
      eigendecomposition of the generator along [r], see [eigh1_valid]). *)
Theorem reflection_angle_is_cosine :
  (forall x y z : R,
     SU.reflection_angle (ops:=Exact.ops) [x; y; z]
     = Rabs z / sqrt (x * x + y * y + z * z)) /\
  (SU.reflection_angle (ops:=IEEE.ops) (SU.normalize [1; 0; 1]%float)
   = 0x1.6a09e667f3bcdp-1%float /\
   PrimFloat.ltb 0x1.6a09e667f3bcdp-1 (SU.two_pi (ops:=IEEE.ops) / 8) = true) /\
  np_dot (ops:=Exact.ops) SU.ax_XY (SU.normalize [0; 1; 0]) = cos (PI / 2) /\
  SU.reflection_angle (ops:=Exact.ops) (SU.normalize [0; 1; 0]) = 0 /\
  exists S S1 S2 : matrix C,
    SU.gen_op eigh1 Cexp (space 1) 0 [0; 1; 0] "Sigma" = inr (RetMatrix S) /\
    SU.described_reflection eigh1 Cexp (space 1) (SU.normalize [0; 1; 0]) (PI / 2)
    = inr S1 /\
    (Rp <- SU._rotation eigh1 Cexp (space 1) (PI / 2)
             (SU.reflection_axis (SU.normalize [0; 1; 0])) ;;
     Rm <- SU._rotation eigh1 Cexp (space 1) (- (PI / 2))
             (SU.reflection_axis (SU.normalize [0; 1; 0])) ;;
     inr (einsum3 3 Rp (cSigma 1) Rm)) = inr S2 /\
    meq 3 S (cSigma 1) /\
    S 0%nat 0%nat = c1 /\ S1 0%nat 0%nat = c0 /\ S2 0%nat 0%nat = c0.
Proof.
  split; [exact reflection_angle_value|].
  split; [split; reflexivity|].
  rewrite normalize_010.
  split; [rewrite cos_PI2; unfold np_dot, np_sum, SU.ax_XY; cbn; rsimp; ring|].
  split; [exact angle_010|].
  assert (Hact : meq 3 (einsum3 3 (spectral 3 (SU.reflection_angle [0; 1; 0]) [-1; 0; 1] v1)
                          (cSigma 1)
                          (spectral 3 (- SU.reflection_angle [0; 1; 0]) [-1; 0; 1] v1))
                       (cSigma 1)).
  { intros i j Hi Hj. rewrite angle_010, Ropp_0. unfold einsum3. cbn [csum].
    rewrite !no_turn, !Sigma_1_table by lia.
    fin3 i Hi; fin3 j Hj; apply c_eq; cbn; lra. }
  assert (Hcl : (einsum3 3 (spectral 3 (- (PI / 2)) [-1; 0; 1] v1) (cSigma 1)
                   (spectral 3 (PI / 2) [-1; 0; 1] v1)) 0%nat 0%nat = c0).
  { unfold einsum3. cbn [csum].
    rewrite !quarter_turn_column, !minus_quarter_turn_row, !Sigma_1_table by lia.
    pose proof h2_sqr as Hh. apply c_eq; cbn -[h2]; nra. }
  assert (Hrev : (einsum3 3 (spectral 3 (PI / 2) [-1; 0; 1] v1) (cSigma 1)
                    (spectral 3 (- (PI / 2)) [-1; 0; 1] v1)) 0%nat 0%nat = c0).
  { unfold einsum3. cbn [csum].
    rewrite !quarter_turn_row, !minus_quarter_turn_column, !Sigma_1_table by lia.
    pose proof h2_sqr as Hh. apply c_eq; cbn -[h2]; nra. }
  eexists. eexists. eexists.
  split; [|split; [|split; [|split; [exact Hact|split; [|split; [exact Hcl|exact Hrev]]]]]].
  - rewrite gen_op_Sigma, normalize_010;
      [|rewrite Rabs_R0; pose proof PI_RGT_0; lra].
    rewrite (reflection_value eigh1 (space 1) [0; 1; 0] [-1; 0; 1] v1) by reflexivity.
    reflexivity.
  - reflexivity.
  - reflexivity.
  - rewrite (Hact 0%nat 0%nat) by (cbn; lia).
    rewrite Sigma_1_table by lia. reflexivity.
Qed.

(** ** [__init__] *)

(** Whatever [__init__] returns is the instance [make L] of a Python int
    [L >= 0]: no other value is ever stored. *)
Lemma init_returns_make {F : Type} {ops : Float64 F} eigvalsh (Lv : pynum F) (s : SU.t) :
  SU.__init__ eigvalsh Lv = inr s ->
  exists L : Z, Lv = PyInt L /\ (0 <= L)%Z /\ s = SU.make L.
Proof.
  unfold SU.__init__. destruct Lv as [L|x].
  - destruct (Z.leb_spec 0 L) as [HL|HL]; [|discriminate].
    repeat match goal with
           | |- context [if ?b then _ else _] => destruct b; [|discriminate]
           | |- context [bind ?x _] => destruct x; cbn [bind]; [discriminate|]
           end.
    intros E. injection E as <-. exists L. auto.
  - destruct (fleb f0 x); [|discriminate]. destruct (to_int x); discriminate.
Qed.

Lemma all_entries_true (d : nat) (p : nat -> nat -> bool) :
  (forall i j, (i < d)%nat -> (j < d)%nat -> p i j = true) -> all_entries d p = true.
Proof.
  intros H. unfold all_entries. apply forallb_forall. intros i Hi.
  apply forallb_forall. intros j Hj. apply in_seq in Hi, Hj. apply H; lia.
Qed.

Lemma isclose_zero (b : R) : 0 <= b -> isclose (ops:=Exact.ops) 0 b = true.
Proof.
  intros Hb. unfold isclose, atol, rtol. rsimp. apply Rleb_true.
  assert (0 < 1 / 100000000) by lra. assert (0 < 1 / 100000) by lra. nra.
Qed.

Lemma allclose_same d (A B : matrix R) :
  (forall i j, (i < d)%nat -> (j < d)%nat -> A i j = B i j) ->
  allclose (ops:=Exact.ops) d A B = true.
Proof.
  intros H. unfold allclose. apply all_entries_true. intros i j Hi Hj.
  rewrite (H i j Hi Hj). rsimp. rewrite Rminus_diag, Rabs_R0.
  apply isclose_zero. apply Rabs_pos.
Qed.

Lemma callclose_same d (A B : matrix C) :
  meq d A B -> callclose (ops:=Exact.ops) d A B = true.
Proof.
  intros H. unfold callclose. apply all_entries_true. intros i j Hi Hj.
  rewrite (H i j Hi Hj). unfold cabs. rsimp.
  rewrite !Rminus_diag, Rmult_0_l, Rplus_0_l, sqrt_0.
  apply isclose_zero. apply sqrt_pos.
Qed.

Lemma vallclose_same (l : list R) : vallclose (ops:=Exact.ops) l l = true.
Proof.
  unfold vallclose. apply forallb_forall. intros [a b] Hin.
  assert (a = b) as ->.
  { clear -Hin. induction l as [|x l IH]; [contradiction|].
    destruct Hin as [E|Hin]; [injection E as <- <-; reflexivity|auto]. }
  cbn [fst snd]. rsimp. rewrite Rminus_diag, Rabs_R0.
  apply isclose_zero. apply Rabs_pos.
Qed.

Lemma vallclose_zeros (d : nat) (l : list R) :
  vallclose (ops:=Exact.ops) (repeat f0 d) (map (fun _ => f0) l) = true.
Proof.
  unfold vallclose. apply forallb_forall. intros [a b] Hin.
  assert (a = 0 /\ b = 0) as [-> ->].
  { split.
    - apply in_combine_l in Hin. apply repeat_spec in Hin. exact Hin.
    - apply in_combine_r in Hin. apply in_map_iff in Hin. destruct Hin as [? [E _]].
      symmetry. exact E. }
  cbn [fst snd]. rsimp. rewrite Rminus_diag, Rabs_R0.
  apply isclose_zero. lra.
Qed.

Lemma np_sort_ascending (a : Z) (n : nat) :
  np_sort (ops:=Exact.ops) (map (fun i => IZR (a + Z.of_nat i)) (seq 0 n)) =
  map (fun i => IZR (a + Z.of_nat i)) (seq 0 n).
Proof.
  generalize 0%nat as s. induction n as [|n IH]; intros s; [reflexivity|].
  cbn [seq map]. unfold np_sort in *. cbn [fold_right]. rewrite IH.
  destruct n as [|n]; [reflexivity|].
  cbn [seq map insert_sorted]. rsimp.
  rewrite Rleb_true; [reflexivity|]. apply IZR_le. lia.
Qed.

(** With an eigensolver that returns the spectrum -L, ..., L in ascending
    order (which is the spectrum of each generator, see below), every check
    of [__init__] passes and the instance is built. *)
Lemma init_constructs (L : Z) eigvalsh :
  (0 <= L)%Z ->
  let d := SU.side L in
  let spectrum := map IZR (range (- L) (L + 1)) in
  eigvalsh d (promote (SU.gen_Lx L)) = inr spectrum ->
  eigvalsh d (SU.gen_Ly L) = inr spectrum ->
  eigvalsh d (promoteZ (SU.gen_Lz L)) = inr spectrum ->
  SU.__init__ (ops:=Exact.ops) eigvalsh (PyInt L) = inr (SU.make L).
Proof.
  intros HL d spectrum Hx Hy Hz. unfold SU.__init__.
  destruct (Z.leb_spec 0 L) as [_|]; [|lia].
  fold d. rewrite Hx, Hy, Hz. cbn [bind].
  assert (Hshape : ((np_diag_side (SU.Lp_entries (ops:=Exact.ops) L) (-1) =? d)%nat
                    && (np_diag_side (SU.Lm_entries (ops:=Exact.ops) L) 1 =? d)%nat
                    && (np_diag_side (range (- L) (L + 1)) 0 =? d)%nat) = true).
  { unfold np_diag_side, SU.Lp_entries, SU.Lm_entries, d, SU.side.
    rewrite !length_map, !range_length.
    rewrite !andb_true_iff, !Nat.eqb_eq. repeat split; lia. }
  rewrite Hshape.
  assert (Hherm : (allclose d (SU.gen_Lx L) (transpose (SU.gen_Lx L))
                   && callclose d (SU.gen_Ly L) (adjoint (SU.gen_Ly L))
                   && allclose d (mmap of_Z (SU.gen_Lz L))
                                 (transpose (mmap of_Z (SU.gen_Lz L)))) = true).
  { rewrite !andb_true_iff. repeat split.
    - apply allclose_same. intros i j _ _. unfold transpose. rewrite !Lx_entry. ring.
    - apply callclose_same. apply hermitian_Ly.
    - apply allclose_same. intros i j Hi Hj. unfold transpose, mmap, d, SU.side in *.
      rewrite !Lz_entry by lia. rewrite (Nat.eqb_sym j i).
      destruct (Nat.eqb_spec i j); subst; reflexivity. }
  rewrite Hherm.
  assert (Hsort : np_sort (ops:=Exact.ops) spectrum = spectrum).
  { unfold spectrum, range. rewrite map_map. apply np_sort_ascending. }
  rewrite Hsort.
  change (map of_Z (range (- L) (L + 1))) with spectrum.
  rewrite vallclose_same, vallclose_zeros. reflexivity.
Qed.

(** ** The spectrum of the generators *)

Lemma casimir_yzx L :
  (0 <= L)%Z ->
  meq (SU.side L)
      (madd (madd (mdot (SU.side L) (cLy L) (cLy L)) (mdot (SU.side L) (cLz L) (cLz L)))
            (mdot (SU.side L) (cLx L) (cLx L)))
      (cscale (cofZ (L * (L + 1))) identity).
Proof.
  intros HL i l Hi Hl. rewrite <- (casimir L HL i l Hi Hl). unfold madd, mmap2. cx.
Qed.

Lemma casimir_zxy L :
  (0 <= L)%Z ->
  meq (SU.side L)
      (madd (madd (mdot (SU.side L) (cLz L) (cLz L)) (mdot (SU.side L) (cLx L) (cLx L)))
            (mdot (SU.side L) (cLy L) (cLy L)))
      (cscale (cofZ (L * (L + 1))) identity).
Proof.
  intros HL i l Hi Hl. rewrite <- (casimir L HL i l Hi Hl). unfold madd, mmap2. cx.
Qed.

Lemma spectrum_Lx L lam :
  (0 <= L)%Z -> eigenvalue (SU.side L) (cLx L) lam <-> in_spectrum L lam.
Proof.
  intros HL. split.
  - apply (eigenvalue_integer (SU.side L) L (cLx L) (cLy L) (cLz L)); auto using
      hermitian_Lx, hermitian_Ly, hermitian_Lz, comm_Lx_Ly, comm_Ly_Lz, comm_Lz_Lx, casimir.
  - intros [m [Hm ->]].
    apply (eigenvalue_all (SU.side L) L (cLx L) (cLy L) (cLz L)); auto using
      hermitian_Lx, hermitian_Ly, hermitian_Lz, comm_Lx_Ly, comm_Ly_Lz, comm_Lz_Lx, casimir.
    exists (top_Lx L). split; [apply top_Lx_nonzero|apply Lx_top]; assumption.
Qed.

Lemma spectrum_Ly L lam :
  (0 <= L)%Z -> eigenvalue (SU.side L) (cLy L) lam <-> in_spectrum L lam.
Proof.
  intros HL. split.
  - apply (eigenvalue_integer (SU.side L) L (cLy L) (cLz L) (cLx L)); auto using
      hermitian_Lx, hermitian_Ly, hermitian_Lz, comm_Lx_Ly, comm_Ly_Lz, comm_Lz_Lx, casimir_yzx.
  - intros [m [Hm ->]].
    apply (eigenvalue_all (SU.side L) L (cLy L) (cLz L) (cLx L)); auto using
      hermitian_Lx, hermitian_Ly, hermitian_Lz, comm_Lx_Ly, comm_Ly_Lz, comm_Lz_Lx, casimir_yzx.
    exists (top_Ly L). split; [apply top_Ly_nonzero|apply Ly_top]; assumption.
Qed.

Lemma spectrum_Lz L lam :
  (0 <= L)%Z -> eigenvalue (SU.side L) (cLz L) lam <-> in_spectrum L lam.
Proof.
  intros HL. split.
  - apply (eigenvalue_integer (SU.side L) L (cLz L) (cLx L) (cLy L)); auto using
      hermitian_Lx, hermitian_Ly, hermitian_Lz, comm_Lx_Ly, comm_Ly_Lz, comm_Lz_Lx, casimir_zxy.
  - intros [m [Hm ->]].
    apply (eigenvalue_all (SU.side L) L (cLz L) (cLx L) (cLy L)); auto using
      hermitian_Lx, hermitian_Ly, hermitian_Lz, comm_Lx_Ly, comm_Ly_Lz, comm_Lz_Lx, casimir_zxy.
    exists (top_Lz L). split; [apply top_Lz_nonzero|apply Lz_top]; assumption.
Qed.

Lemma generator_sides L :
  (0 <= L)%Z ->
  np_diag_side (SU.Lp_entries (ops:=Exact.ops) L) (-1) = Z.to_nat (2 * L + 1) /\
  np_diag_side (SU.Lm_entries (ops:=Exact.ops) L) 1 = Z.to_nat (2 * L + 1) /\
  np_diag_side (range (- L) (L + 1)) 0 = Z.to_nat (2 * L + 1).
Proof.
  intros HL. unfold np_diag_side, SU.Lp_entries, SU.Lm_entries.
  rewrite !length_map, !range_length. repeat split; lia.
Qed.

Lemma radicands_nonneg L :
  (0 <= L)%Z ->
  Forall (fun m => 0 <= L * (L + 1) - m * (m + 1))%Z (range (- L) L) /\
  Forall (fun m => 0 <= L * (L + 1) - m * (m - 1))%Z (range (- L + 1) (L + 1)).
Proof.
  intros HL. split; apply Forall_forall; intros m Hm; unfold range in Hm;
    apply in_map_iff in Hm; destruct Hm as [t [<- Ht]]; apply in_seq in Ht; nia.
Qed.

(** ** Input checks, at every instance of the arithmetic *)

Section Checks.
Context {F : Type} {ops : Float64 F}.
Variable eigh : nat -> matrix (complex F) -> exn + (list F * matrix (complex F)).
Variable cexp : complex F -> complex F.

(** C8 (as amended).  [gen_op] raises AssertionError whenever the absolute
    value of the angle is not below [2 * pi] (the asserted test
    [ang < 2. * np.pi] is false), whatever the axis, the operator type and
    the eigensolver: no operator is computed.  A zero axis is not among the
    rejected inputs. *)
Theorem gen_op_rejects_large_angle (self : SU.t) (ang : F) (ax : list F)
        (op_type : string) :
  fltb (fabs ang) SU.two_pi = false ->
  SU.gen_op eigh cexp self ang ax op_type = inl AssertionError.
Proof.
  intros H. unfold SU.gen_op. rewrite H, andb_false_r. reflexivity.
Qed.

(** C9 (as amended).  For every operator type other than 'Cn', 'Sigma' and
    'Sn', once the assertion on the axis and the angle has passed, [gen_op]
    raises nothing: it prints the message and returns [None]. *)
Theorem gen_op_unrecognized_type (self : SU.t) (ang : F) (ax : list F)
        (op_type : string) :
  op_type <> "Cn"%string -> op_type <> "Sigma"%string -> op_type <> "Sn"%string ->
  List.length ax = 3%nat ->
  fltb (fabs ang) SU.two_pi = true ->
  SU.gen_op eigh cexp self ang ax op_type = inr (RetNone SU.not_recognized).
Proof.
  intros H1 H2 H3 Hlen Hang. unfold SU.gen_op.
  rewrite normalize_length, Hlen, Hang. cbn [Nat.eqb andb].
  apply String.eqb_neq in H1, H2, H3. rewrite H1, H2, H3. reflexivity.
Qed.
End Checks.

(** In exact arithmetic the asserted test fails exactly when the absolute
    value of the angle is at least [2 * pi]. *)
Lemma large_angle_rejected_exact eigh cexp (self : SU.t) (ang : R) (ax : list R)
      (op_type : string) :
  2 * PI <= Rabs ang ->
  SU.gen_op (ops:=Exact.ops) eigh cexp self ang ax op_type = inl AssertionError.
Proof.
  intros H. unfold SU.gen_op.
  replace (fltb (fabs ang) SU.two_pi) with false
    by (symmetry; apply Rltb_false; unfold SU.two_pi; rsimp; lra).
  rewrite andb_false_r. reflexivity.
Qed.

(** C7.  For every [L] that is a negative int or a float, [SU(L)] ends in an
    exception, the same one whatever the eigensolver would return: the
    failure precedes every computation on the generators, and no instance
    (with [L] coerced or not) is returned. *)
Theorem init_rejects_invalid_L {F : Type} {ops : Float64 F} (Lv : pynum F) :
  invalid_L Lv ->
  exists e, forall eigvalsh, SU.__init__ eigvalsh Lv = inl e.
Proof.
  destruct Lv as [z|x]; intros H.
  - exists AssertionError. intros eigvalsh. unfold SU.__init__. cbn in H.
    destruct (Z.leb_spec 0 z); [lia|reflexivity].
  - unfold SU.__init__. destruct (fleb f0 x).
    + destruct (to_int x); eexists; intros; reflexivity.
    + eexists; intros; reflexivity.
Qed.

Lemma init_rejects_invalid_L_witness :
  invalid_L (F:=float) (PyFloat 1.5%float) /\
  invalid_L (F:=float) (PyInt (-1)) /\
  (exists e, forall eigvalsh,
      SU.__init__ (ops:=IEEE.ops) eigvalsh (PyFloat 1.5%float) = inl e) /\
  (exists e, forall eigvalsh,
      SU.__init__ (ops:=IEEE.ops) eigvalsh (PyInt (-1)) = inl e).
Proof.
  split; [exact I|]. split; [reflexivity|]. split.
  - apply (init_rejects_invalid_L (ops:=IEEE.ops) (PyFloat 1.5%float)). exact I.
  - apply (init_rejects_invalid_L (ops:=IEEE.ops) (PyInt (-1))). reflexivity.
Defined.

Lemma gen_op_rejects_large_angle_witness :
  fltb (Float64:=IEEE.ops) (fabs 7%float) SU.two_pi = false /\
  SU.gen_op (ops:=IEEE.ops) lapack_fails no_exp (SU.make 1) 7%float
            [0; 0; 1]%float "Cn" = inl AssertionError.
Proof.
  split; [reflexivity|].
  apply (gen_op_rejects_large_angle (ops:=IEEE.ops)). reflexivity.
Defined.

Lemma gen_op_unrecognized_type_witness :
  SU.gen_op (ops:=IEEE.ops) lapack_fails no_exp (SU.make 2) 3%float
            [1; 1; 0]%float "ref" = inr (RetNone SU.not_recognized).
Proof.
  apply (gen_op_unrecognized_type (ops:=IEEE.ops)).
  - discriminate.
  - discriminate.
  - discriminate.
  - reflexivity.
  - reflexivity.
Defined.

(** ** The code on IEEE floats: the z axis, the zero axis, a tiny axis *)

(** C8: the zero axis is not rejected.  Its normalisation is 0/0 = NaN in
    each component, the assertion passes, and the request reaches
    [_rotation] and the eigensolver with a NaN axis; with an eigensolver that
    does not converge on NaN the error raised is LinAlgError. *)
Lemma zero_axis_not_rejected :
  SU.normalize (ops:=IEEE.ops) [0; 0; 0]%float = [nan; nan; nan] /\
  (forall eigh cexp,
     SU.gen_op (ops:=IEEE.ops) eigh cexp (SU.make 1) 1%float [0; 0; 0]%float "Cn" =
     (R <- SU._rotation eigh cexp (SU.make 1) 1%float [nan; nan; nan] ;;
      inr (RetMatrix R))) /\
  SU.gen_op (ops:=IEEE.ops) lapack_fails no_exp (SU.make 1) 1%float [0; 0; 0]%float "Cn"
  = inl LinAlgError.
Proof. repeat split. Qed.

(** C9: an unrecognized operator type returns [None] ('rot' is the name the
    printed message itself suggests). *)
Lemma unrecognized_type_returns_none :
  SU.gen_op (ops:=IEEE.ops) lapack_fails no_exp (SU.make 1) 0%float [0; 0; 1]%float "rot"
  = inr (RetNone SU.not_recognized).
Proof. reflexivity. Qed.

(** C4.  The axis (1e-200, 0, 0) is not the zero vector, but its squares
    underflow to 0 in binary64: [np.sqrt(np.sum(ax**2))] is 0, the
    normalised axis is [inf, nan, nan], the assertion passes, and every
    entry of the array handed to the eigensolver is NaN, so that no unitary
    matrix is returned; with an eigensolver that does not converge on NaN
    the error raised is LinAlgError.  (The literal is the binary64 number
    that Python reads for [1e-200].) *)
Theorem rotate_tiny_axis_is_nan :
  SU.normalize (ops:=IEEE.ops) [0x1.87e92154ef7acp-665; 0; 0]%float = [infinity; nan; nan] /\
  map (fun i => map (fun j =>
         SU.axis_generator (ops:=IEEE.ops) (SU.make 1)
                           (SU.normalize [0x1.87e92154ef7acp-665; 0; 0]%float) i j)
       (seq 0 3)) (seq 0 3)
  = repeat (repeat (mkC nan nan) 3) 3 /\
  (forall eigh cexp,
     SU.gen_op (ops:=IEEE.ops) eigh cexp (SU.make 1) 1%float
               [0x1.87e92154ef7acp-665; 0; 0]%float "Cn" =
     (R <- SU._rotation eigh cexp (SU.make 1) 1%float [infinity; nan; nan] ;;
      inr (RetMatrix R))) /\
  SU.gen_op (ops:=IEEE.ops) lapack_fails no_exp (SU.make 1) 1%float
            [0x1.87e92154ef7acp-665; 0; 0]%float "Cn"
  = inl LinAlgError.
Proof. repeat split. Qed.

(** An axis whose squares overflow is not normalised either:
    (1e200, 0, 0) becomes the zero vector, for which the generator vanishes;
    and a normal tilted off the z axis by less than binary64 can square,
    (1e-200, 0, 1), gets the rotation axis [nan, inf, nan]. *)
Lemma normalisation_out_of_range :
  SU.normalize (ops:=IEEE.ops) [0x1.4e718d7d7625ap+664; 0; 0]%float = [0; 0; 0]%float /\
  SU.reflection_axis (ops:=IEEE.ops) [0x1.87e92154ef7acp-665; 0; 1]%float
  = [nan; infinity; nan].
Proof. split; reflexivity. Qed.

(** C3.  For the normal (0, 0, 1) the cross product with z_hat is the zero
    vector, [_reflection] divides it by its length 0, and the rotation axis
    is NaN in each component: [gen_op] hands [_rotation] a NaN axis (and the
    angle 1) instead of returning SigmaXY. *)
Theorem reflect_z_axis_divides_by_zero :
  np_cross (F:=float) SU.ax_XY [0; 0; 1]%float = [0; 0; 0]%float /\
  PrimFloat.sqrt (np_dot (np_cross (F:=float) SU.ax_XY [0; 0; 1]%float)
                         (np_cross (F:=float) SU.ax_XY [0; 0; 1]%float)) = 0%float /\
  SU.reflection_axis (ops:=IEEE.ops) [0; 0; 1]%float = [nan; nan; nan] /\
  SU.reflection_angle (ops:=IEEE.ops) [0; 0; 1]%float = 1%float /\
  (forall eigh cexp,
     SU.gen_op (ops:=IEEE.ops) eigh cexp (SU.make 1) 0%float [0; 0; 1]%float "Sigma" =
     (S <- (Rp <- SU._rotation eigh cexp (SU.make 1) 1%float [nan; nan; nan] ;;
            Rm <- SU._rotation eigh cexp (SU.make 1) (-1)%float [nan; nan; nan] ;;
            inr (einsum3 3 Rp (promoteZ (SU.gen_SigmaXY 1)) Rm)) ;;
      inr (RetMatrix S))).
Proof. repeat split. Qed.

(** C6.  For the unit normal (0, 0, 1) every entry of the matrix that
    [_reflection] hands to the eigensolver is NaN + NaN j, so no reflection
    matrix is produced whose square could be the identity; with an
    eigensolver that does not converge on NaN, [_reflection] raises. *)
Theorem reflect_z_generator_is_nan :
  map (fun i => map (fun j =>
         SU.axis_generator (ops:=IEEE.ops) (SU.make 1)
                           (SU.reflection_axis [0; 0; 1]%float) i j)
       (seq 0 3)) (seq 0 3)
  = repeat (repeat (mkC nan nan) 3) 3 /\
  SU._reflection (ops:=IEEE.ops) lapack_fails no_exp (SU.make 1) [0; 0; 1]%float
  = inl LinAlgError.
Proof. split; reflexivity. Qed.

(** ** The generators of [SU(L)] *)

(** C1.  For every integer [L >= 0] the three generators are square arrays
    of side [2 L + 1], each equals its conjugate transpose, and the
    eigenvalues of each of them are exactly the numbers -L, -L + 1, ..., L
    (as complex numbers: imaginary part zero).  Exact arithmetic. *)
Theorem generators_hermitian_spectrum (L : Z) :
  (0 <= L)%Z ->
  let d := SU.side L in
  (d = Z.to_nat (2 * L + 1) /\
   np_diag_side (SU.Lp_entries (ops:=Exact.ops) L) (-1) = d /\
   np_diag_side (SU.Lm_entries (ops:=Exact.ops) L) 1 = d /\
   np_diag_side (range (- L) (L + 1)) 0 = d) /\
  (hermitian d (cLx L) /\ hermitian d (cLy L) /\ hermitian d (cLz L)) /\
  (forall lam, eigenvalue d (cLx L) lam <-> in_spectrum L lam) /\
  (forall lam, eigenvalue d (cLy L) lam <-> in_spectrum L lam) /\
  (forall lam, eigenvalue d (cLz L) lam <-> in_spectrum L lam).
Proof.
  intros HL d. split; [|split; [|split; [|split]]].
  - split; [reflexivity|]. apply generator_sides. exact HL.
  - split; [apply hermitian_Lx|split; [apply hermitian_Ly|apply hermitian_Lz]].
  - intros lam. apply spectrum_Lx. exact HL.
  - intros lam. apply spectrum_Ly. exact HL.
  - intros lam. apply spectrum_Lz. exact HL.
Qed.

Lemma generators_hermitian_spectrum_witness :
  (0 <= 2)%Z /\
  hermitian (SU.side 2) (cLy 2) /\
  eigenvalue (SU.side 2) (cLx 2) (cofZ (-1)) /\
  ~ eigenvalue (SU.side 2) (cLy 2) (mkC (1 / 2) 0).
Proof.
  assert (H2 : (0 <= 2)%Z) by lia.
  destruct (generators_hermitian_spectrum 2 H2) as [_ [[_ [Hy _]] [Sx [Sy _]]]].
  split; [exact H2|]. split; [exact Hy|]. split.
  - apply Sx. exists (-1)%Z. split; [lia|reflexivity].
  - intros E. apply Sy in E. destruct E as [m [_ E]].
    apply (f_equal re) in E. cbn in E.
    assert (Hm : IZR (2 * m) = IZR 1) by (rewrite mult_IZR, <- E; lra).
    apply eq_IZR in Hm. lia.
Defined.

(** C5.  For every integer [L >= 0]: [Lx, Ly] = i Lz, [Ly, Lz] = i Lx and
    [Lz, Lx] = i Ly, entry by entry.  Exact arithmetic. *)
Theorem commutation_relations (L : Z) :
  (0 <= L)%Z ->
  let d := SU.side L in
  meq d (commutator d (cLx L) (cLy L)) (cscale Ci (cLz L)) /\
  meq d (commutator d (cLy L) (cLz L)) (cscale Ci (cLx L)) /\
  meq d (commutator d (cLz L) (cLx L)) (cscale Ci (cLy L)).
Proof.
  intros HL d. split; [|split].
  - apply comm_Lx_Ly. exact HL.
  - apply comm_Ly_Lz. exact HL.
  - apply comm_Lz_Lx. exact HL.
Qed.

Lemma commutation_relations_witness :
  (0 <= 3)%Z /\
  meq (SU.side 3) (commutator (SU.side 3) (cLx 3) (cLy 3)) (cscale Ci (cLz 3)).
Proof.
  assert (H3 : (0 <= 3)%Z) by lia.
  split; [exact H3|]. exact (proj1 (commutation_relations 3 H3)).
Defined.

(** C10.  For every integer [L >= 0]: each square root in the construction
    is taken of a non-negative integer, [Lx] and [Lz] are real arrays (their
    promotion to complex has imaginary part zero in each entry), and each
    entry of [Ly] has real part zero.  Exact arithmetic. *)
Theorem generators_real_imaginary (L : Z) :
  (0 <= L)%Z ->
  (Forall (fun m => 0 <= L * (L + 1) - m * (m + 1))%Z (range (- L) L) /\
   Forall (fun m => 0 <= L * (L + 1) - m * (m - 1))%Z (range (- L + 1) (L + 1))) /\
  forall i j : nat,
    im (cLx L i j) = 0 /\ im (cLz L i j) = 0 /\ re (cLy L i j) = 0.
Proof.
  intros HL. split; [apply radicands_nonneg; exact HL|].
  intros i j. split; [reflexivity|]. split; [reflexivity|].
  unfold cLy. rewrite Ly_entry. reflexivity.
Qed.

Lemma generators_real_imaginary_witness :
  (0 <= 2)%Z /\ re (cLy 2 1%nat 2%nat) = 0 /\ im (cLx 2 1%nat 2%nat) = 0.
Proof.
  assert (H2 : (0 <= 2)%Z) by lia.
  split; [exact H2|].
  destruct (generators_real_imaginary 2 H2) as [_ H].
  destruct (H 1%nat 2%nat) as [Hx [_ Hy]]. split; assumption.
Defined.

(** ** Further properties of the rotation *)


Lemma diag_zero (e : list R) d :
  List.length e = d -> meq d (np_diag c0 (SU.phases Cexp 0 e) 0) identity.
Proof.
  intros He i l Hi Hl. rewrite diag_entry by lia. unfold identity.
  destruct (i =? l)%nat; [|reflexivity].
  rewrite Rmult_0_l, cos_0, sin_0. cx.
Qed.





Lemma init_constructs_witness :
  (0 <= 1)%Z /\
  SU.__init__ (ops:=Exact.ops) (ideal_eigvalsh 1) (PyInt 1) = inr (SU.make 1).
Proof.
  assert (H1 : (0 <= 1)%Z) by lia.
  split; [exact H1|].
  apply (init_constructs 1 (ideal_eigvalsh 1) H1); reflexivity.
Defined.

(** ** The same checks on IEEE floats, for L = 0, 1, 2, 3 *)

(** With an eigensolver that returns -L, ..., L, every assertion of
    [__init__] passes in binary64 and the instance is built. *)
Lemma init_constructs_binary64 :
  map (fun L => match SU.__init__ (ops:=IEEE.ops) (ideal_eigvalsh64 L) (PyInt L) with
                | inr s => Some (SU.L s)
                | inl _ => None
                end) [0; 1; 2; 3]%Z
  = [Some 0; Some 1; Some 2; Some 3]%Z.
Proof. vm_compute. reflexivity. Qed.

(** In binary64 each entry of [Ly] has real part +0.0, and [Lx] and [Ly]
    equal their conjugate transposes. *)
Lemma generators_binary64 :
  forallb generators_check64 [0; 1; 2; 3]%Z = true.
Proof. vm_compute. reflexivity. Qed.

(** The commutation relations hold within the tolerance of [np.allclose]
    in binary64. *)
Lemma commutation_binary64 :
  forallb (fun L => commutation_close (ops:=IEEE.ops) L) [0; 1; 2; 3]%Z = true.
Proof. vm_compute. reflexivity. Qed.

Lemma init_returns_make_witness :
  SU.__init__ (ops:=IEEE.ops) (ideal_eigvalsh64 1) (PyInt 1) = inr (SU.make 1) /\
  exists L : Z, PyInt (F:=float) 1 = PyInt L /\ (0 <= L)%Z /\ SU.make (ops:=IEEE.ops) 1 = SU.make L.
Proof.
  assert (H : SU.__init__ (ops:=IEEE.ops) (ideal_eigvalsh64 1) (PyInt 1) = inr (SU.make 1))
    by reflexivity.
  split; [exact H|].
  exact (init_returns_make (ideal_eigvalsh64 1) (PyInt 1) (SU.make 1) H).
Defined.

(** At every instance of the arithmetic, floats included, [Lm] is the
    transpose of [Lp] entry for entry: the two comprehensions of [__init__]
    produce the same list. *)
Lemma Lm_transposes_Lp {F : Type} {ops : Float64 F} (L : Z) (i j : nat) :
  SU.gen_Lm L i j = SU.gen_Lp L j i.
Proof.
  unfold SU.gen_Lm, SU.gen_Lp, np_diag. rewrite Lm_entries_Lp_entries.
  change ((0 <=? 1)%Z) with true. change ((0 <=? -1)%Z) with false.
  destruct (Z.eqb_spec (Z.of_nat j) (Z.of_nat i + 1));
    destruct (Z.eqb_spec (Z.of_nat i) (Z.of_nat j + -1)); try lia; reflexivity.
Qed.

(** Lx.Lx + Ly.Ly + Lz.Lz = L (L + 1) 1 for every integer L >= 0. *)
Lemma casimir_identity (L : Z) :
  (0 <= L)%Z ->
  let d := SU.side L in
  meq d (madd (madd (mdot d (cLx L) (cLx L)) (mdot d (cLy L) (cLy L)))
              (mdot d (cLz L) (cLz L)))
        (cscale (cofZ (L * (L + 1))) identity).
Proof. intros HL d. apply casimir. exact HL. Qed.

Lemma casimir_identity_witness :
  (0 <= 2)%Z /\
  meq (SU.side 2)
      (madd (madd (mdot (SU.side 2) (cLx 2) (cLx 2)) (mdot (SU.side 2) (cLy 2) (cLy 2)))
            (mdot (SU.side 2) (cLz 2) (cLz 2)))
      (cscale (cofZ (2 * (2 + 1))) identity).
Proof.
  assert (H2 : (0 <= 2)%Z) by lia.
  split; [exact H2|]. exact (casimir_identity 2 H2).
Defined.

(** SigmaXY is diagonal with entries +1 and -1, and squares to the identity. *)
Lemma SigmaXY_squares_to_identity (L : Z) :
  (forall i j : nat, (i < SU.side L)%nat ->
     SU.gen_SigmaXY L i j = if (i =? j)%nat then ((-1) ^ Z.of_nat i)%Z else 0%Z) /\
  meq (SU.side L) (mdot (SU.side L) (cSigma L) (cSigma L)) identity.
Proof.
  split.
  - intros i j Hi. apply SigmaXY_entry. unfold SU.side in Hi. lia.
  - apply Sigma_involution.
Qed.

(** * Further properties of the code *)

(** ** The eigendecomposition behind [_rotation] *)

Lemma meq_of_eq d (A B : matrix C) : (forall i l, A i l = B i l) -> meq d A B.
Proof. intros H i l _ _. apply H. Qed.

Lemma eigh_valid_ok eigh d M : eigh_valid eigh d M -> eigh_ok eigh d M.
Proof.
  unfold eigh_valid, eigh_ok. destruct (eigh d M) as [?|[e v]]; [tauto|].
  intros [He [Hv _]]. split; assumption.
Qed.

Lemma axis_generator_gen3 L (ax : list R) i j :
  SU.axis_generator (space L) ax i j = gen3 L (item ax 0) (item ax 1) (item ax 2) i j.
Proof.
  unfold SU.axis_generator, gen3, space, SU.make, cLx, cLy, cLz, promote, promoteZ,
    mscale, cscale, mmap2, mmap. cbn [SU.Lx SU.Ly SU.Lz].
  cx.
Qed.

Lemma hermitian_gen3 L x y z : hermitian (SU.side L) (gen3 L x y z).
Proof.
  intros i j Hi Hj. unfold adjoint, mmap, transpose, gen3.
  pose proof (hermitian_Lx L i j Hi Hj) as Hx.
  pose proof (hermitian_Ly L i j Hi Hj) as Hy.
  pose proof (hermitian_Lz L i j Hi Hj) as Hz.
  unfold adjoint, mmap, transpose in Hx, Hy, Hz.
  rewrite Hx, Hy, Hz.
  generalize (cLx L j i) (cLy L j i) (cLz L j i). intros a b c. cx.
Qed.

Lemma hermitian_axis_generator L (ax : list R) :
  hermitian (SU.side L) (SU.axis_generator (space L) ax).
Proof.
  intros i j Hi Hj. unfold adjoint, mmap, transpose.
  rewrite !axis_generator_gen3. apply (hermitian_gen3 L _ _ _ i j Hi Hj).
Qed.

(** the overlaps [W = v^H v'] of two eigenbases of a Hermitian array link
    equal eigenvalues only *)
Lemma overlap_intertwines d (M : matrix C) e v e' v' k l :
  hermitian d M ->
  (forall i k, (i < d)%nat -> (k < d)%nat ->
     mdot d M v i k = cmul (v i k) (cof (nth k e 0))) ->
  (forall i k, (i < d)%nat -> (k < d)%nat ->
     mdot d M v' i k = cmul (v' i k) (cof (nth k e' 0))) ->
  (k < d)%nat -> (l < d)%nat ->
  cmul (cof (nth k e 0)) (mdot d (adjoint v) v' k l) =
  cmul (mdot d (adjoint v) v' k l) (cof (nth l e' 0)).
Proof.
  intros HM Hv Hv' Hk Hl.
  assert (HW : mdot d (adjoint v) v' k l = inner d (column v k) (column v' l)).
  { unfold mdot, inner, column, adjoint, mmap, transpose. reflexivity. }
  rewrite HW.
  assert (H1 : inner d (column v k) (mapply d M (column v' l)) =
               cmul (inner d (column v k) (column v' l)) (cof (nth l e' 0))).
  { rewrite (inner_ext_r d _ _ (fun i => cmul (cof (nth l e' 0)) (column v' l i))).
    - rewrite inner_scale_r. apply cmul_comm.
    - intros i Hi. unfold column. rewrite cmul_comm. apply (Hv' i l Hi Hl). }
  assert (H2 : inner d (column v k) (mapply d M (column v' l)) =
               cmul (cof (nth k e 0)) (inner d (column v k) (column v' l))).
  { rewrite inner_adjoint.
    rewrite (inner_ext_l d _ (fun i => cmul (cof (nth k e 0)) (column v k i))).
    - unfold inner. rewrite <- csum_scale_l. apply csum_ext. intros i Hi. cx.
    - intros i Hi.
      rewrite (mapply_meq d (adjoint M) M); [|apply meq_sym; exact HM|exact Hi].
      unfold column. rewrite cmul_comm. apply (Hv i k Hi Hk). }
  rewrite <- H1, <- H2. reflexivity.
Qed.

Lemma phase_value_eq (ang x : R) :
  Cexp (cmul (cmul (mkC (fneg f0) (fneg f1)) (cof ang)) (cof x)) = phase ang x.
Proof. apply phase_value. Qed.

Lemma diag_phase_entry (ang : R) (e : list R) i j :
  (i < List.length e)%nat ->
  np_diag c0 (SU.phases Cexp ang e) 0 i j =
  if (i =? j)%nat then phase ang (nth i e 0) else c0.
Proof. intros H. apply diag_entry. exact H. Qed.

Lemma diag_mdot_l d ang (e : list R) (A : matrix C) k l :
  List.length e = d -> (k < d)%nat ->
  mdot d (np_diag c0 (SU.phases Cexp ang e) 0) A k l = cmul (phase ang (nth k e 0)) (A k l).
Proof.
  intros He Hk. unfold mdot.
  rewrite (csum_single _ d k Hk).
  - rewrite diag_phase_entry by lia. rewrite Nat.eqb_refl. reflexivity.
  - intros j Hj Hne. rewrite diag_phase_entry by lia.
    destruct (Nat.eqb_spec k j); [congruence|]. apply cmul_0_l.
Qed.

Lemma diag_mdot_r d ang (e : list R) (A : matrix C) k l :
  List.length e = d -> (l < d)%nat ->
  mdot d A (np_diag c0 (SU.phases Cexp ang e) 0) k l = cmul (A k l) (phase ang (nth l e 0)).
Proof.
  intros He Hl. unfold mdot.
  rewrite (csum_single _ d l Hl).
  - rewrite diag_phase_entry by lia. rewrite Nat.eqb_refl. reflexivity.
  - intros j Hj Hne. rewrite diag_phase_entry by lia.
    destruct (Nat.eqb_spec j l); [congruence|]. apply cmul_0_r.
Qed.

Lemma real_factor_cases (a b : R) (w : C) :
  cmul (cof a) w = cmul w (cof b) -> a = b \/ w = c0.
Proof.
  intros H. destruct (Req_dec a b) as [E|N]; [left; exact E|right].
  assert (Hr : re (cmul (cof a) w) = re (cmul w (cof b))) by (rewrite H; reflexivity).
  assert (Hi : im (cmul (cof a) w) = im (cmul w (cof b))) by (rewrite H; reflexivity).
  rsimp. destruct w as [x y]. rsimp.
  assert (Hx : (a - b) * x = 0) by lra.
  assert (Hy : (a - b) * y = 0) by lra.
  apply Rmult_integral in Hx, Hy.
  assert (x = 0) by (destruct Hx; [lra|assumption]).
  assert (y = 0) by (destruct Hy; [lra|assumption]).
  subst. reflexivity.
Qed.

(** two eigendecompositions of one Hermitian array give one and the same
    [v . diag(exp(-i ang e)) . v^H] *)
Lemma spectral_unique d (M : matrix C) ang e v e' v' :
  hermitian d M ->
  List.length e = d -> unitary2 d v ->
  (forall i k, (i < d)%nat -> (k < d)%nat ->
     mdot d M v i k = cmul (v i k) (cof (nth k e 0))) ->
  List.length e' = d -> unitary2 d v' ->
  (forall i k, (i < d)%nat -> (k < d)%nat ->
     mdot d M v' i k = cmul (v' i k) (cof (nth k e' 0))) ->
  meq d (spectral d ang e v) (spectral d ang e' v').
Proof.
  intros HM He [Hv1 Hv2] Hv He' [Hv1' Hv2'] Hv'.
  set (Dg := np_diag c0 (SU.phases Cexp ang e) 0).
  set (Dg' := np_diag c0 (SU.phases Cexp ang e') 0).
  set (W := mdot d (adjoint v) v').
  assert (Ha : meq d (adjoint v) (mdot d W (adjoint v'))).
  { apply meq_sym. unfold W.
    eapply meq_trans; [apply meq_of_eq; intros i l; apply mdot_assoc|].
    eapply meq_trans; [apply mdot_meq; [apply meq_refl|exact Hv1']|].
    apply mdot_identity_r. }
  assert (Hb : meq d (mdot d Dg W) (mdot d W Dg')).
  { intros k l Hk Hl. unfold Dg, Dg'.
    rewrite diag_mdot_l, diag_mdot_r by assumption.
    pose proof (overlap_intertwines d M e v e' v' k l HM Hv Hv' Hk Hl) as HO.
    fold W in HO. apply real_factor_cases in HO. destruct HO as [E|E].
    - rewrite E. apply cmul_comm.
    - rewrite E. rewrite cmul_0_l, cmul_0_r. reflexivity. }
  assert (Hc : meq d (mdot d v W) v').
  { unfold W.
    eapply meq_trans; [apply meq_sym; apply meq_of_eq; intros i l; apply mdot_assoc|].
    eapply meq_trans; [apply mdot_meq; [exact Hv1|apply meq_refl]|].
    apply mdot_identity_l. }
  eapply meq_trans; [apply meq_of_eq; intros i l; apply spectral_mdot|].
  eapply meq_trans; [|apply meq_sym; apply meq_of_eq; intros i l; apply spectral_mdot].
  fold Dg Dg'.
  eapply meq_trans.
  { apply mdot_meq; [apply meq_refl|]. apply mdot_meq; [apply meq_refl|exact Ha]. }
  eapply meq_trans.
  { apply mdot_meq; [apply meq_refl|].
    apply meq_sym. apply meq_of_eq. intros i l. apply mdot_assoc. }
  eapply meq_trans.
  { apply mdot_meq; [apply meq_refl|]. apply mdot_meq; [exact Hb|apply meq_refl]. }
  eapply meq_trans.
  { apply mdot_meq; [apply meq_refl|]. apply meq_of_eq. intros i l. apply mdot_assoc. }
  eapply meq_trans.
  { apply meq_sym. apply meq_of_eq. intros i l. apply mdot_assoc. }
  apply mdot_meq; [exact Hc|apply meq_refl].
Qed.

Lemma eigh_valid_inv eigh d M :
  eigh_valid eigh d M ->
  exists e v, eigh d M = inr (e, v) /\ List.length e = d /\ unitary2 d v /\
    forall i k, (i < d)%nat -> (k < d)%nat ->
      mdot d M v i k = cmul (v i k) (cof (nth k e 0)).
Proof.
  unfold eigh_valid. destruct (eigh d M) as [?|[e v]]; [tauto|].
  intros H. exists e, v. split; [reflexivity|exact H].
Qed.

Lemma rotation_unique eigh eigh' (L : Z) (ang : R) (ax : list R) :
  eigh_valid eigh (SU.side L) (SU.axis_generator (space L) ax) ->
  eigh_valid eigh' (SU.side L) (SU.axis_generator (space L) ax) ->
  exists R R',
    SU._rotation eigh Cexp (space L) ang ax = inr R /\
    SU._rotation eigh' Cexp (space L) ang ax = inr R' /\
    meq (SU.side L) R R'.
Proof.
  intros H H'.
  destruct (eigh_valid_inv _ _ _ H) as [e [v [E [He [Hv Hc]]]]].
  destruct (eigh_valid_inv _ _ _ H') as [e' [v' [E' [He' [Hv' Hc']]]]].
  exists (spectral (SU.side L) ang e v), (spectral (SU.side L) ang e' v').
  split; [apply (rotation_value eigh (space L) ang ax e v E)|].
  split; [apply (rotation_value eigh' (space L) ang ax e' v' E')|].
  apply (spectral_unique _ (SU.axis_generator (space L) ax)); auto.
  apply hermitian_axis_generator.
Qed.







(** ** Eigensolvers for [L = 1] *)

Lemma h2_pos : 0 < h2.
Proof. unfold h2. pose proof (sqrt_lt_R0 2). lra. Qed.

Lemma cL_1_table i j :
  (i < 3)%nat -> (j < 3)%nat ->
  cLx 1 i j = nth j (nth i [[c0; mkC h2 0; c0]; [mkC h2 0; c0; mkC h2 0];
                            [c0; mkC h2 0; c0]] []) c0 /\
  cLy 1 i j = nth j (nth i [[c0; mkC 0 h2; c0]; [mkC 0 (- h2); c0; mkC 0 h2];
                            [c0; mkC 0 (- h2); c0]] []) c0 /\
  cLz 1 i j = nth j (nth i [[mkC (-1) 0; c0; c0]; [c0; c0; c0];
                            [c0; c0; mkC 1 0]] []) c0.
Proof.
  intros Hi Hj. split; [|split].
  - unfold cLx, promote, mmap. rewrite Lx_1_table by assumption.
    fin3 i Hi; fin3 j Hj; reflexivity.
  - unfold cLy. rewrite Ly_entry. unfold h2.
    fin3 i Hi; fin3 j Hj; cbn [Nat.eqb nth];
      rewrite ?ladder_1_0, ?ladder_1_1, ?ladder_1_2; cx.
  - rewrite cLz_entry by (cbn; lia).
    fin3 i Hi; fin3 j Hj; cbn [Nat.eqb nth]; cx.
Qed.

Lemma gen3_1_table x y z i j :
  (i < 3)%nat -> (j < 3)%nat ->
  gen3 1 x y z i j =
  nth j (nth i [[mkC (- z) 0; mkC (h2 * x) (h2 * y); c0];
                [mkC (h2 * x) (- (h2 * y)); c0; mkC (h2 * x) (h2 * y)];
                [c0; mkC (h2 * x) (- (h2 * y)); mkC z 0]] []) c0.
Proof.
  intros Hi Hj. unfold gen3.
  destruct (cL_1_table i j Hi Hj) as [-> [-> ->]].
  fin3 i Hi; fin3 j Hj; cbn [nth]; cx.
Qed.

Lemma vy_unitary : unitary2 3 vy.
Proof.
  pose proof h2_sqr as Hh.
  split; intros i j Hi Hj; fin3 i Hi; fin3 j Hj;
    apply c_eq; cbn -[h2]; nra.
Qed.

Lemma identity_unitary d : unitary2 d identity.
Proof.
  assert (H : forall i j, adjoint identity i j = identity i j).
  { intros i j. unfold adjoint, mmap, transpose, identity.
    rewrite Nat.eqb_sym. destruct (i =? j)%nat; cx. }
  split.
  - eapply meq_trans; [apply mdot_identity_l|]. apply meq_of_eq. exact H.
  - eapply meq_trans; [apply mdot_identity_r|]. apply meq_of_eq. exact H.
Qed.

Ltac spin1_entries :=
  unfold mdot; cbn [csum];
  rewrite ?axis_generator_gen3, ?gen3_1_table by lia.

(** [eigh_spin1] decomposes the generator along each coordinate axis *)
Lemma eigh_spin1_valid (ax : list R) :
  In ax [[1; 0; 0]; [-1; 0; 0]; [0; 1; 0]; [0; -1; 0]; [0; 0; 1]; [0; 0; -1]] ->
  eigh_valid eigh_spin1 3 (SU.axis_generator (space 1) ax).
Proof.
  pose proof h2_pos as Hp. pose proof h2_sqr as Hh.
  intros Hin. unfold eigh_valid, eigh_spin1.
  rewrite !axis_generator_gen3, !gen3_1_table by lia.
  cbn [nth re im] in Hin |- *.
  repeat (destruct Hin as [<-|Hin]); [ | | | | | |destruct Hin]; unfold item; cbn [nth];
    repeat match goal with
           | |- context [Rltb ?a ?b] =>
               first [rewrite (Rltb_true a b) by nra | rewrite (Rltb_false a b) by nra]
           end;
    (split; [reflexivity|]);
    (split; [first [apply v1_unitary|apply vy_unitary|apply identity_unitary]|]);
    intros i k Hi Hk; spin1_entries;
    fin3 i Hi; fin3 k Hk; apply c_eq; cbn -[h2]; nra.
Qed.




(** ** Rotations about the z axis *)

Lemma normalize_z (z : R) : 0 < z -> SU.normalize [0; 0; z] = [0; 0; 1].
Proof.
  intros Hz. rewrite normalize_3.
  replace (0 + 0 * 0 + 0 * 0 + z * z) with (z * z) by ring.
  rewrite sqrt_square by lra.
  repeat f_equal; field; lra.
Qed.

Lemma generator_z L i j : SU.axis_generator (space L) [0; 0; 1] i j = cLz L i j.
Proof.
  rewrite axis_generator_gen3. unfold gen3, item. cbn [nth].
  generalize (cLx L i j) (cLy L i j) (cLz L i j). intros a b c. cx.
Qed.

Lemma spectrum_list_nth L k :
  (k < SU.side L)%nat ->
  nth k (map IZR (range (- L) (L + 1))) 0 = IZR (Z.of_nat k - L).
Proof.
  intros Hk. unfold SU.side in Hk. rewrite range_map_nth.
  replace (L + 1 - - L)%Z with (2 * L + 1)%Z by lia.
  destruct (Nat.ltb_spec k (Z.to_nat (2 * L + 1))); [|lia].
  f_equal. lia.
Qed.

Lemma spectrum_list_length L : List.length (map IZR (range (- L) (L + 1))) = SU.side L.
Proof.
  rewrite length_map, range_length. unfold SU.side. f_equal. lia.
Qed.

(** [Lz] is diagonal: the identity is an array of eigenvectors *)
Lemma eigh_z_valid L : eigh_valid (eigh_z L) (SU.side L) (SU.axis_generator (space L) [0; 0; 1]).
Proof.
  unfold eigh_valid, eigh_z. split; [apply spectrum_list_length|].
  split; [apply identity_unitary|].
  intros i k Hi Hk.
  rewrite (mdot_ext_l _ _ (cLz L)) by (intros; apply generator_z).
  rewrite cLz_mdot_l by assumption. rewrite spectrum_list_nth by assumption.
  unfold identity. destruct (Nat.eqb_spec i k) as [->|Hne]; cx.
Qed.

Lemma spectral_identity d ang (e : list R) i j :
  List.length e = d -> (i < d)%nat -> (j < d)%nat ->
  spectral d ang e identity i j = if (i =? j)%nat then phase ang (nth i e 0) else c0.
Proof.
  intros He Hi Hj. rewrite spectral_mdot.
  rewrite (mdot_identity_l d _ i j Hi Hj).
  rewrite diag_mdot_l by assumption.
  unfold adjoint, mmap, transpose, identity. rewrite Nat.eqb_sym.
  destruct (i =? j)%nat; cx.
Qed.

Lemma gen_op_Cn eigh (self : SU.t) (ang x y z : R) :
  Rabs ang < 2 * PI ->
  SU.gen_op eigh Cexp self ang [x; y; z] "Cn" =
  (R <- SU._rotation eigh Cexp self (Rabs ang) (SU.normalize [x; y; z]) ;; inr (RetMatrix R)).
Proof.
  intros Hang. unfold SU.gen_op. rewrite normalize_length. cbn [List.length Nat.eqb andb].
  replace (fltb (fabs ang) SU.two_pi) with true
    by (symmetry; apply Rltb_true; exact Hang).
  reflexivity.
Qed.

Lemma rotation_z_diagonal eigh (L : Z) (ang : R) :
  eigh_valid eigh (SU.side L) (SU.axis_generator (space L) [0; 0; 1]) ->
  exists R, SU._rotation eigh Cexp (space L) ang [0; 0; 1] = inr R /\
    forall i j, (i < SU.side L)%nat -> (j < SU.side L)%nat ->
      R i j = if (i =? j)%nat then phase ang (IZR (Z.of_nat i - L)) else c0.
Proof.
  intros H.
  destruct (rotation_unique eigh (eigh_z L) L ang [0; 0; 1] H (eigh_z_valid L))
    as [R [R' [E [E' HRR]]]].
  exists R. split; [exact E|]. intros i j Hi Hj.
  rewrite (HRR i j Hi Hj).
  unfold SU._rotation, eigh_z, bind in E'. injection E' as <-.
  fold (spectral (SU.side L) ang (map IZR (range (- L) (L + 1))) identity).
  rewrite spectral_identity by (assumption || apply spectrum_list_length).
  rewrite spectrum_list_nth by assumption. reflexivity.
Qed.

(** [cos (k pi)] and [sin (k pi)] for a natural number [k] *)
Lemma cos_sin_nat_PI (k : nat) :
  cos (PI * INR k) = (-1) ^ k /\ sin (PI * INR k) = 0.
Proof.
  induction k as [|k [IHc IHs]].
  - cbn [INR]. rewrite Rmult_0_r, cos_0, sin_0. cbn. lra.
  - rewrite S_INR. replace (PI * (INR k + 1)) with (PI * INR k + PI) by ring.
    rewrite cos_plus, sin_plus, IHc, IHs, cos_PI, sin_PI. cbn [pow]. lra.
Qed.

Lemma pow_minus_one_Z (k : nat) : IZR ((-1) ^ Z.of_nat k) = (-1) ^ k.
Proof.
  induction k as [|k IH]; [reflexivity|].
  rewrite Nat2Z.inj_succ, Z.pow_succ_r by lia. rewrite mult_IZR, IH. cbn [pow]. lra.
Qed.

Lemma pow_minus_one_sqr (k : nat) : (-1) ^ k * (-1) ^ k = 1.
Proof. induction k as [|k IH]; cbn [pow]; [lra|nra]. Qed.

Lemma half_turn_phase (L : Z) (i : nat) :
  (0 <= L)%Z ->
  cmul (cofZ ((-1) ^ L)) (phase PI (IZR (Z.of_nat i - L))) = cofZ ((-1) ^ Z.of_nat i).
Proof.
  intros HL. rewrite <- (Z2Nat.id L HL) at 1 2. set (n := Z.to_nat L).
  unfold phase. rewrite minus_IZR, <- !INR_IZR_INZ.
  replace (PI * (INR i - INR n)) with (PI * INR i - PI * INR n) by ring.
  rewrite cos_minus, sin_minus.
  destruct (cos_sin_nat_PI i) as [-> ->]. destruct (cos_sin_nat_PI n) as [-> ->].
  unfold cofZ, cof. cbn [of_Z Exact.ops]. rewrite !pow_minus_one_Z.
  pose proof (pow_minus_one_sqr n) as Hn.
  set (a := (-1) ^ n) in *. set (b := (-1) ^ i). clearbody a b.
  apply c_eq; rsimp; [|ring].
  transitivity (b * (a * a)); [ring|rewrite Hn; ring].
Qed.

(** The reference reflection is a half turn about z up to the parity
    of the multiplet: [SigmaXY = (-1)^L gen_op(pi, [0, 0, 1])].  Exact
    arithmetic, any eigendecomposition of [Lz]. *)
Theorem SigmaXY_is_signed_half_turn eigh (L : Z) :
  (0 <= L)%Z ->
  eigh_valid eigh (SU.side L) (SU.axis_generator (space L) (SU.normalize [0; 0; 1])) ->
  exists R, SU.gen_op eigh Cexp (space L) PI [0; 0; 1] "Cn" = inr (RetMatrix R) /\
    meq (SU.side L) (promoteZ (SU.SigmaXY (space L))) (cscale (cofZ ((-1) ^ L)) R).
Proof.
  intros HL H.
  assert (Hang : Rabs PI < 2 * PI).
  { pose proof PI_RGT_0. rewrite Rabs_pos_eq by lra. lra. }
  rewrite gen_op_Cn by assumption. rewrite normalize_z in * by lra.
  destruct (rotation_z_diagonal eigh L (Rabs PI) H) as [R [E HR]].
  exists R. rewrite E. split; [reflexivity|].
  intros i j Hi Hj. unfold cscale, mmap. rewrite (HR i j Hi Hj).
  cbn [SU.SigmaXY space SU.make]. unfold promoteZ, mmap.
  rewrite SigmaXY_entry by (unfold SU.side in Hi; lia).
  destruct (Nat.eqb_spec i j) as [->|Hne].
  - pose proof PI_RGT_0. rewrite Rabs_pos_eq by lra.
    rewrite half_turn_phase by assumption. reflexivity.
  - cx.
Qed.

Lemma SigmaXY_is_signed_half_turn_witness :
  (0 <= 1)%Z /\
  exists R, SU.gen_op eigh_spin1 Cexp (space 1) PI [0; 0; 1] "Cn" = inr (RetMatrix R) /\
    meq (SU.side 1) (promoteZ (SU.SigmaXY (space 1))) (cscale (cofZ ((-1) ^ 1)) R).
Proof.
  split; [lia|].
  apply (SigmaXY_is_signed_half_turn eigh_spin1 1); [lia|].
  rewrite normalize_z by lra. apply eigh_spin1_valid. cbn. tauto.
Defined.

(** ** [gen_op]: what its first lines do to the arguments *)

Lemma float_abs_opp (x : float) : PrimFloat.abs (PrimFloat.opp x) = PrimFloat.abs x.
Proof.
  apply Prim2SF_inj. rewrite !abs_spec, opp_spec.
  destruct (Prim2SF x) as [s|s| |s m e]; reflexivity.
Qed.

(** [gen_op] discards the sign of the angle ([ang = np.abs(ang)]):
    a negative angle gives the same result as its absolute value, for every
    axis, operator type and eigensolver, in binary64 and in exact
    arithmetic alike.  A rotation in the opposite sense is reached by
    reversing the axis only. *)
Theorem gen_op_ignores_angle_sign :
  (forall eigh cexp (self : SU.t) (ang : float) (ax : list float) (op_type : string),
     SU.gen_op (ops:=IEEE.ops) eigh cexp self (PrimFloat.opp ang) ax op_type =
     SU.gen_op (ops:=IEEE.ops) eigh cexp self ang ax op_type) /\
  (forall eigh cexp (self : SU.t) (ang : R) (ax : list R) (op_type : string),
     SU.gen_op (ops:=Exact.ops) eigh cexp self (- ang) ax op_type =
     SU.gen_op (ops:=Exact.ops) eigh cexp self ang ax op_type).
Proof.
  split; intros eigh cexp self ang ax op_type; unfold SU.gen_op; cbn [fabs IEEE.ops Exact.ops].
  - rewrite float_abs_opp. reflexivity.
  - rewrite Rabs_Ropp. reflexivity.
Qed.

Lemma list3_eq {A : Type} (a b c a' b' c' : A) :
  a = a' -> b = b' -> c = c' -> [a; b; c] = [a'; b'; c'].
Proof. intros -> -> ->. reflexivity. Qed.

Lemma normalize_scaled (s x y z : R) :
  0 < s -> ~ (x = 0 /\ y = 0 /\ z = 0) ->
  SU.normalize [s * x; s * y; s * z] = SU.normalize [x; y; z].
Proof.
  intros Hs Hnz. rewrite !normalize_3.
  assert (Hpos : 0 < 0 + x * x + y * y + z * z).
  { destruct (Req_dec x 0) as [Ex|Ex]; destruct (Req_dec y 0) as [Ey|Ey];
      destruct (Req_dec z 0) as [Ez|Ez]; nra. }
  replace (0 + s * x * (s * x) + s * y * (s * y) + s * z * (s * z))
    with (s * s * (0 + x * x + y * y + z * z)) by ring.
  rewrite sqrt_mult by nra. rewrite sqrt_square by lra.
  pose proof (sqrt_lt_R0 _ Hpos) as Hr.
  apply list3_eq; field; lra.
Qed.

Section Arguments.
Context {F : Type} {ops : Float64 F}.
Variable eigh : nat -> matrix (complex F) -> exn + (list F * matrix (complex F)).
Variable cexp : complex F -> complex F.

(** [gen_op] raises AssertionError for an axis that does not have
    exactly three components (the empty list included), whatever the angle
    and the operator type, an unrecognised type included: the assertion
    comes before the dispatch, and the eigensolver is not called.  Any
    arithmetic. *)
Theorem gen_op_rejects_axis_length (self : SU.t) (ang : F) (ax : list F)
        (op_type : string) :
  List.length ax <> 3%nat ->
  SU.gen_op eigh cexp self ang ax op_type = inl AssertionError.
Proof.
  intros Hlen. unfold SU.gen_op. rewrite normalize_length.
  destruct (Nat.eqb_spec (List.length ax) 3) as [E|_]; [contradiction|reflexivity].
Qed.

End Arguments.

Lemma gen_op_rejects_axis_length_witness :
  List.length [1; 0]%float <> 3%nat /\
  SU.gen_op (ops:=IEEE.ops) lapack_fails no_exp (SU.make 1) 1%float [1; 0]%float "Cn"
  = inl AssertionError.
Proof.
  assert (H : List.length [1; 0]%float <> 3%nat) by (cbn; lia).
  split; [exact H|].
  apply (gen_op_rejects_axis_length lapack_fails no_exp (SU.make 1) 1%float [1; 0]%float "Cn" H).
Defined.

(** ** Reflections and improper rotations *)

Lemma spectral_zero d (e : list R) v :
  List.length e = d -> unitary2 d v -> meq d (spectral d 0 e v) identity.
Proof.
  intros He Hv.
  eapply meq_trans; [apply meq_of_eq; intros i l; apply spectral_mdot|].
  eapply meq_trans.
  { apply mdot_meq; [apply meq_refl|].
    eapply meq_trans.
    { apply mdot_meq; [apply diag_zero; assumption|apply meq_refl]. }
    apply mdot_identity_l. }
  apply Hv.
Qed.

Lemma reflection_angle_in_plane (x y : R) :
  SU.reflection_angle (SU.normalize [x; y; 0]) = 0.
Proof.
  rewrite normalize_3. set (s := sqrt _).
  unfold SU.reflection_angle, SU.reflection_normal, item. cbn [nth fltb Exact.ops f0 of_Z].
  replace (0 / s) with 0 by (unfold Rdiv; ring).
  rewrite Rltb_false by lra.
  unfold np_dot, np_sum, SU.ax_XY, vsquare. cbn. rsimp. unfold Rdiv. ring.
Qed.

Lemma cSigma_entry L i j :
  (i < SU.side L)%nat ->
  cSigma L i j = if (i =? j)%nat then cof ((-1) ^ i) else c0.
Proof.
  intros Hi. unfold cSigma, promoteZ, mmap.
  rewrite SigmaXY_entry by (unfold SU.side in Hi; lia).
  destruct (i =? j)%nat; [|reflexivity].
  unfold cofZ. cbn [of_Z Exact.ops]. rewrite pow_minus_one_Z. reflexivity.
Qed.

Lemma cSigma_mdot_l L (A : matrix C) i l :
  (i < SU.side L)%nat ->
  mdot (SU.side L) (cSigma L) A i l = cmul (cof ((-1) ^ i)) (A i l).
Proof.
  intros Hi. unfold mdot. rewrite (csum_single _ _ i); auto.
  - rewrite cSigma_entry, Nat.eqb_refl by auto. reflexivity.
  - intros k _ Hne. rewrite cSigma_entry by auto.
    destruct (Nat.eqb_spec i k); [lia|]. apply cmul_0_l.
Qed.

Lemma cSigma_mdot_r L (A : matrix C) i l :
  (l < SU.side L)%nat ->
  mdot (SU.side L) A (cSigma L) i l = cmul (A i l) (cof ((-1) ^ l)).
Proof.
  intros Hl. unfold mdot. rewrite (csum_single _ _ l); auto.
  - rewrite cSigma_entry, Nat.eqb_refl by auto. reflexivity.
  - intros k Hk Hne. rewrite cSigma_entry by auto.
    destruct (Nat.eqb_spec k l); [lia|]. apply cmul_0_r.
Qed.

Lemma hermitian_Sigma L : hermitian (SU.side L) (cSigma L).
Proof.
  intros i j Hi Hj. unfold adjoint, mmap, transpose.
  rewrite !cSigma_entry by assumption. rewrite (Nat.eqb_sym j i).
  destruct (Nat.eqb_spec i j) as [->|Hne]; cx.
Qed.

Lemma adjoint_swap d (U V : matrix C) : meq d V (adjoint U) -> meq d (adjoint V) U.
Proof.
  intros H i j Hi Hj. unfold adjoint at 1, mmap, transpose.
  rewrite (H j i Hj Hi). unfold adjoint, mmap, transpose. apply cconj_invol.
Qed.

Lemma conjugation_hermitian d (U V S : matrix C) :
  meq d V (adjoint U) -> hermitian d S -> hermitian d (einsum3 d U S V).
Proof.
  intros HV HS. unfold hermitian.
  assert (E : meq d (einsum3 d U S V) (mdot d U (mdot d S V)))
    by (apply meq_of_eq; intros; apply einsum3_mdot).
  eapply meq_trans; [exact E|].
  assert (HA : meq d (adjoint (einsum3 d U S V))
                     (mdot d (adjoint V) (mdot d (adjoint S) (adjoint U)))).
  { intros i l Hi Hl. unfold adjoint at 1, mmap, transpose.
    rewrite einsum3_mdot.
    change (cconj (mdot d U (mdot d S V) l i)) with (adjoint (mdot d U (mdot d S V)) i l).
    rewrite adjoint_mdot.
    rewrite (mdot_ext_l d _ (mdot d (adjoint V) (adjoint S)))
      by (intros k; apply adjoint_mdot).
    apply mdot_assoc. }
  apply meq_sym. eapply meq_trans; [exact HA|].
  apply mdot_meq; [apply adjoint_swap; exact HV|].
  apply mdot_meq; [apply meq_sym; exact HS|apply meq_sym; exact HV].
Qed.

Lemma unitary_mdot d (A B : matrix C) :
  unitary d A -> unitary d B -> unitary d (mdot d A B).
Proof.
  unfold unitary. intros HA HB.
  eapply meq_trans.
  { apply mdot_meq; [apply meq_refl|]. apply meq_of_eq. intros i l. apply adjoint_mdot. }
  eapply meq_trans; [apply meq_of_eq; intros i l; apply mdot_assoc|].
  eapply meq_trans.
  { apply mdot_meq; [apply meq_refl|].
    eapply meq_trans; [apply meq_sym; apply meq_of_eq; intros i l; apply mdot_assoc|].
    eapply meq_trans; [apply mdot_meq; [exact HB|apply meq_refl]|].
    apply mdot_identity_l. }
  exact HA.
Qed.

(** the matrix [_reflection] returns, with what is known of it *)
Lemma reflection_properties eigh (L : Z) (n : list R) :
  eigh_ok eigh (SU.side L) (SU.axis_generator (space L) (SU.reflection_axis n)) ->
  exists S, SU._reflection eigh Cexp (space L) n = inr S /\
            hermitian (SU.side L) S /\ unitary (SU.side L) S /\
            (SU.reflection_angle n = 0 -> meq (SU.side L) S (cSigma L)).
Proof.
  unfold eigh_ok. intros H.
  destruct (eigh (SU.side L) (SU.axis_generator (space L) (SU.reflection_axis n)))
    as [?|[e v]] eqn:E; [contradiction|].
  destruct H as [He Hv]. set (d := SU.side L) in *. set (a := SU.reflection_angle n).
  exists (einsum3 d (spectral d a e v) (cSigma L) (spectral d (- a) e v)).
  assert (Hherm : hermitian d (einsum3 d (spectral d a e v) (cSigma L) (spectral d (- a) e v))).
  { apply conjugation_hermitian; [|apply hermitian_Sigma].
    apply meq_sym. apply spectral_adjoint. exact He. }
  assert (Hinv : meq d (mdot d (einsum3 d (spectral d a e v) (cSigma L) (spectral d (- a) e v))
                               (einsum3 d (spectral d a e v) (cSigma L) (spectral d (- a) e v)))
                     identity).
  { apply conjugation_involution.
    - apply spectral_inverse; assumption.
    - pose proof (spectral_inverse d (- a) e v He Hv) as H.
      rewrite Ropp_involutive in H. exact H.
    - apply Sigma_involution. }
  split; [apply (reflection_value eigh (space L) n e v E)|].
  split; [exact Hherm|]. split.
  - unfold unitary. eapply meq_trans; [|exact Hinv].
    apply mdot_meq; [apply meq_refl|apply meq_sym; exact Hherm].
  - intros Ha. rewrite Ha, Ropp_0.
    eapply meq_trans; [apply meq_of_eq; intros i l; apply einsum3_mdot|].
    eapply meq_trans.
    { apply mdot_meq; [apply spectral_zero; assumption|].
      apply mdot_meq; [apply meq_refl|apply spectral_zero; assumption]. }
    eapply meq_trans; [apply mdot_identity_l|]. apply mdot_identity_r.
Qed.

Lemma spin1_angle : Rabs 1 < 2 * PI.
Proof. rewrite Rabs_R1. pose proof PI2_1. lra. Qed.

Lemma spin1_ok (ax : list R) :
  In ax [[1; 0; 0]; [-1; 0; 0]; [0; 1; 0]; [0; -1; 0]; [0; 0; 1]; [0; 0; -1]] ->
  eigh_ok eigh_spin1 (SU.side 1) (SU.axis_generator (space 1) ax).
Proof. intros H. apply eigh_valid_ok. apply eigh_spin1_valid. exact H. Qed.


(** ** The reference reflection and the generators *)

Lemma sign_sandwich (s t r : R) (a : C) :
  s * t = r -> cmul (cof s) (cmul a (cof t)) = cmul (cof r) a.
Proof. intros <-. cx. Qed.

Lemma sign_step (l : nat) : (-1) ^ S l * (-1) ^ l = -1.
Proof. pose proof (pow_minus_one_sqr l). cbn [pow]. nra. Qed.

Lemma Sigma_sandwich L (A : matrix C) i l :
  (i < SU.side L)%nat -> (l < SU.side L)%nat ->
  mdot (SU.side L) (cSigma L) (mdot (SU.side L) A (cSigma L)) i l =
  cmul (cof ((-1) ^ i * (-1) ^ l)) (A i l).
Proof.
  intros Hi Hl. rewrite cSigma_mdot_l, cSigma_mdot_r by assumption.
  apply sign_sandwich. reflexivity.
Qed.

(** The reference reflection treats the generators as the mirror
    image in the XY plane treats an angular momentum: conjugation with
    [SigmaXY] leaves [Lz] unchanged and turns [Lx] and [Ly] into their
    negatives.  Exact arithmetic, every [L]. *)
Theorem SigmaXY_reflects_generators (L : Z) :
  let d := SU.side L in
  let Sg := promoteZ (SU.SigmaXY (space L)) in
  meq d (mdot d Sg (mdot d (cLx L) Sg)) (cscale (cof (-1)) (cLx L)) /\
  meq d (mdot d Sg (mdot d (cLy L) Sg)) (cscale (cof (-1)) (cLy L)) /\
  meq d (mdot d Sg (mdot d (cLz L) Sg)) (cLz L).
Proof.
  intros d Sg. change Sg with (cSigma L). unfold d.
  split; [|split]; intros i l Hi Hl; rewrite Sigma_sandwich by assumption;
    unfold cscale, mmap.
  - unfold cLx, promote, mmap. rewrite Lx_entry.
    destruct (Nat.eqb_spec i (S l)) as [->|Ha]; [rewrite sign_step; reflexivity|].
    destruct (Nat.eqb_spec l (S i)) as [->|Hb]; [|cx].
    rewrite Rmult_comm, sign_step. reflexivity.
  - unfold cLy. rewrite Ly_entry.
    destruct (Nat.eqb_spec i (S l)) as [->|Ha]; [rewrite sign_step; reflexivity|].
    destruct (Nat.eqb_spec l (S i)) as [->|Hb]; [|cx].
    rewrite Rmult_comm, sign_step. reflexivity.
  - rewrite cLz_entry by assumption.
    destruct (Nat.eqb_spec i l) as [->|Hne]; [|cx].
    rewrite pow_minus_one_sqr. cx.
Qed.

(** ** The generator along an arbitrary axis *)

Lemma mdot_gen3 d L a1 a2 a3 b1 b2 b3 i l :
  mdot d (gen3 L a1 a2 a3) (gen3 L b1 b2 b3) i l =
  cadd (cadd (cadd (cmul (cof (a1 * b1)) (mdot d (cLx L) (cLx L) i l))
                   (cmul (cof (a1 * b2)) (mdot d (cLx L) (cLy L) i l)))
             (cadd (cmul (cof (a1 * b3)) (mdot d (cLx L) (cLz L) i l))
                   (cadd (cmul (cof (a2 * b1)) (mdot d (cLy L) (cLx L) i l))
                         (cmul (cof (a2 * b2)) (mdot d (cLy L) (cLy L) i l)))))
       (cadd (cadd (cmul (cof (a2 * b3)) (mdot d (cLy L) (cLz L) i l))
                   (cmul (cof (a3 * b1)) (mdot d (cLz L) (cLx L) i l)))
             (cadd (cmul (cof (a3 * b2)) (mdot d (cLz L) (cLy L) i l))
                   (cmul (cof (a3 * b3)) (mdot d (cLz L) (cLz L) i l)))).
Proof.
  unfold mdot at 1, gen3.
  rewrite (csum_ext _ (fun k =>
    cadd (cadd (cadd (cmul (cof (a1 * b1)) (cmul (cLx L i k) (cLx L k l)))
                     (cmul (cof (a1 * b2)) (cmul (cLx L i k) (cLy L k l))))
               (cadd (cmul (cof (a1 * b3)) (cmul (cLx L i k) (cLz L k l)))
                     (cadd (cmul (cof (a2 * b1)) (cmul (cLy L i k) (cLx L k l)))
                           (cmul (cof (a2 * b2)) (cmul (cLy L i k) (cLy L k l))))))
         (cadd (cadd (cmul (cof (a2 * b3)) (cmul (cLy L i k) (cLz L k l)))
                     (cmul (cof (a3 * b1)) (cmul (cLz L i k) (cLx L k l))))
               (cadd (cmul (cof (a3 * b2)) (cmul (cLz L i k) (cLy L k l)))
                     (cmul (cof (a3 * b3)) (cmul (cLz L i k) (cLz L k l))))))).
  2:{ intros k _.
      generalize (cLx L i k) (cLy L i k) (cLz L i k) (cLx L k l) (cLy L k l) (cLz L k l).
      intros p q r p' q' r'. cx. }
  rewrite !csum_add, !csum_scale_l. reflexivity.
Qed.

Lemma gen3_commutator L a1 a2 a3 b1 b2 b3 :
  (0 <= L)%Z ->
  meq (SU.side L)
      (commutator (SU.side L) (gen3 L a1 a2 a3) (gen3 L b1 b2 b3))
      (cscale Ci (gen3 L (a2 * b3 - a3 * b2) (a3 * b1 - a1 * b3) (a1 * b2 - a2 * b1))).
Proof.
  intros HL i l Hi Hl.
  pose proof (comm_Lx_Ly L HL i l Hi Hl) as Hxy.
  pose proof (comm_Ly_Lz L HL i l Hi Hl) as Hyz.
  pose proof (comm_Lz_Lx L HL i l Hi Hl) as Hzx.
  unfold commutator, msub, mmap2, cscale, mmap in *.
  apply csub_eq in Hxy, Hyz, Hzx.
  rewrite !mdot_gen3. rewrite Hxy, Hyz, Hzx. unfold gen3.
  generalize (mdot (SU.side L) (cLx L) (cLx L) i l) (mdot (SU.side L) (cLy L) (cLy L) i l)
             (mdot (SU.side L) (cLz L) (cLz L) i l) (mdot (SU.side L) (cLy L) (cLx L) i l)
             (mdot (SU.side L) (cLz L) (cLy L) i l) (mdot (SU.side L) (cLx L) (cLz L) i l)
             (cLx L i l) (cLy L i l) (cLz L i l).
  intros p1 p2 p3 p4 p5 p6 X Y Z. cx.
Qed.

Section Triple.
Variables (L : Z) (n1 n2 n3 u1 u2 u3 w1 w2 w3 : R).
Hypothesis HL : (0 <= L)%Z.
(** a right-handed orthonormal triple [n, u, w] *)
Hypothesis Hnu : w1 = n2 * u3 - n3 * u2 /\ w2 = n3 * u1 - n1 * u3 /\ w3 = n1 * u2 - n2 * u1.
Hypothesis Huw : n1 = u2 * w3 - u3 * w2 /\ n2 = u3 * w1 - u1 * w3 /\ n3 = u1 * w2 - u2 * w1.
Hypothesis Hwn : u1 = w2 * n3 - w3 * n2 /\ u2 = w3 * n1 - w1 * n3 /\ u3 = w1 * n2 - w2 * n1.
Hypothesis Hdiag :
  n1 * n1 + u1 * u1 + w1 * w1 = 1 /\ n2 * n2 + u2 * u2 + w2 * w2 = 1 /\
  n3 * n3 + u3 * u3 + w3 * w3 = 1.
Hypothesis Hoff :
  n1 * n2 + u1 * u2 + w1 * w2 = 0 /\ n1 * n3 + u1 * u3 + w1 * w3 = 0 /\
  n2 * n3 + u2 * u3 + w2 * w3 = 0.

Lemma triple_comm_nu :
  meq (SU.side L) (commutator (SU.side L) (gen3 L n1 n2 n3) (gen3 L u1 u2 u3))
      (cscale Ci (gen3 L w1 w2 w3)).
Proof.
  destruct Hnu as [-> [-> ->]]. apply gen3_commutator. exact HL.
Qed.

Lemma triple_comm_uw :
  meq (SU.side L) (commutator (SU.side L) (gen3 L u1 u2 u3) (gen3 L w1 w2 w3))
      (cscale Ci (gen3 L n1 n2 n3)).
Proof.
  destruct Huw as [E1 [E2 E3]]. rewrite E1, E2, E3 at 1.
  apply gen3_commutator. exact HL.
Qed.

Lemma triple_comm_wn :
  meq (SU.side L) (commutator (SU.side L) (gen3 L w1 w2 w3) (gen3 L n1 n2 n3))
      (cscale Ci (gen3 L u1 u2 u3)).
Proof.
  destruct Hwn as [E1 [E2 E3]]. rewrite E1, E2, E3 at 1.
  apply gen3_commutator. exact HL.
Qed.

Lemma triple_casimir :
  meq (SU.side L)
      (madd (madd (mdot (SU.side L) (gen3 L n1 n2 n3) (gen3 L n1 n2 n3))
                  (mdot (SU.side L) (gen3 L u1 u2 u3) (gen3 L u1 u2 u3)))
            (mdot (SU.side L) (gen3 L w1 w2 w3) (gen3 L w1 w2 w3)))
      (cscale (cofZ (L * (L + 1))) identity).
Proof.
  intros i l Hi Hl. rewrite <- (casimir L HL i l Hi Hl).
  unfold madd, mmap2. rewrite !mdot_gen3.
  destruct Hdiag as [D1 [D2 D3]]. destruct Hoff as [O1 [O2 O3]].
  set (d := SU.side L).
  generalize (mdot d (cLx L) (cLx L) i l) (mdot d (cLx L) (cLy L) i l)
             (mdot d (cLx L) (cLz L) i l) (mdot d (cLy L) (cLx L) i l)
             (mdot d (cLy L) (cLy L) i l) (mdot d (cLy L) (cLz L) i l)
             (mdot d (cLz L) (cLx L) i l) (mdot d (cLz L) (cLy L) i l)
             (mdot d (cLz L) (cLz L) i l).
  intros p11 p12 p13 p21 p22 p23 p31 p32 p33.
  transitivity
    (cadd (cadd (cadd (cmul (cof (n1 * n1 + u1 * u1 + w1 * w1)) p11)
                      (cmul (cof (n1 * n2 + u1 * u2 + w1 * w2)) (cadd p12 p21)))
                (cadd (cmul (cof (n1 * n3 + u1 * u3 + w1 * w3)) (cadd p13 p31))
                      (cmul (cof (n2 * n2 + u2 * u2 + w2 * w2)) p22)))
          (cadd (cmul (cof (n2 * n3 + u2 * u3 + w2 * w3)) (cadd p23 p32))
                (cmul (cof (n3 * n3 + u3 * u3 + w3 * w3)) p33))).
  - cx.
  - rewrite D1, D2, D3, O1, O2, O3. cx.
Qed.

Lemma triple_spectrum lam :
  eigenvalue (SU.side L) (gen3 L n1 n2 n3) (cofZ L) ->
  eigenvalue (SU.side L) (gen3 L n1 n2 n3) lam <-> in_spectrum L lam.
Proof.
  intros Htop. split.
  - apply (eigenvalue_integer (SU.side L) L (gen3 L n1 n2 n3) (gen3 L u1 u2 u3)
                              (gen3 L w1 w2 w3));
      auto using hermitian_gen3, triple_comm_nu, triple_comm_uw, triple_comm_wn,
        triple_casimir.
  - intros [m [Hm ->]].
    apply (eigenvalue_all (SU.side L) L (gen3 L n1 n2 n3) (gen3 L u1 u2 u3)
                          (gen3 L w1 w2 w3));
      auto using hermitian_gen3, triple_comm_nu, triple_comm_uw, triple_comm_wn,
        triple_casimir.
Qed.
End Triple.

Lemma gen3_ladder L x y z i j :
  gen3 L x y z i j =
  lin2 c1 (lin2 (mkC (x / 2) (- (y / 2))) (Pm L) (mkC (x / 2) (y / 2)) (Mm L))
       (cof z) (cLz L) i j.
Proof.
  unfold gen3. rewrite cLx_lin2, cLy_lin2. unfold lin2.
  generalize (Pm L i j) (Mm L i j) (cLz L i j). intros p m q. cx.
Qed.

Lemma cLz_apply L (v : vec) i :
  (i < SU.side L)%nat ->
  mapply (SU.side L) (cLz L) v i = cmul (cofZ (Z.of_nat i - L)) (v i).
Proof.
  intros Hi. unfold mapply. rewrite (csum_single _ _ i); auto.
  - rewrite cLz_entry, Nat.eqb_refl by assumption. reflexivity.
  - intros k _ Hne. rewrite cLz_entry by assumption.
    destruct (Nat.eqb_spec i k); [lia|cx].
Qed.

Lemma gen3_apply L x y z (v : vec) i :
  (0 <= L)%Z -> (i < SU.side L)%nat ->
  mapply (SU.side L) (gen3 L x y z) v i =
  cadd (cadd (cmul (mkC (x / 2) (- (y / 2)))
                   match i with
                   | O => c0
                   | S i' => cmul (cof (ladder L i')) (v i')
                   end)
             (cmul (mkC (x / 2) (y / 2)) (cmul (cof (ladder L i)) (v (S i)))))
       (cmul (cof z) (cmul (cofZ (Z.of_nat i - L)) (v i))).
Proof.
  intros HL Hi.
  rewrite (mapply_ext_m _ _ _ _ i (fun k _ => gen3_ladder L x y z i k)).
  rewrite !mapply_lin2, P_apply, M_apply, cLz_apply by assumption.
  apply c_eq; rsimp; ring.
Qed.

Lemma plus_step (x y z : R) (t T : C) (r : R) :
  cmul (mkC x y) t = cof (1 + z) ->
  cmul (mkC (x / 2) (y / 2)) (cmul (cmul t T) (cof r)) =
  cmul (cof ((1 + z) / 2)) (cmul T (cof r)).
Proof.
  intros H.
  transitivity (cmul (cmul (cof (1 / 2)) (cmul (mkC x y) t)) (cmul T (cof r))); [cx|].
  rewrite H. cx.
Qed.

Lemma minus_step (x y z : R) (t T : C) (r : R) :
  mkC x (- y) = cmul t (cof (1 - z)) ->
  cmul (mkC (x / 2) (- (y / 2))) (cmul T (cof r)) =
  cmul (cof ((1 - z) / 2)) (cmul (cmul t T) (cof r)).
Proof.
  intros H.
  transitivity (cmul (cmul (cof (1 / 2)) (mkC x (- y))) (cmul T (cof r))); [cx|].
  rewrite H. cx.
Qed.

(** the eigenvector of the largest eigenvalue, for an axis and a complex
    number [t] with [(x + i y) t = 1 + z] and [x - i y = t (1 - z)] *)
Lemma axis_top L x y z (t : C) :
  (0 <= L)%Z ->
  cmul (mkC x y) t = cof (1 + z) ->
  mkC x (- y) = cmul t (cof (1 - z)) ->
  eigen_eq (SU.side L) (gen3 L x y z) (cofZ L) (top_axis t L).
Proof.
  intros HL Hp Hm i Hi. rewrite gen3_apply by assumption. unfold top_axis.
  rewrite (cof_pull (ladder L i)), top_coeff_up by (unfold SU.side in Hi; lia).
  cbn [cpow]. rewrite (plus_step x y z t _ _ Hp).
  destruct i as [|i'].
  - cbn [cpow top_coeff]. change (INR 0) with 0. change (Z.of_nat 0) with 0%Z. cx.
  - rewrite cof_pull, top_coeff_down. rewrite (minus_step x y z t _ _ Hm).
    cbn [cpow]. rewrite !S_INR, !INR_IZR_INZ.
    generalize (cmul t (cmul t (cpow t i'))) (cmul t (cpow t i')) (top_coeff L (S i')).
    intros T2 T1 c. cx.
Qed.

Lemma top_axis_nonzero t L : (0 <= L)%Z -> nonzero (SU.side L) (top_axis t L).
Proof.
  intros HL. exists 0%nat. split; [unfold SU.side; lia|].
  unfold top_axis. cbn [top_coeff cpow]. intros E. apply (f_equal re) in E. rsimp. lra.
Qed.

Lemma stereo_plus x y z :
  x * x + y * y + z * z = 1 -> ~ (x = 0 /\ y = 0) ->
  cmul (mkC x y) (stereo x y z) = cof (1 + z).
Proof.
  intros Hn Hxy.
  assert (Hpos : 0 < x * x + y * y).
  { destruct (Req_dec x 0); destruct (Req_dec y 0); nra. }
  unfold stereo. apply c_eq; rsimp; field; lra.
Qed.

Lemma stereo_minus x y z :
  x * x + y * y + z * z = 1 -> ~ (x = 0 /\ y = 0) ->
  mkC x (- y) = cmul (stereo x y z) (cof (1 - z)).
Proof.
  intros Hn Hxy.
  assert (Hpos : 0 < x * x + y * y).
  { destruct (Req_dec x 0); destruct (Req_dec y 0); nra. }
  assert (Hz : (1 + z) * (1 - z) = x * x + y * y) by nra.
  unfold stereo. apply c_eq; rsimp.
  - transitivity ((1 + z) * (1 - z) * x / (x * x + y * y)); [|field; lra].
    rewrite Hz. field. lra.
  - transitivity (- ((1 + z) * (1 - z) * y / (x * x + y * y))); [|field; lra].
    rewrite Hz. field. lra.
Qed.

Lemma axis_top_eigenvalue L x y z :
  (0 <= L)%Z -> x * x + y * y + z * z = 1 ->
  eigenvalue (SU.side L) (gen3 L x y z) (cofZ L).
Proof.
  intros HL Hn.
  destruct (classic (x = 0 /\ y = 0)) as [[-> ->]|Hxy].
  - assert (Hz : z = 1 \/ z = -1).
    { assert (H : (z - 1) * (z + 1) = 0) by nra.
      apply Rmult_integral in H. destruct H; [left|right]; lra. }
    destruct Hz as [-> | ->].
    + exists (top_Lz L). split; [apply top_Lz_nonzero; exact HL|].
      intros i Hi. rewrite <- (Lz_top L HL i Hi).
      apply mapply_ext_m. intros k _. unfold gen3.
      generalize (cLx L i k) (cLy L i k) (cLz L i k). intros a b c. cx.
    + exists (top_axis c0 L). split; [apply top_axis_nonzero; exact HL|].
      apply axis_top; [exact HL|cx|cx].
  - exists (top_axis (stereo x y z) L). split; [apply top_axis_nonzero; exact HL|].
    apply axis_top; [exact HL|apply stereo_plus; assumption|apply stereo_minus; assumption].
Qed.

Lemma axis_triple_exists x y z :
  x * x + y * y + z * z = 1 ->
  exists u1 u2 u3 w1 w2 w3 : R,
    (w1 = y * u3 - z * u2 /\ w2 = z * u1 - x * u3 /\ w3 = x * u2 - y * u1) /\
    (x = u2 * w3 - u3 * w2 /\ y = u3 * w1 - u1 * w3 /\ z = u1 * w2 - u2 * w1) /\
    (u1 = w2 * z - w3 * y /\ u2 = w3 * x - w1 * z /\ u3 = w1 * y - w2 * x) /\
    (x * x + u1 * u1 + w1 * w1 = 1 /\ y * y + u2 * u2 + w2 * w2 = 1 /\
     z * z + u3 * u3 + w3 * w3 = 1) /\
    (x * y + u1 * u2 + w1 * w2 = 0 /\ x * z + u1 * u3 + w1 * w3 = 0 /\
     y * z + u2 * u3 + w2 * w3 = 0).
Proof.
  intros Hn.
  destruct (classic (x = 0 /\ y = 0)) as [[-> ->]|Hxy].
  - exists 1, 0, 0, 0, z, 0. repeat split; nra.
  - assert (Hpos : 0 < x * x + y * y).
    { destruct (Req_dec x 0); destruct (Req_dec y 0); nra. }
    set (p := sqrt (x * x + y * y)).
    assert (Hp : p * p = x * x + y * y) by (apply sqrt_sqrt; lra).
    assert (Hp0 : 0 < p) by (apply sqrt_lt_R0; exact Hpos).
    set (r := / p).
    assert (Hr : r * p = 1) by (unfold r; field; lra).
    assert (F1 : r * (x * x + y * y) = p) by (rewrite <- Hp; unfold r; field; lra).
    assert (F2 : r * r * (x * x + y * y) = 1) by (rewrite <- Hp; unfold r; field; lra).
    assert (F3 : r * (z * z) = r - p) by nra.
    exists (- y * r), (x * r), 0, (- z * x * r), (- z * y * r), p.
    clearbody p r.
    repeat split; try ring; try nra.
    + transitivity (z * (r * r * (x * x + y * y))); [rewrite F2; ring|ring].
    + transitivity (x * y * (1 - r * r * (x * x + y * y))
                    + x * y * r * r * (x * x + y * y + z * z - 1)); [ring|].
      rewrite F2, Hn. ring.
    + transitivity (x * z * (1 - r * p)); [ring|rewrite Hr; ring].
    + transitivity (y * z * (1 - r * p)); [ring|rewrite Hr; ring].
Qed.

Lemma axis_spectrum L x y z lam :
  (0 <= L)%Z -> x * x + y * y + z * z = 1 ->
  eigenvalue (SU.side L) (gen3 L x y z) lam <-> in_spectrum L lam.
Proof.
  intros HL Hn.
  destruct (axis_triple_exists x y z Hn)
    as [u1 [u2 [u3 [w1 [w2 [w3 [Hnu [Huw [Hwn [Hd Ho]]]]]]]]]].
  apply (triple_spectrum L x y z u1 u2 u3 w1 w2 w3); auto.
  apply axis_top_eigenvalue; assumption.
Qed.

Lemma eigenvalue_meq d (A B : matrix C) lam :
  meq d A B -> eigenvalue d A lam -> eigenvalue d B lam.
Proof.
  intros H [v [Hv He]]. exists v. split; [exact Hv|].
  intros i Hi. rewrite <- (He i Hi). symmetry. apply mapply_meq; assumption.
Qed.

(** The generator [ax[0] Lx + ax[1] Ly + ax[2] Lz] that [_rotation]
    hands to the eigensolver has, for every unit axis, the same eigenvalues
    as the three checked in [__init__]: exactly the integers [-L, ..., L].
    Exact arithmetic. *)
Theorem axis_generator_spectrum (L : Z) (x y z : R) (lam : C) :
  (0 <= L)%Z -> x * x + y * y + z * z = 1 ->
  eigenvalue (SU.side L) (SU.axis_generator (space L) [x; y; z]) lam <->
  exists m : Z, (- L <= m <= L)%Z /\ lam = cofZ m.
Proof.
  intros HL Hn. fold (in_spectrum L lam).
  rewrite <- (axis_spectrum L x y z lam HL Hn).
  split; apply eigenvalue_meq; [|apply meq_sym]; apply meq_of_eq; intros i j;
    apply axis_generator_gen3.
Qed.

Lemma axis_generator_spectrum_witness :
  (0 <= 2)%Z /\ (3 / 5) * (3 / 5) + 0 * 0 + (4 / 5) * (4 / 5) = 1 /\
  eigenvalue (SU.side 2) (SU.axis_generator (space 2) [3 / 5; 0; 4 / 5]) (cofZ (-1)) /\
  ~ eigenvalue (SU.side 2) (SU.axis_generator (space 2) [3 / 5; 0; 4 / 5]) (mkC (1 / 2) 0).
Proof.
  assert (Hn : (3 / 5) * (3 / 5) + 0 * 0 + (4 / 5) * (4 / 5) = 1) by lra.
  split; [lia|]. split; [exact Hn|]. split.
  - apply (axis_generator_spectrum 2 (3 / 5) 0 (4 / 5) (cofZ (-1))); [lia|exact Hn|].
    exists (-1)%Z. split; [lia|reflexivity].
  - intros H.
    apply (axis_generator_spectrum 2 (3 / 5) 0 (4 / 5) (mkC (1 / 2) 0)) in H; [|lia|exact Hn].
    destruct H as [m [_ E]]. apply (f_equal re) in E. cbn in E.
    assert (H2 : IZR 1 = IZR (2 * m)) by (rewrite mult_IZR; lra).
    apply eq_IZR in H2. lia.
Defined.

(** ** The eigenvalues the eigensolver returns *)

Lemma column_nonzero d (v : matrix C) k :
  unitary2 d v -> (k < d)%nat -> nonzero d (column v k).
Proof.
  intros [_ Hv] Hk. destruct (classic (nonzero d (column v k))) as [H|H]; [exact H|].
  exfalso. pose proof (inner_self_zero d _ H) as Hz.
  pose proof (Hv k k Hk Hk) as H1.
  assert (E : mdot d (adjoint v) v k k = inner d (column v k) (column v k)) by reflexivity.
  rewrite E, Hz in H1. unfold identity in H1. rewrite Nat.eqb_refl in H1.
  apply (f_equal re) in H1. rsimp. lra.
Qed.

Lemma eigh_eigenvalue d (M : matrix C) (e : list R) v k :
  unitary2 d v ->
  (forall i k, (i < d)%nat -> (k < d)%nat ->
     mdot d M v i k = cmul (v i k) (cof (nth k e 0))) ->
  (k < d)%nat -> eigenvalue d M (cof (nth k e 0)).
Proof.
  intros Hv Hc Hk. exists (column v k). split; [apply column_nonzero; assumption|].
  intros i Hi. unfold column.
  change (mapply d M (fun i0 => v i0 k) i) with (mdot d M v i k).
  rewrite (Hc i k Hi Hk). apply cmul_comm.
Qed.

(** every eigenvalue of a decomposed Hermitian array is among the returned
    ones *)
Lemma eigenvalue_returned d (M : matrix C) (e : list R) v (m : R) :
  hermitian d M -> unitary2 d v ->
  (forall i k, (i < d)%nat -> (k < d)%nat ->
     mdot d M v i k = cmul (v i k) (cof (nth k e 0))) ->
  eigenvalue d M (cof m) ->
  exists k, (k < d)%nat /\ nth k e 0 = m.
Proof.
  intros HM Hv Hc [u [Hu He]].
  destruct (classic (exists k, (k < d)%nat /\ nth k e 0 = m)) as [H|H]; [exact H|].
  exfalso.
  assert (Hzero : forall k, (k < d)%nat -> inner d (column v k) u = c0).
  { intros k Hk.
    assert (H1 : inner d (column v k) (mapply d M u) =
                 cmul (inner d (column v k) u) (cof m)).
    { rewrite (inner_ext_r d _ _ (fun i => cmul (cof m) (u i))).
      - rewrite inner_scale_r. apply cmul_comm.
      - intros i Hi. apply (He i Hi). }
    assert (H2 : inner d (column v k) (mapply d M u) =
                 cmul (cof (nth k e 0)) (inner d (column v k) u)).
    { rewrite inner_adjoint.
      rewrite (inner_ext_l d _ (fun i => cmul (cof (nth k e 0)) (column v k i))).
      - unfold inner. rewrite <- csum_scale_l. apply csum_ext. intros i Hi. cx.
      - intros i Hi.
        rewrite (mapply_meq d (adjoint M) M); [|apply meq_sym; exact HM|exact Hi].
        unfold column.
        change (mapply d M (fun i0 => v i0 k) i) with (mdot d M v i k).
        rewrite (Hc i k Hi Hk). apply cmul_comm. }
    rewrite H1 in H2. symmetry in H2. apply real_factor_cases in H2.
    destruct H2 as [E|E]; [|exact E].
    exfalso. apply H. exists k. split; assumption. }
  destruct Hu as [i [Hi Hne]]. apply Hne.
  destruct Hv as [Hv1 _].
  rewrite <- (mapply_identity d u i Hi).
  rewrite <- (mapply_meq d _ _ u i Hv1 Hi).
  rewrite mapply_mdot. unfold mapply at 1.
  apply csum_zero. intros k Hk.
  change (mapply d (adjoint v) u k) with (inner d (column v k) u).
  rewrite (Hzero k Hk). apply cmul_0_r.
Qed.

Lemma range_In m a b : In m (range a b) <-> (a <= m < b)%Z.
Proof.
  unfold range. rewrite in_map_iff. split.
  - intros [i [<- Hi]]. apply in_seq in Hi. lia.
  - intros H. exists (Z.to_nat (m - a)). split; [lia|]. apply in_seq. lia.
Qed.

Lemma range_NoDup a b : NoDup (range a b).
Proof.
  unfold range. apply Finite.Injective_map_NoDup; [|apply seq_NoDup].
  intros i j H. lia.
Qed.

Lemma spectrum_list_NoDup L : NoDup (map IZR (range (- L) (L + 1))).
Proof.
  apply Finite.Injective_map_NoDup; [|apply range_NoDup].
  intros a b H. apply eq_IZR. exact H.
Qed.

(** for a unit axis the returned eigenvalues are -L, ..., L in some order *)
Lemma returned_spectrum L x y z (e : list R) v :
  (0 <= L)%Z -> x * x + y * y + z * z = 1 ->
  List.length e = SU.side L -> unitary2 (SU.side L) v ->
  (forall i k, (i < SU.side L)%nat -> (k < SU.side L)%nat ->
     mdot (SU.side L) (gen3 L x y z) v i k = cmul (v i k) (cof (nth k e 0))) ->
  Permutation (map IZR (range (- L) (L + 1))) e.
Proof.
  intros HL Hn He Hv Hc.
  apply NoDup_Permutation_bis.
  - apply spectrum_list_NoDup.
  - rewrite He, spectrum_list_length. lia.
  - intros r Hr. apply in_map_iff in Hr. destruct Hr as [m [<- Hm]].
    apply range_In in Hm.
    assert (Hev : eigenvalue (SU.side L) (gen3 L x y z) (cof (IZR m))).
    { apply (axis_spectrum L x y z); [assumption|assumption|].
      exists m. split; [lia|reflexivity]. }
    destruct (eigenvalue_returned _ _ e v (IZR m) (hermitian_gen3 L x y z) Hv Hc Hev)
      as [k [Hk Ek]].
    rewrite <- Ek. apply nth_In. lia.
Qed.

Lemma csum_shift (g : nat -> C) n :
  csum g (S n) = cadd (g 0%nat) (csum (fun k => g (S k)) n).
Proof.
  induction n as [|n IH]; [cbn [csum]; cx|].
  change (csum g (S (S n))) with (cadd (csum g (S n)) (g (S n))).
  rewrite IH. cbn [csum]. apply cadd_assoc.
Qed.

Lemma csum_lsum (f : R -> C) (l : list R) :
  csum (fun k => f (nth k l 0)) (List.length l) = lsum f l.
Proof.
  induction l as [|x l IH]; [reflexivity|].
  cbn [List.length]. rewrite csum_shift. cbn [nth lsum fold_right].
  f_equal. exact IH.
Qed.

Lemma lsum_perm (f : R -> C) (l l' : list R) :
  Permutation l l' -> lsum f l = lsum f l'.
Proof.
  induction 1 as [|x l l' _ IH|x y l|l l' l'' _ IH1 _ IH2]; cbn [lsum fold_right] in *.
  - reflexivity.
  - unfold lsum in IH. rewrite IH. reflexivity.
  - rewrite <- !cadd_assoc. f_equal. apply cadd_comm.
  - congruence.
Qed.

Lemma lsum_map {A : Type} (f : R -> C) (g : A -> R) (l : list A) :
  lsum f (map g l) = lsum (fun a => f (g a)) l.
Proof. induction l as [|a l IH]; cbn [lsum fold_right map]; [reflexivity|f_equal; exact IH]. Qed.

(** a sum over the returned eigenvalues is a sum over -L, ..., L *)
Lemma sum_over_spectrum L x y z (e : list R) v (f : R -> C) :
  (0 <= L)%Z -> x * x + y * y + z * z = 1 ->
  List.length e = SU.side L -> unitary2 (SU.side L) v ->
  (forall i k, (i < SU.side L)%nat -> (k < SU.side L)%nat ->
     mdot (SU.side L) (gen3 L x y z) v i k = cmul (v i k) (cof (nth k e 0))) ->
  csum (fun k => f (nth k e 0)) (SU.side L) =
  csum (fun j => f (IZR (Z.of_nat j - L))) (SU.side L).
Proof.
  intros HL Hn He Hv Hc.
  rewrite <- He at 1. rewrite csum_lsum.
  rewrite <- (lsum_perm f _ _ (returned_spectrum L x y z e v HL Hn He Hv Hc)).
  rewrite <- csum_lsum, spectrum_list_length.
  apply csum_ext. intros k Hk. rewrite spectrum_list_nth by assumption. reflexivity.
Qed.

(** ** Characters *)

Lemma trace_spectral d ang (e : list R) v :
  List.length e = d -> unitary2 d v ->
  Notebook.trace d (spectral d ang e v) = csum (fun k => phase ang (nth k e 0)) d.
Proof.
  intros He [_ Hv]. unfold Notebook.trace.
  rewrite (csum_ext _ (fun i => csum (fun k =>
             cmul (phase ang (nth k e 0)) (cmul (cconj (v i k)) (v i k))) d)).
  2:{ intros i Hi. rewrite spectral_mdot. unfold mdot at 1.
      apply csum_ext. intros k Hk. rewrite diag_mdot_l by assumption.
      unfold adjoint, mmap, transpose. generalize (v i k) (phase ang (nth k e 0)).
      intros a b. cx. }
  rewrite csum_swap. apply csum_ext. intros k Hk.
  rewrite csum_scale_l.
  change (csum (fun i => cmul (cconj (v i k)) (v i k)) d) with (mdot d (adjoint v) v k k).
  rewrite (Hv k k Hk Hk). unfold identity. rewrite Nat.eqb_refl. apply cmul_1_r.
Qed.

Lemma normalize_unit (x y z : R) :
  ~ (x = 0 /\ y = 0 /\ z = 0) ->
  exists a b c, SU.normalize [x; y; z] = [a; b; c] /\ a * a + b * b + c * c = 1.
Proof.
  intros Hnz. rewrite normalize_3.
  assert (Hpos : 0 < 0 + x * x + y * y + z * z).
  { destruct (Req_dec x 0) as [Ex|Ex]; destruct (Req_dec y 0) as [Ey|Ey];
      destruct (Req_dec z 0) as [Ez|Ez]; nra. }
  set (q := 0 + x * x + y * y + z * z) in *.
  pose proof (sqrt_lt_R0 _ Hpos) as Hs. pose proof (sqrt_sqrt q (Rlt_le _ _ Hpos)) as Hq.
  eexists. eexists. eexists. split; [reflexivity|].
  transitivity ((x * x + y * y + z * z) / (sqrt q * sqrt q)); [field; lra|].
  rewrite Hq. unfold q in *. field. lra.
Qed.

Lemma rotation_trace eigh (L : Z) (ang x y z : R) :
  (0 <= L)%Z -> x * x + y * y + z * z = 1 ->
  eigh_valid eigh (SU.side L) (SU.axis_generator (space L) [x; y; z]) ->
  exists R, SU._rotation eigh Cexp (space L) ang [x; y; z] = inr R /\
    Notebook.trace (SU.side L) R =
    csum (fun j => phase ang (IZR (Z.of_nat j - L))) (SU.side L).
Proof.
  intros HL Hn H.
  destruct (eigh_valid_inv _ _ _ H) as [e [v [E [He [Hv Hc]]]]].
  exists (spectral (SU.side L) ang e v).
  split; [apply (rotation_value eigh (space L) ang _ e v E)|].
  rewrite trace_spectral by assumption.
  apply (sum_over_spectrum L x y z e v (phase ang)); try assumption.
  intros i k Hi Hk. rewrite <- (Hc i k Hi Hk).
  apply mdot_ext_l. intros j. symmetry. apply axis_generator_gen3.
Qed.

(** ** Full turns *)

Lemma cos_sin_period_Z (x : R) (m : Z) :
  cos (x + 2 * PI * IZR m) = cos x /\ sin (x + 2 * PI * IZR m) = sin x.
Proof.
  destruct (Z.le_ge_cases 0 m) as [Hm|Hm].
  - rewrite <- (Z2Nat.id m Hm), <- INR_IZR_INZ.
    replace (x + 2 * PI * INR (Z.to_nat m)) with (x + 2 * INR (Z.to_nat m) * PI) by ring.
    split; [apply cos_period|apply sin_period].
  - set (k := Z.to_nat (- m)).
    assert (Em : IZR m = - INR k).
    { unfold k. rewrite INR_IZR_INZ, Z2Nat.id by lia. rewrite opp_IZR. ring. }
    rewrite Em.
    rewrite <- (cos_period (x + 2 * PI * - INR k) k), <- (sin_period (x + 2 * PI * - INR k) k).
    split; f_equal; ring.
Qed.

Lemma phase_full_turn (ang : R) (m : Z) :
  phase (ang + 2 * PI) (IZR m) = phase ang (IZR m).
Proof.
  unfold phase.
  replace ((ang + 2 * PI) * IZR m) with (ang * IZR m + 2 * PI * IZR m) by ring.
  destruct (cos_sin_period_Z (ang * IZR m) m) as [-> ->]. reflexivity.
Qed.

(** For a unit axis a full turn changes nothing: [_rotation] returns
    the same matrix for [ang + 2 pi] as for [ang], and the identity for
    [2 pi].  The bound [ang < 2 pi] asserted by [gen_op] therefore excludes
    no rotation.  Exact arithmetic. *)
Theorem rotation_full_turn eigh (L : Z) (ang x y z : R) :
  (0 <= L)%Z -> x * x + y * y + z * z = 1 ->
  eigh_valid eigh (SU.side L) (SU.axis_generator (space L) [x; y; z]) ->
  exists R R' R2,
    SU._rotation eigh Cexp (space L) ang [x; y; z] = inr R /\
    SU._rotation eigh Cexp (space L) (ang + 2 * PI) [x; y; z] = inr R' /\
    SU._rotation eigh Cexp (space L) (2 * PI) [x; y; z] = inr R2 /\
    meq (SU.side L) R' R /\ meq (SU.side L) R2 identity.
Proof.
  intros HL Hn H.
  destruct (eigh_valid_inv _ _ _ H) as [e [v [E [He [Hv Hc]]]]].
  set (d := SU.side L) in *.
  assert (Hint : forall k, (k < d)%nat -> exists m : Z, nth k e 0 = IZR m).
  { intros k Hk.
    pose proof (eigh_eigenvalue d _ e v k Hv Hc Hk) as Hev.
    apply (eigenvalue_meq d _ (gen3 L x y z)) in Hev.
    2:{ apply meq_of_eq. intros i j. apply axis_generator_gen3. }
    apply (axis_spectrum L x y z _ HL Hn) in Hev. destruct Hev as [m [_ Em]].
    exists m. apply (f_equal re) in Em. exact Em. }
  assert (Hper : forall a, meq d (spectral d (a + 2 * PI) e v) (spectral d a e v)).
  { intros a.
    eapply meq_trans; [apply meq_of_eq; intros i l; apply spectral_mdot|].
    eapply meq_trans; [|apply meq_sym; apply meq_of_eq; intros i l; apply spectral_mdot].
    apply mdot_meq; [apply meq_refl|]. intros k l Hk Hl.
    rewrite !diag_mdot_l by assumption.
    destruct (Hint k Hk) as [m ->]. rewrite phase_full_turn. reflexivity. }
  exists (spectral d ang e v), (spectral d (ang + 2 * PI) e v), (spectral d (2 * PI) e v).
  split; [apply (rotation_value eigh (space L) _ _ e v E)|].
  split; [apply (rotation_value eigh (space L) _ _ e v E)|].
  split; [apply (rotation_value eigh (space L) _ _ e v E)|].
  split; [apply Hper|].
  pose proof (Hper 0) as H0. rewrite Rplus_0_l in H0.
  eapply meq_trans; [exact H0|]. apply spectral_zero; assumption.
Qed.

Lemma rotation_full_turn_witness :
  (0 <= 1)%Z /\ 0 * 0 + 1 * 1 + 0 * 0 = 1 /\
  exists R R' R2,
    SU._rotation eigh_spin1 Cexp (space 1) 1 [0; 1; 0] = inr R /\
    SU._rotation eigh_spin1 Cexp (space 1) (1 + 2 * PI) [0; 1; 0] = inr R' /\
    SU._rotation eigh_spin1 Cexp (space 1) (2 * PI) [0; 1; 0] = inr R2 /\
    meq (SU.side 1) R' R /\ meq (SU.side 1) R2 identity.
Proof.
  assert (Hn : 0 * 0 + 1 * 1 + 0 * 0 = 1) by lra.
  split; [lia|]. split; [exact Hn|].
  apply (rotation_full_turn eigh_spin1 1 1 0 1 0); [lia|exact Hn|].
  apply eigh_spin1_valid. cbn. tauto.
Defined.

(** ** The second cell: characters and multiplicities *)

(** [__init__] sorts the eigenvalues it is given: every check passes when
    [eigvalsh] returns -L, ..., L in any order *)
Lemma init_checks_pass (L : Z) eigvalsh (mx my mz : list R) :
  (0 <= L)%Z ->
  let d := SU.side L in
  let spectrum := map IZR (range (- L) (L + 1)) in
  eigvalsh d (promote (SU.gen_Lx L)) = inr mx ->
  eigvalsh d (SU.gen_Ly L) = inr my ->
  eigvalsh d (promoteZ (SU.gen_Lz L)) = inr mz ->
  np_sort mx = spectrum -> np_sort my = spectrum -> np_sort mz = spectrum ->
  SU.__init__ (ops:=Exact.ops) eigvalsh (PyInt L) = inr (space L).
Proof.
  intros HL d spectrum Hx Hy Hz Sx Sy Sz. unfold SU.__init__.
  destruct (Z.leb_spec 0 L) as [_|]; [|lia].
  fold d. rewrite Hx, Hy, Hz. cbn [bind]. rewrite Sx, Sy, Sz.
  destruct (generator_sides L HL) as [S1 [S2 S3]].
  fold (SU.side L) in S1, S2, S3. fold d in S1, S2, S3.
  rewrite S1, S2, S3, Nat.eqb_refl. cbn [andb].
  rewrite (allclose_same d (SU.gen_Lx L) (transpose (SU.gen_Lx L)))
    by (intros i j _ _; unfold transpose; rewrite !Lx_entry; ring).
  rewrite (callclose_same d (SU.gen_Ly L) (adjoint (SU.gen_Ly L)) (hermitian_Ly L)).
  rewrite (allclose_same d (mmap of_Z (SU.gen_Lz L)) (transpose (mmap of_Z (SU.gen_Lz L)))).
  2:{ intros i j Hi Hj. unfold transpose, mmap, d, SU.side in *.
      rewrite !Lz_entry by lia. rewrite (Nat.eqb_sym j i).
      destruct (Nat.eqb_spec i j); subst; reflexivity. }
  cbn [andb].
  change (map of_Z (range (- L) (L + 1))) with spectrum.
  rewrite vallclose_same, !vallclose_zeros. reflexivity.
Qed.

Lemma init_ideal (L : Z) :
  (0 <= L)%Z -> SU.__init__ (ops:=Exact.ops) (ideal_eigvalsh L) (PyInt L) = inr (space L).
Proof.
  intros HL.
  assert (Hs : np_sort (ops:=Exact.ops) (map IZR (range (- L) (L + 1)))
               = map IZR (range (- L) (L + 1))).
  { unfold range. rewrite map_map. apply np_sort_ascending. }
  apply (init_checks_pass L (ideal_eigvalsh L) _ _ _ HL eq_refl eq_refl eq_refl Hs Hs Hs).
Qed.

Lemma normalize_unit_id (x y z : R) :
  x * x + y * y + z * z = 1 -> SU.normalize [x; y; z] = [x; y; z].
Proof.
  intros Hn. rewrite normalize_3.
  replace (0 + x * x + y * y + z * z) with 1 by lra. rewrite sqrt_1.
  apply list3_eq; field.
Qed.

Lemma alternating_sum (n : nat) : csum (fun j => cof ((-1) ^ j)) (S (2 * n)) = c1.
Proof.
  induction n as [|n IH]; [cbn; cx|].
  replace (S (2 * S n)) with (S (S (S (2 * n)))) by lia.
  change (csum (fun j => cof ((-1) ^ j)) (S (S (S (2 * n)))))
    with (cadd (cadd (csum (fun j => cof ((-1) ^ j)) (S (2 * n)))
                     (cof ((-1) ^ S (2 * n))))
               (cof ((-1) ^ S (S (2 * n))))).
  rewrite IH. cbn [pow]. generalize ((-1) ^ (2 * n)). intros p. cx.
Qed.

Lemma half_turn_character (L : Z) :
  (0 <= L)%Z ->
  csum (fun j => phase PI (IZR (Z.of_nat j - L))) (SU.side L) = cofZ ((-1) ^ L).
Proof.
  intros HL.
  rewrite (csum_ext _ (fun j => cmul (cofZ ((-1) ^ L)) (cof ((-1) ^ j)))).
  2:{ intros j _. pose proof (half_turn_phase L j HL) as H.
      unfold cofZ at 2 in H. cbn [of_Z Exact.ops] in H. rewrite pow_minus_one_Z in H.
      rewrite <- H. rewrite <- cmul_assoc.
      assert (Hs : cmul (cofZ ((-1) ^ L)) (cofZ ((-1) ^ L)) = c1).
      { unfold cofZ, cof. cbn [of_Z Exact.ops].
        rewrite <- (Z2Nat.id L HL), pow_minus_one_Z.
        pose proof (pow_minus_one_sqr (Z.to_nat L)) as Hq.
        apply c_eq; rsimp; [rewrite Hq; ring|ring]. }
      rewrite Hs. symmetry. apply cmul_1_l. }
  rewrite csum_scale_l. unfold SU.side.
  replace (Z.to_nat (2 * L + 1)) with (S (2 * Z.to_nat L)) by lia.
  rewrite alternating_sum. apply cmul_1_r.
Qed.

Lemma trace_identity (d : nat) : Notebook.trace d identity = cof (INR d).
Proof.
  unfold Notebook.trace. induction d as [|d IH]; [reflexivity|].
  cbn [csum]. rewrite IH, S_INR. unfold identity. rewrite Nat.eqb_refl. cx.
Qed.

Lemma half_turn_trace eigh (L : Z) (x y z : R) :
  (0 <= L)%Z -> x * x + y * y + z * z = 1 ->
  eigh_valid eigh (SU.side L) (SU.axis_generator (space L) [x; y; z]) ->
  exists R, SU.gen_op eigh Cexp (space L) PI [x; y; z] "Cn" = inr (RetMatrix R) /\
    Notebook.trace (SU.side L) R = cofZ ((-1) ^ L).
Proof.
  intros HL Hn H.
  assert (Hang : Rabs PI < 2 * PI).
  { pose proof PI_RGT_0. rewrite Rabs_pos_eq by lra. lra. }
  rewrite gen_op_Cn by assumption. rewrite normalize_unit_id by assumption.
  destruct (rotation_trace eigh L (Rabs PI) x y z HL Hn H) as [R [E HR]].
  exists R. rewrite E. split; [reflexivity|].
  rewrite HR. pose proof PI_RGT_0. rewrite Rabs_pos_eq by lra.
  apply half_turn_character. exact HL.
Qed.

(** The second cell of the notebook.  When [SU(L)] is constructed and
    the eigensolver decomposes [Lz], [Lx] and [Ly], the cell prints, for the
    four symmetry types of D2, the multiplicities
    [(2L + 1 + 3 (-1)^L) / 4] for A and [(2L + 1 - (-1)^L) / 4] for B1, B2
    and B3; for the notebook's [L = 2] these are 2, 1, 1, 1 (the D term
    splits as 2A + B1 + B2 + B3).  Exact arithmetic. *)
Theorem D2_multiplicities eigvalsh eigh (L : Z) :
  (0 <= L)%Z ->
  SU.__init__ eigvalsh (PyInt L) = inr (space L) ->
  eigh_valid eigh (SU.side L) (SU.axis_generator (space L) [0; 0; 1]) ->
  eigh_valid eigh (SU.side L) (SU.axis_generator (space L) [1; 0; 0]) ->
  eigh_valid eigh (SU.side L) (SU.axis_generator (space L) [0; 1; 0]) ->
  let s := IZR ((-1) ^ L) in
  let n := IZR (2 * L + 1) in
  exists printed proj_operators,
    Notebook.cell eigvalsh eigh Cexp L = inr (printed, proj_operators) /\
    printed = [("A"%string, (n + 3 * s) / 4); ("B1"%string, (n - s) / 4);
               ("B2"%string, (n - s) / 4); ("B3"%string, (n - s) / 4)] /\
    (L = Notebook.L ->
     printed = [("A"%string, 2); ("B1"%string, 1); ("B2"%string, 1); ("B3"%string, 1)]).
Proof.
  intros HL Hinit Hz Hx Hy s n.
  destruct (half_turn_trace eigh L 0 0 1 HL ltac:(lra) Hz) as [Cz [Ez Tz]].
  destruct (half_turn_trace eigh L 1 0 0 HL ltac:(lra) Hx) as [Cx [Ex Tx]].
  destruct (half_turn_trace eigh L 0 1 0 HL ltac:(lra) Hy) as [Cy [Ey Ty]].
  assert (Hcell : Notebook.cell eigvalsh eigh Cexp L =
    inr (map (fun row => (fst row,
                Notebook.dp [identity; Cz; Cy; Cx] (snd row)
                  (Notebook.chi (SU.side L) [identity; Cz; Cy; Cx])))
             Notebook.character_table_D2,
         map (fun row => (fst row, Notebook.projector [identity; Cz; Cy; Cx] (snd row)))
             Notebook.character_table_D2)).
  { unfold Notebook.cell, Notebook.D2_group. rewrite Hinit. cbn [bind].
    change (@fpi R Exact.ops) with PI. change (@f0 R Exact.ops) with 0.
    change (@f1 R Exact.ops) with 1.
    rewrite Ez. cbn [bind Notebook.as_array]. rewrite Ex. cbn [bind Notebook.as_array].
    rewrite Ey. reflexivity. }
  assert (Hprinted :
    map (fun row => (fst row,
           Notebook.dp [identity; Cz; Cy; Cx] (snd row)
             (Notebook.chi (SU.side L) [identity; Cz; Cy; Cx])))
        Notebook.character_table_D2
    = [("A"%string, (n + 3 * s) / 4); ("B1"%string, (n - s) / 4);
       ("B2"%string, (n - s) / 4); ("B3"%string, (n - s) / 4)]).
  { unfold Notebook.chi, Notebook.character_table_D2. cbn [map fst snd].
    rewrite Tz, Tx, Ty, trace_identity.
    assert (Hd : INR (SU.side L) = n).
    { unfold SU.side, n. rewrite INR_IZR_INZ, Z2Nat.id by lia. reflexivity. }
    unfold Notebook.dp, np_dot, np_sum, item. cbn. rsimp. rewrite Hd. fold s.
    repeat (f_equal; try (f_equal; field)). }
  eexists. eexists. split; [exact Hcell|]. split; [exact Hprinted|].
  intros ->. rewrite Hprinted. unfold n, s, Notebook.L.
  repeat (f_equal; try (f_equal; cbn; lra)).
Qed.

(** ** An eigensolver for [L = 2] *)

Ltac fin5 i H := destruct i as [|[|[|[|[|i]]]]]; [| | | | |exfalso; lia].

Lemma s6_sqr : s6 * s6 = 6.
Proof. apply sqrt_sqrt. lra. Qed.

Lemma s6_pos : 0 < s6.
Proof. apply sqrt_lt_R0. lra. Qed.

Lemma ladder_2 j :
  (j < 5)%nat -> ladder 2 j = nth j [2; s6; s6; 2; 0] 0.
Proof.
  intros Hj. unfold ladder. fin5 j Hj; cbn [nth]; cbn [Z.of_nat Pos.of_succ_nat Pos.succ].
  - replace (IZR ((0 + 1) * (2 * 2 - 0))) with (2 * 2) by (cbn; lra).
    apply sqrt_square. lra.
  - reflexivity.
  - reflexivity.
  - replace (IZR ((3 + 1) * (2 * 2 - 3))) with (2 * 2) by (cbn; lra).
    apply sqrt_square. lra.
  - replace (IZR ((4 + 1) * (2 * 2 - 4))) with 0 by (cbn; lra).
    apply sqrt_0.
Qed.

Lemma cL_2_table i j :
  (i < 5)%nat -> (j < 5)%nat ->
  cLx 2 i j = cof (nth j (nth i [[0; 1; 0; 0; 0]; [1; 0; s6 / 2; 0; 0];
                                 [0; s6 / 2; 0; s6 / 2; 0]; [0; 0; s6 / 2; 0; 1];
                                 [0; 0; 0; 1; 0]] []) 0) /\
  cLy 2 i j = mkC 0 (nth j (nth i [[0; 1; 0; 0; 0]; [- (1); 0; s6 / 2; 0; 0];
                                   [0; - (s6 / 2); 0; s6 / 2; 0];
                                   [0; 0; - (s6 / 2); 0; 1];
                                   [0; 0; 0; - (1); 0]] []) 0) /\
  cLz 2 i j = cof (nth j (nth i [[- (2); 0; 0; 0; 0]; [0; - (1); 0; 0; 0];
                                 [0; 0; 0; 0; 0]; [0; 0; 0; 1; 0];
                                 [0; 0; 0; 0; 2]] []) 0).
Proof.
  intros Hi Hj. split; [|split].
  - unfold cLx, promote, mmap. rewrite Lx_entry.
    fin5 i Hi; fin5 j Hj; cbn [Nat.eqb nth]; rewrite ?ladder_2 by lia; cbn [nth];
      f_equal; lra.
  - unfold cLy. rewrite Ly_entry.
    fin5 i Hi; fin5 j Hj; cbn [Nat.eqb nth]; rewrite ?ladder_2 by lia; cbn [nth];
      f_equal; lra.
  - rewrite cLz_entry by (cbn; lia).
    fin5 i Hi; fin5 j Hj; cbn [Nat.eqb nth]; cx.
Qed.

Lemma gen3_2_entry x y z i j :
  (i < 5)%nat -> (j < 5)%nat ->
  gen3 2 x y z i j =
  mkC (x * nth j (nth i [[0; 1; 0; 0; 0]; [1; 0; s6 / 2; 0; 0];
                         [0; s6 / 2; 0; s6 / 2; 0]; [0; 0; s6 / 2; 0; 1];
                         [0; 0; 0; 1; 0]] []) 0
       + z * nth j (nth i [[- (2); 0; 0; 0; 0]; [0; - (1); 0; 0; 0];
                           [0; 0; 0; 0; 0]; [0; 0; 0; 1; 0];
                           [0; 0; 0; 0; 2]] []) 0)
      (y * nth j (nth i [[0; 1; 0; 0; 0]; [- (1); 0; s6 / 2; 0; 0];
                         [0; - (s6 / 2); 0; s6 / 2; 0];
                         [0; 0; - (s6 / 2); 0; 1];
                         [0; 0; 0; - (1); 0]] []) 0).
Proof.
  intros Hi Hj. unfold gen3.
  destruct (cL_2_table i j Hi Hj) as [-> [-> ->]].
  apply c_eq; rsimp; ring.
Qed.

Lemma vx2_unitary : unitary2 5 vx2.
Proof.
  pose proof s6_sqr as Hs.
  split; intros i j Hi Hj; fin5 i Hi; fin5 j Hj;
    apply c_eq; cbn -[s6]; nra.
Qed.

Lemma vy2_unitary : unitary2 5 vy2.
Proof.
  pose proof s6_sqr as Hs.
  split; intros i j Hi Hj; fin5 i Hi; fin5 j Hj;
    apply c_eq; cbn -[s6]; nra.
Qed.

Ltac spin2_entries :=
  unfold mdot; cbn [csum];
  rewrite ?axis_generator_gen3, ?gen3_2_entry by lia.

(** [eigh_spin2] decomposes [Lx], [Ly] and [Lz] *)
Lemma eigh_spin2_valid (ax : list R) :
  In ax [[1; 0; 0]; [0; 1; 0]; [0; 0; 1]] ->
  eigh_valid eigh_spin2 5 (SU.axis_generator (space 2) ax).
Proof.
  pose proof s6_sqr as Hs.
  intros Hin. unfold eigh_valid, eigh_spin2.
  rewrite !axis_generator_gen3, !gen3_2_entry by lia.
  cbn [nth re im] in Hin |- *.
  repeat (destruct Hin as [<-|Hin]); [ | | |destruct Hin]; unfold item; cbn [nth];
    repeat match goal with
           | |- context [Rltb ?a ?b] =>
               first [rewrite (Rltb_true a b) by lra | rewrite (Rltb_false a b) by lra]
           end;
    (split; [reflexivity|]);
    (split; [first [apply vx2_unitary|apply vy2_unitary|apply identity_unitary]|]);
    intros i k Hi Hk; spin2_entries;
    fin5 i Hi; fin5 k Hk; apply c_eq; cbn -[s6]; nra.
Qed.

Lemma D2_multiplicities_witness :
  (0 <= 2)%Z /\
  exists printed proj_operators,
    Notebook.cell (ideal_eigvalsh 2) eigh_spin2 Cexp 2 = inr (printed, proj_operators) /\
    printed = [("A"%string, (IZR (2 * 2 + 1) + 3 * IZR ((-1) ^ 2)) / 4);
               ("B1"%string, (IZR (2 * 2 + 1) - IZR ((-1) ^ 2)) / 4);
               ("B2"%string, (IZR (2 * 2 + 1) - IZR ((-1) ^ 2)) / 4);
               ("B3"%string, (IZR (2 * 2 + 1) - IZR ((-1) ^ 2)) / 4)] /\
    (2%Z = Notebook.L ->
     printed = [("A"%string, 2); ("B1"%string, 1); ("B2"%string, 1); ("B3"%string, 1)]).
Proof.
  split; [lia|].
  apply (D2_multiplicities (ideal_eigvalsh 2) eigh_spin2 2).
  - lia.
  - apply (init_ideal 2). lia.
  - apply eigh_spin2_valid. cbn. tauto.
  - apply eigh_spin2_valid. cbn. tauto.
  - apply eigh_spin2_valid. cbn. tauto.
Defined.

(** ** The second cell: the projection operators *)

Lemma phase_PI_values :
  SU.phases Cexp PI [-2; -1; 0; 1; 2] =
  [mkC 1 0; mkC (-1) 0; mkC 1 0; mkC (-1) 0; mkC 1 0].
Proof.
  unfold SU.phases. cbn [map]. rewrite !phase_value.
  replace (PI * -2) with (- (2 * PI)) by lra. replace (PI * -1) with (- PI) by lra.
  replace (PI * 0) with 0 by lra. replace (PI * 1) with PI by lra.
  replace (PI * 2) with (2 * PI) by lra.
  rewrite !cos_neg, !sin_neg, cos_2PI, sin_2PI, cos_PI, sin_PI, cos_0, sin_0.
  repeat (f_equal; try lra).
Qed.

Lemma half_turn_x_table i j :
  (i < 5)%nat -> (j < 5)%nat ->
  spectral 5 PI [-2; -1; 0; 1; 2] vx2 i j =
  rows [[0; 0; 0; 0; 1]; [0; 0; 0; 1; 0]; [0; 0; 1; 0; 0]; [0; 1; 0; 0; 0];
        [1; 0; 0; 0; 0]] i j.
Proof.
  intros Hi Hj. unfold spectral, einsum3, rows. rewrite phase_PI_values.
  pose proof s6_sqr as Hs.
  fin5 i Hi; fin5 j Hj; apply c_eq; cbn -[s6]; nra.
Qed.

Lemma half_turn_y_table i j :
  (i < 5)%nat -> (j < 5)%nat ->
  spectral 5 PI [-2; -1; 0; 1; 2] vy2 i j =
  rows [[0; 0; 0; 0; 1]; [0; 0; 0; -1; 0]; [0; 0; 1; 0; 0]; [0; -1; 0; 0; 0];
        [1; 0; 0; 0; 0]] i j.
Proof.
  intros Hi Hj. unfold spectral, einsum3, rows. rewrite phase_PI_values.
  pose proof s6_sqr as Hs.
  fin5 i Hi; fin5 j Hj; apply c_eq; cbn -[s6]; nra.
Qed.

Lemma half_turn_z_table i j :
  (i < 5)%nat -> (j < 5)%nat ->
  spectral 5 PI [-2; -1; 0; 1; 2] identity i j =
  rows [[1; 0; 0; 0; 0]; [0; -1; 0; 0; 0]; [0; 0; 1; 0; 0]; [0; 0; 0; -1; 0];
        [0; 0; 0; 0; 1]] i j.
Proof.
  intros Hi Hj. unfold spectral, einsum3, rows. rewrite phase_PI_values.
  fin5 i Hi; fin5 j Hj; apply c_eq; cbn; lra.
Qed.

Lemma eigh_spin2_value (ax : list R) :
  In ax [[1; 0; 0]; [0; 1; 0]; [0; 0; 1]] ->
  eigh_spin2 5 (SU.axis_generator (space 2) ax) =
  inr ([-2; -1; 0; 1; 2],
       if Rltb 0 (item ax 0) then vx2 else if Rltb 0 (item ax 1) then vy2 else identity).
Proof.
  intros Hin. unfold eigh_spin2.
  rewrite !axis_generator_gen3, !gen3_2_entry by lia.
  cbn [nth re im] in Hin |- *.
  repeat (destruct Hin as [<-|Hin]); [ | | |destruct Hin]; unfold item; cbn [nth];
    repeat match goal with
           | |- context [Rltb ?a ?b] =>
               first [rewrite (Rltb_true a b) by lra | rewrite (Rltb_false a b) by lra]
           end; reflexivity.
Qed.

(** a half turn about a coordinate axis for [L = 2], whatever the
    eigensolver *)
Lemma half_turn_2 eigh (ax : list R) (x y z : R) :
  ax = [x; y; z] ->
  In ax [[1; 0; 0]; [0; 1; 0]; [0; 0; 1]] ->
  eigh_valid eigh 5 (SU.axis_generator (space 2) ax) ->
  exists R, SU.gen_op eigh Cexp (space 2) PI ax "Cn" = inr (RetMatrix R) /\
    meq 5 R (spectral 5 PI [-2; -1; 0; 1; 2]
               (if Rltb 0 x then vx2 else if Rltb 0 y then vy2 else identity)).
Proof.
  intros Eax Hin H.
  assert (Hang : Rabs PI < 2 * PI).
  { pose proof PI_RGT_0. rewrite Rabs_pos_eq by lra. lra. }
  assert (Hn : SU.normalize ax = ax).
  { subst ax. apply normalize_unit_id.
    cbn [In] in Hin. destruct Hin as [E|[E|[E|[]]]]; injection E as <- <- <-; lra. }
  destruct (rotation_unique eigh eigh_spin2 2 PI ax H (eigh_spin2_valid ax Hin))
    as [R [R' [E [E' HRR]]]].
  exists R. split.
  - subst ax. rewrite gen_op_Cn by assumption. rewrite Hn.
    pose proof PI_RGT_0. rewrite Rabs_pos_eq by lra. rewrite E. reflexivity.
  - eapply meq_trans; [exact HRR|].
    unfold SU._rotation in E'. change (SU.side (SU.L (space 2))) with 5%nat in E'.
    rewrite (eigh_spin2_value ax Hin) in E'. cbn [bind] in E'. injection E' as <-.
    subst ax. unfold item. cbn [nth]. apply meq_refl.
Qed.

(** The second cell of the notebook, for its [L = 2]: the four projection
    operators it stores.  Whatever eigendecompositions of [Lz], [Lx] and
    [Ly] the eigensolver returns, [proj_operators['A']] is the array printed
    in the third cell (2 in the four corners, 4 in the centre, 0 elsewhere:
    it projects on [|2,-2> + |2,2>] and on [|2,0>]); the operators of B1, B2
    and B3 are the arrays written out below.  Exact arithmetic. *)
Theorem D2_projection_operators eigvalsh eigh :
  SU.__init__ eigvalsh (PyInt Notebook.L) = inr (space Notebook.L) ->
  eigh_valid eigh 5 (SU.axis_generator (space Notebook.L) [0; 0; 1]) ->
  eigh_valid eigh 5 (SU.axis_generator (space Notebook.L) [1; 0; 0]) ->
  eigh_valid eigh 5 (SU.axis_generator (space Notebook.L) [0; 1; 0]) ->
  exists printed PA PB1 PB2 PB3,
    Notebook.cell eigvalsh eigh Cexp Notebook.L =
    inr (printed, [("A"%string, PA); ("B1"%string, PB1); ("B2"%string, PB2);
                   ("B3"%string, PB3)]) /\
    meq 5 PA (rows [[2; 0; 0; 0; 2]; [0; 0; 0; 0; 0]; [0; 0; 4; 0; 0]; [0; 0; 0; 0; 0];
                    [2; 0; 0; 0; 2]]) /\
    meq 5 PB1 (rows [[2; 0; 0; 0; -2]; [0; 0; 0; 0; 0]; [0; 0; 0; 0; 0]; [0; 0; 0; 0; 0];
                     [-2; 0; 0; 0; 2]]) /\
    meq 5 PB2 (rows [[0; 0; 0; 0; 0]; [0; 2; 0; -2; 0]; [0; 0; 0; 0; 0]; [0; -2; 0; 2; 0];
                     [0; 0; 0; 0; 0]]) /\
    meq 5 PB3 (rows [[0; 0; 0; 0; 0]; [0; 2; 0; 2; 0]; [0; 0; 0; 0; 0]; [0; 2; 0; 2; 0];
                     [0; 0; 0; 0; 0]]).
Proof.
  unfold Notebook.L. intros Hinit Hz Hx Hy.
  destruct (half_turn_2 eigh [0; 0; 1] 0 0 1 eq_refl ltac:(cbn; tauto) Hz) as [Cz [Ez Tz]].
  destruct (half_turn_2 eigh [1; 0; 0] 1 0 0 eq_refl ltac:(cbn; tauto) Hx) as [Cx [Ex Tx]].
  destruct (half_turn_2 eigh [0; 1; 0] 0 1 0 eq_refl ltac:(cbn; tauto) Hy) as [Cy [Ey Ty]].
  rewrite (Rltb_false 0 0) in Tz, Ty by lra.
  rewrite (Rltb_true 0 1) in Tx, Ty by lra.
  assert (Hcell : Notebook.cell eigvalsh eigh Cexp 2 =
    inr (map (fun row => (fst row,
                Notebook.dp [identity; Cz; Cy; Cx] (snd row)
                  (Notebook.chi (SU.side 2) [identity; Cz; Cy; Cx])))
             Notebook.character_table_D2,
         map (fun row => (fst row, Notebook.projector [identity; Cz; Cy; Cx] (snd row)))
             Notebook.character_table_D2)).
  { unfold Notebook.cell, Notebook.D2_group. rewrite Hinit. cbn [bind].
    change (@fpi R Exact.ops) with PI. change (@f0 R Exact.ops) with 0.
    change (@f1 R Exact.ops) with 1.
    rewrite Ez. cbn [bind Notebook.as_array]. rewrite Ex. cbn [bind Notebook.as_array].
    rewrite Ey. reflexivity. }
  eexists. eexists. eexists. eexists. eexists. split.
  { rewrite Hcell. unfold Notebook.character_table_D2. cbn [map fst snd]. reflexivity. }
  repeat split; intros i j Hi Hj;
    unfold Notebook.projector, madd, mmap2, cscale, mmap, item;
    cbn [List.length seq fold_left nth map];
    rewrite (Tz i j Hi Hj), (Tx i j Hi Hj), (Ty i j Hi Hj);
    rewrite half_turn_x_table, half_turn_y_table, half_turn_z_table by assumption;
    unfold rows, identity;
    fin5 i Hi; fin5 j Hj; apply c_eq; cbn; lra.
Qed.

Lemma D2_projection_operators_witness :
  exists printed PA PB1 PB2 PB3,
    Notebook.cell (ideal_eigvalsh 2) eigh_spin2 Cexp Notebook.L =
    inr (printed, [("A"%string, PA); ("B1"%string, PB1); ("B2"%string, PB2);
                   ("B3"%string, PB3)]) /\
    meq 5 PA (rows [[2; 0; 0; 0; 2]; [0; 0; 0; 0; 0]; [0; 0; 4; 0; 0]; [0; 0; 0; 0; 0];
                    [2; 0; 0; 0; 2]]) /\
    meq 5 PB1 (rows [[2; 0; 0; 0; -2]; [0; 0; 0; 0; 0]; [0; 0; 0; 0; 0]; [0; 0; 0; 0; 0];
                     [-2; 0; 0; 0; 2]]) /\
    meq 5 PB2 (rows [[0; 0; 0; 0; 0]; [0; 2; 0; -2; 0]; [0; 0; 0; 0; 0]; [0; -2; 0; 2; 0];
                     [0; 0; 0; 0; 0]]) /\
    meq 5 PB3 (rows [[0; 0; 0; 0; 0]; [0; 2; 0; 2; 0]; [0; 0; 0; 0; 0]; [0; 2; 0; 2; 0];
                     [0; 0; 0; 0; 0]]).
Proof.
  apply (D2_projection_operators (ideal_eigvalsh 2) eigh_spin2).
  - apply (init_ideal 2). lia.
  - apply eigh_spin2_valid. cbn. tauto.
  - apply eigh_spin2_valid. cbn. tauto.
  - apply eigh_spin2_valid. cbn. tauto.
Defined.

(** ** The sign of the normal *)

Lemma float_opp_involutive (x : float) : PrimFloat.opp (PrimFloat.opp x) = x.
Proof.
  apply Prim2SF_inj. rewrite !opp_spec.
  destruct (Prim2SF x) as [s|s| |s m e]; cbn; rewrite ?negb_involutive; reflexivity.
Qed.

Lemma float_sign_flip (c : float) :
  PrimFloat.ltb c 0 = true \/ PrimFloat.ltb 0 c = true ->
  PrimFloat.ltb (PrimFloat.opp c) 0 = negb (PrimFloat.ltb c 0).
Proof.
  rewrite !ltb_spec, opp_spec.
  change (Prim2SF 0) with (S754_zero false).
  destruct (Prim2SF c) as [s|s| |s m e]; cbn; try destruct s; cbn; intuition congruence.
Qed.

Lemma reflection_normal_float (a b c : float) :
  PrimFloat.ltb c 0 = true \/ PrimFloat.ltb 0 c = true ->
  SU.reflection_normal (ops:=IEEE.ops) (vneg [a; b; c]) = SU.reflection_normal [a; b; c].
Proof.
  intros Hc. unfold SU.reflection_normal, item, vneg.
  cbn [map nth fltb fneg IEEE.ops].
  change (@f0 float IEEE.ops) with 0%float.
  rewrite (float_sign_flip c Hc).
  destruct (PrimFloat.ltb c 0); cbn [negb map]; [reflexivity|].
  rewrite !float_opp_involutive. reflexivity.
Qed.

Lemma reflection_normal_exact (a b c : R) :
  c <> 0 ->
  SU.reflection_normal (ops:=Exact.ops) (vneg [a; b; c]) = SU.reflection_normal [a; b; c].
Proof.
  intros Hc. unfold SU.reflection_normal, item, vneg.
  cbn [map nth fltb fneg Exact.ops f0 of_Z].
  destruct (Rltb_spec c 0) as [H|H].
  - rewrite Rltb_false by lra. reflexivity.
  - rewrite Rltb_true by lra. cbn [map]. rewrite !Ropp_involutive. reflexivity.
Qed.

Lemma reflection_of_normal {F : Type} {ops : Float64 F} eigh cexp (self : SU.t)
      (n n' : list F) :
  SU.reflection_normal n = SU.reflection_normal n' ->
  SU._reflection eigh cexp self n = SU._reflection eigh cexp self n'.
Proof.
  intros H. unfold SU._reflection, SU.reflection_angle, SU.reflection_axis.
  rewrite H. reflexivity.
Qed.

Lemma normalize_vneg (x y z : R) :
  SU.normalize [- x; - y; - z] = vneg (SU.normalize [x; y; z]).
Proof.
  rewrite !normalize_3. unfold vneg. cbn [map fneg Exact.ops].
  replace (0 + - x * - x + - y * - y + - z * - z) with (0 + x * x + y * y + z * z) by ring.
  apply list3_eq; unfold Rdiv; ring.
Qed.

(** The sign of the normal does not matter to a reflection: when the
    third component is neither zero nor NaN, [_reflection] treats [-n] as
    [n] (it negates the one that points down), so the two calls return the
    same value, for every eigensolver, in binary64 and in exact arithmetic;
    and in exact arithmetic [gen_op] with type 'Sigma' returns the same for
    [(-x, -y, -z)] as for [(x, y, z)] when [z] is not 0. *)
Theorem reflection_ignores_normal_sign :
  (forall eigh cexp (self : SU.t) (a b c : float),
     PrimFloat.ltb c 0 = true \/ PrimFloat.ltb 0 c = true ->
     SU._reflection (ops:=IEEE.ops) eigh cexp self (vneg [a; b; c]) =
     SU._reflection (ops:=IEEE.ops) eigh cexp self [a; b; c]) /\
  (forall eigh cexp (self : SU.t) (a b c : R),
     c <> 0 ->
     SU._reflection (ops:=Exact.ops) eigh cexp self (vneg [a; b; c]) =
     SU._reflection (ops:=Exact.ops) eigh cexp self [a; b; c]) /\
  (forall eigh cexp (self : SU.t) (ang x y z : R),
     z <> 0 ->
     SU.gen_op (ops:=Exact.ops) eigh cexp self ang [- x; - y; - z] "Sigma" =
     SU.gen_op (ops:=Exact.ops) eigh cexp self ang [x; y; z] "Sigma").
Proof.
  split; [|split].
  - intros eigh cexp self a b c Hc. apply reflection_of_normal.
    apply reflection_normal_float. exact Hc.
  - intros eigh cexp self a b c Hc. apply reflection_of_normal.
    apply reflection_normal_exact. exact Hc.
  - intros eigh cexp self ang x y z Hz. unfold SU.gen_op.
    rewrite !normalize_length. cbn [List.length Nat.eqb andb].
    destruct (fltb (fabs ang) SU.two_pi); [|reflexivity].
    cbn [String.eqb Ascii.eqb Bool.eqb].
    rewrite normalize_vneg.
    rewrite (reflection_of_normal eigh cexp self (vneg (SU.normalize [x; y; z]))
                                  (SU.normalize [x; y; z])); [reflexivity|].
    rewrite normalize_3. apply reflection_normal_exact.
    assert (Hpos : 0 < 0 + x * x + y * y + z * z) by nra.
    pose proof (sqrt_lt_R0 _ Hpos) as Hs.
    unfold Rdiv. intros E. apply Rmult_integral in E. destruct E as [E|E]; [lra|].
    apply Rinv_neq_0_compat in E; [exact E|lra].
Qed.

Lemma reflection_ignores_normal_sign_witness :
  (PrimFloat.ltb (-2)%float 0 = true \/ PrimFloat.ltb 0 (-2)%float = true) /\
  SU._reflection (ops:=IEEE.ops) lapack_fails no_exp (SU.make 1) (vneg [1; 0; -2]%float) =
  SU._reflection (ops:=IEEE.ops) lapack_fails no_exp (SU.make 1) [1; 0; -2]%float /\
  2 <> 0 /\
  SU._reflection (ops:=Exact.ops) eigh_spin1 Cexp (space 1) (vneg [1; 0; 2]) =
  SU._reflection (ops:=Exact.ops) eigh_spin1 Cexp (space 1) [1; 0; 2] /\
  SU.gen_op (ops:=Exact.ops) eigh_spin1 Cexp (space 1) 1 [- 1; - 0; - 2] "Sigma" =
  SU.gen_op (ops:=Exact.ops) eigh_spin1 Cexp (space 1) 1 [1; 0; 2] "Sigma".
Proof.
  assert (H1 : PrimFloat.ltb (-2)%float 0 = true \/ PrimFloat.ltb 0 (-2)%float = true)
    by (left; reflexivity).
  assert (H2 : 2 <> 0) by lra.
  split; [exact H1|]. split.
  - apply (proj1 reflection_ignores_normal_sign lapack_fails no_exp (SU.make 1)
                 1%float 0%float (-2)%float H1).
  - split; [exact H2|]. split.
    + apply (proj1 (proj2 reflection_ignores_normal_sign) eigh_spin1 Cexp (space 1)
                   1 0 2 H2).
    + apply (proj2 (proj2 reflection_ignores_normal_sign) eigh_spin1 Cexp (space 1)
                   1 1 0 2 H2).
Defined.

(** ** A rotation about z turns the generators *)

Lemma phase_step (ang x : R) :
  cmul (phase ang (x + 1)) (cconj (phase ang x)) = phase ang 1 /\
  cmul (phase ang x) (cconj (phase ang (x + 1))) = cconj (phase ang 1) /\
  cmul (phase ang x) (cconj (phase ang x)) = c1.
Proof.
  unfold phase.
  replace (ang * (x + 1)) with (ang * x + ang) by ring. rewrite Rmult_1_r.
  rewrite cos_plus, sin_plus.
  pose proof (sin2_cos2 (ang * x)) as H. unfold Rsqr in H.
  set (c := cos (ang * x)) in *. set (s := sin (ang * x)) in *.
  set (ca := cos ang). set (sa := sin ang). clearbody c s ca sa.
  repeat split; apply c_eq; rsimp.
  - transitivity (ca * (s * s + c * c)); [ring|rewrite H; ring].
  - transitivity (- sa * (s * s + c * c)); [ring|rewrite H; ring].
  - transitivity (ca * (s * s + c * c)); [ring|rewrite H; ring].
  - transitivity (sa * (s * s + c * c)); [ring|rewrite H; ring].
  - transitivity (s * s + c * c); [ring|rewrite H; ring].
  - ring.
Qed.

Lemma diagonal_sandwich d (R A : matrix C) (f : nat -> C) i j :
  (forall i j, (i < d)%nat -> (j < d)%nat -> R i j = if (i =? j)%nat then f i else c0) ->
  (i < d)%nat -> (j < d)%nat ->
  mdot d R (mdot d A (adjoint R)) i j = cmul (cmul (f i) (cconj (f j))) (A i j).
Proof.
  intros HR Hi Hj. unfold mdot at 1.
  rewrite (csum_single _ d i Hi).
  - rewrite (HR i i Hi Hi), Nat.eqb_refl. unfold mdot.
    rewrite (csum_single _ d j Hj).
    + unfold adjoint, mmap, transpose. rewrite (HR j j Hj Hj), Nat.eqb_refl.
      generalize (f i) (f j) (A i j). intros a b c. cx.
    + intros k Hk Hne. unfold adjoint, mmap, transpose. rewrite (HR j k Hj Hk).
      destruct (Nat.eqb_spec j k); [congruence|]. cx.
  - intros k Hk Hne. rewrite (HR i k Hi Hk).
    destruct (Nat.eqb_spec i k); [congruence|]. apply cmul_0_l.
Qed.

(** A rotation about the z axis turns the generators as it turns a
    vector: with [R = _rotation(ang, [0, 0, 1])],
    [R Lx R^H = cos(ang) Lx + sin(ang) Ly],
    [R Ly R^H = -sin(ang) Lx + cos(ang) Ly] and [R Lz R^H = Lz].  Exact
    arithmetic, any eigendecomposition of [Lz]. *)
Theorem rotation_z_turns_generators eigh (L : Z) (ang : R) :
  (0 <= L)%Z ->
  eigh_valid eigh (SU.side L) (SU.axis_generator (space L) [0; 0; 1]) ->
  let d := SU.side L in
  exists R, SU._rotation eigh Cexp (space L) ang [0; 0; 1] = inr R /\
    meq d (mdot d R (mdot d (cLx L) (adjoint R)))
          (lin2 (cof (cos ang)) (cLx L) (cof (sin ang)) (cLy L)) /\
    meq d (mdot d R (mdot d (cLy L) (adjoint R)))
          (lin2 (cof (- sin ang)) (cLx L) (cof (cos ang)) (cLy L)) /\
    meq d (mdot d R (mdot d (cLz L) (adjoint R))) (cLz L).
Proof.
  intros HL H d.
  destruct (rotation_z_diagonal eigh L ang H) as [R [E HR]].
  exists R. split; [exact E|].
  assert (Hs : forall i j, (i < d)%nat -> (j < d)%nat -> forall A,
             mdot d R (mdot d A (adjoint R)) i j =
             cmul (cmul (phase ang (IZR (Z.of_nat i - L)))
                        (cconj (phase ang (IZR (Z.of_nat j - L))))) (A i j)).
  { intros i j Hi Hj A.
    apply (diagonal_sandwich d R A (fun i => phase ang (IZR (Z.of_nat i - L)))); assumption. }
  assert (Hup : forall j, IZR (Z.of_nat (S j) - L) = IZR (Z.of_nat j - L) + 1).
  { intros j. rewrite Nat2Z.inj_succ, !minus_IZR, succ_IZR. ring. }
  repeat split; intros i j Hi Hj; rewrite (Hs i j Hi Hj); unfold lin2.
  - unfold cLx, cLy, promote, mmap. rewrite Lx_entry, Ly_entry.
    destruct (Nat.eqb_spec i (S j)) as [->|Ha].
    + rewrite Hup. destruct (phase_step ang (IZR (Z.of_nat j - L))) as [-> _].
      destruct (Nat.eqb_spec j (S (S j))); [lia|]. unfold phase. rewrite Rmult_1_r. cx.
    + destruct (Nat.eqb_spec j (S i)) as [->|Hb]; [|cx].
      rewrite Hup. destruct (phase_step ang (IZR (Z.of_nat i - L))) as [_ [-> _]].
      unfold phase. rewrite Rmult_1_r. cx.
  - unfold cLx, cLy, promote, mmap. rewrite Lx_entry, Ly_entry.
    destruct (Nat.eqb_spec i (S j)) as [->|Ha].
    + rewrite Hup. destruct (phase_step ang (IZR (Z.of_nat j - L))) as [-> _].
      destruct (Nat.eqb_spec j (S (S j))); [lia|]. unfold phase. rewrite Rmult_1_r. cx.
    + destruct (Nat.eqb_spec j (S i)) as [->|Hb]; [|cx].
      rewrite Hup. destruct (phase_step ang (IZR (Z.of_nat i - L))) as [_ [-> _]].
      unfold phase. rewrite Rmult_1_r. cx.
  - rewrite cLz_entry by assumption.
    destruct (Nat.eqb_spec i j) as [->|Hne]; [|cx].
    destruct (phase_step ang (IZR (Z.of_nat j - L))) as [_ [_ ->]]. cx.
Qed.

Lemma rotation_z_turns_generators_witness :
  (0 <= 1)%Z /\
  exists R, SU._rotation eigh_spin1 Cexp (space 1) (PI / 2) [0; 0; 1] = inr R /\
    meq (SU.side 1) (mdot (SU.side 1) R (mdot (SU.side 1) (cLx 1) (adjoint R)))
          (lin2 (cof (cos (PI / 2))) (cLx 1) (cof (sin (PI / 2))) (cLy 1)) /\
    meq (SU.side 1) (mdot (SU.side 1) R (mdot (SU.side 1) (cLy 1) (adjoint R)))
          (lin2 (cof (- sin (PI / 2))) (cLx 1) (cof (cos (PI / 2))) (cLy 1)) /\
    meq (SU.side 1) (mdot (SU.side 1) R (mdot (SU.side 1) (cLz 1) (adjoint R))) (cLz 1).
Proof.
  split; [lia|].
  apply (rotation_z_turns_generators eigh_spin1 1 (PI / 2)); [lia|].
  apply eigh_spin1_valid. cbn. tauto.
Defined.

(** ** The second cell: the four operators form the group D2 *)

Lemma table_product (A B A' B' P : matrix C) :
  meq 5 A A' -> meq 5 B B' ->
  (forall i j, (i < 5)%nat -> (j < 5)%nat -> mdot 5 A' B' i j = P i j) ->
  forall P', meq 5 P' P -> meq 5 (mdot 5 A B) P'.
Proof.
  intros HA HB HP P' HP'.
  eapply meq_trans; [apply mdot_meq; eassumption|].
  eapply meq_trans; [|apply meq_sym; exact HP'].
  intros i j Hi Hj. apply HP; assumption.
Qed.

(** The list [D2_group] of the second cell is a representation of
    the group D2 on the D term: for the notebook's [L = 2] and whatever
    eigendecompositions the eigensolver returns, each of [Cz], [Cy], [Cx]
    squares to the identity [E] and the product of any two of them, in
    either order, is the third.  Exact arithmetic. *)
Theorem D2_group_table eigvalsh eigh :
  SU.__init__ eigvalsh (PyInt Notebook.L) = inr (space Notebook.L) ->
  eigh_valid eigh 5 (SU.axis_generator (space Notebook.L) [0; 0; 1]) ->
  eigh_valid eigh 5 (SU.axis_generator (space Notebook.L) [1; 0; 0]) ->
  eigh_valid eigh 5 (SU.axis_generator (space Notebook.L) [0; 1; 0]) ->
  exists Cz Cy Cx,
    Notebook.D2_group eigvalsh eigh Cexp Notebook.L = inr [identity; Cz; Cy; Cx] /\
    (meq 5 (mdot 5 Cz Cz) identity /\ meq 5 (mdot 5 Cy Cy) identity /\
     meq 5 (mdot 5 Cx Cx) identity) /\
    (meq 5 (mdot 5 Cz Cy) Cx /\ meq 5 (mdot 5 Cy Cz) Cx) /\
    (meq 5 (mdot 5 Cy Cx) Cz /\ meq 5 (mdot 5 Cx Cy) Cz) /\
    (meq 5 (mdot 5 Cx Cz) Cy /\ meq 5 (mdot 5 Cz Cx) Cy).
Proof.
  unfold Notebook.L. intros Hinit Hz Hx Hy.
  destruct (half_turn_2 eigh [0; 0; 1] 0 0 1 eq_refl ltac:(cbn; tauto) Hz) as [Cz [Ez Tz]].
  destruct (half_turn_2 eigh [1; 0; 0] 1 0 0 eq_refl ltac:(cbn; tauto) Hx) as [Cx [Ex Tx]].
  destruct (half_turn_2 eigh [0; 1; 0] 0 1 0 eq_refl ltac:(cbn; tauto) Hy) as [Cy [Ey Ty]].
  rewrite (Rltb_false 0 0) in Tz, Ty by lra.
  rewrite (Rltb_true 0 1) in Tx, Ty by lra.
  assert (Tz' := meq_trans _ _ _ _ Tz (fun i j Hi Hj => half_turn_z_table i j Hi Hj)).
  assert (Tx' := meq_trans _ _ _ _ Tx (fun i j Hi Hj => half_turn_x_table i j Hi Hj)).
  assert (Ty' := meq_trans _ _ _ _ Ty (fun i j Hi Hj => half_turn_y_table i j Hi Hj)).
  exists Cz, Cy, Cx. split.
  { unfold Notebook.D2_group. rewrite Hinit. cbn [bind].
    change (@fpi R Exact.ops) with PI. change (@f0 R Exact.ops) with 0.
    change (@f1 R Exact.ops) with 1.
    rewrite Ez. cbn [bind Notebook.as_array]. rewrite Ex. cbn [bind Notebook.as_array].
    rewrite Ey. reflexivity. }
  assert (Hid : meq 5 identity
                  (rows [[1; 0; 0; 0; 0]; [0; 1; 0; 0; 0]; [0; 0; 1; 0; 0]; [0; 0; 0; 1; 0];
                         [0; 0; 0; 0; 1]])).
  { intros i j Hi Hj. unfold rows, identity. fin5 i Hi; fin5 j Hj; reflexivity. }
  repeat split;
    match goal with
    | |- meq 5 (mdot 5 ?A ?B) ?P =>
        eapply (table_product A B); [eassumption|eassumption| |eassumption];
        intros i j Hi Hj; unfold mdot, rows;
        fin5 i Hi; fin5 j Hj; apply c_eq; cbn; lra
    end.
Qed.

Lemma D2_group_table_witness :
  exists Cz Cy Cx,
    Notebook.D2_group (ideal_eigvalsh 2) eigh_spin2 Cexp Notebook.L
    = inr [identity; Cz; Cy; Cx] /\
    (meq 5 (mdot 5 Cz Cz) identity /\ meq 5 (mdot 5 Cy Cy) identity /\
     meq 5 (mdot 5 Cx Cx) identity) /\
    (meq 5 (mdot 5 Cz Cy) Cx /\ meq 5 (mdot 5 Cy Cz) Cx) /\
    (meq 5 (mdot 5 Cy Cx) Cz /\ meq 5 (mdot 5 Cx Cy) Cz) /\
    (meq 5 (mdot 5 Cx Cz) Cy /\ meq 5 (mdot 5 Cz Cx) Cy).
Proof.
  apply (D2_group_table (ideal_eigvalsh 2) eigh_spin2).
  - apply (init_ideal 2). lia.
  - apply eigh_spin2_valid. cbn. tauto.
  - apply eigh_spin2_valid. cbn. tauto.
  - apply eigh_spin2_valid. cbn. tauto.
Defined.

(** ** Axes and normals of unit length

    [gen_op] normalises what it is given, and on binary64 that goes wrong
    for an axis whose squares underflow or overflow (see
    [rotate_tiny_axis_is_nan] and [normalisation_out_of_range]).  The
    statements below are for unit vectors, for which the normalisation only
    rounds, and, where [_reflection] divides by the length of [z_hat x n],
    for normals that are [tilted]. *)

Lemma tilt_bound : 0 < 1 / 10 ^ 100 <= 1 / 10.
Proof.
  assert (H1 : 1 <= 10 ^ 99) by (apply pow_R1_Rle; lra).
  assert (H2 : 10 ^ 100 = 10 * 10 ^ 99) by reflexivity.
  assert (H3 : 0 < 10 ^ 100) by (rewrite H2; nra).
  split.
  - apply Rdiv_lt_0_compat; lra.
  - unfold Rdiv. rewrite !Rmult_1_l. apply Rinv_le_contravar; [lra|rewrite H2; nra].
Qed.

Lemma tilted_off_axis x y z : tilted x y z -> ~ (x = 0 /\ y = 0).
Proof.
  intros [_ H] [Hx Hy]. subst. pose proof tilt_bound.
  replace (0 * 0 + 0 * 0) with 0 in H by ring. lra.
Qed.

Lemma tilted_345 : tilted (3 / 5) 0 (4 / 5).
Proof. pose proof tilt_bound. split; lra. Qed.

Lemma tilted_010 : tilted 0 1 0.
Proof. pose proof tilt_bound. split; lra. Qed.

Lemma axis_345 : SU.reflection_axis (ops:=Exact.ops) [3 / 5; 0; 4 / 5] = [0; 1; 0].
Proof.
  unfold SU.reflection_axis, SU.reflection_normal, item. cbn [nth fltb Exact.ops f0 of_Z].
  rewrite Rltb_false by lra.
  unfold np_cross, np_dot, np_sum, SU.ax_XY, vscale_div, item. cbn. rsimp.
  replace (0 + (0 * (4 / 5) - 1 * 0) * (0 * (4 / 5) - 1 * 0)
           + (1 * (3 / 5) - 0 * (4 / 5)) * (1 * (3 / 5) - 0 * (4 / 5))
           + (0 * 0 - 0 * (3 / 5)) * (0 * 0 - 0 * (3 / 5)))
    with ((3 / 5) * (3 / 5)) by field.
  rewrite sqrt_square by lra. apply list3_eq; field.
Qed.

Lemma angle_345 : SU.reflection_angle (ops:=Exact.ops) [3 / 5; 0; 4 / 5] = 4 / 5.
Proof.
  unfold SU.reflection_angle, SU.reflection_normal, item. cbn [nth fltb Exact.ops f0 of_Z].
  rewrite Rltb_false by lra.
  unfold np_dot, np_sum, SU.ax_XY, vsquare. cbn. rsimp.
  replace (0 + 3 / 5 * (3 / 5) + 0 * 0 + 4 / 5 * (4 / 5)) with 1 by field.
  rewrite sqrt_1. field.
Qed.

(** For a unit normal tilted off the z axis, the rotation axis [_reflection]
    computes is a unit vector and the matrix it returns squares to the
    identity.  Exact arithmetic; the eigensolver is assumed to return a
    unitary array of eigenvectors. *)
Theorem reflection_involution eigh (L : Z) (x y z : R) :
  let n := [x; y; z] in
  tilted x y z ->
  eigh_ok eigh (SU.side L) (SU.axis_generator (space L) (SU.reflection_axis n)) ->
  np_dot (SU.reflection_axis n) (SU.reflection_axis n) = 1 /\
  exists S, SU._reflection eigh Cexp (space L) n = inr S /\
            meq (SU.side L) (mdot (SU.side L) S S) identity.
Proof.
  intros n Ht H. split.
  - apply reflection_axis_unit. apply (tilted_off_axis x y z Ht).
  - destruct (reflection_properties eigh L n H) as [S [E [Hh [Hu _]]]].
    exists S. split; [exact E|].
    eapply meq_trans; [|exact Hu].
    apply mdot_meq; [apply meq_refl|exact Hh].
Qed.

Lemma reflection_involution_witness :
  tilted (3 / 5) 0 (4 / 5) /\
  SU.reflection_angle (ops:=Exact.ops) [3 / 5; 0; 4 / 5] = 4 / 5 /\
  np_dot (SU.reflection_axis [3 / 5; 0; 4 / 5]) (SU.reflection_axis [3 / 5; 0; 4 / 5]) = 1 /\
  exists S, SU._reflection eigh_spin1 Cexp (space 1) [3 / 5; 0; 4 / 5] = inr S /\
            meq (SU.side 1) (mdot (SU.side 1) S S) identity.
Proof.
  split; [exact tilted_345|]. split; [exact angle_345|].
  apply (reflection_involution eigh_spin1 1 (3 / 5) 0 (4 / 5) tilted_345).
  rewrite axis_345. apply spin1_ok. cbn. tauto.
Defined.

(** For a unit normal tilted off the z axis, the matrix [gen_op] returns for
    type 'Sigma' is Hermitian and unitary.  Exact arithmetic; the
    eigensolver is assumed to return a unitary array of eigenvectors for the
    generator along [z_hat x n]. *)
Theorem reflection_hermitian_unitary eigh (L : Z) (ang x y z : R) :
  tilted x y z -> Rabs ang < 2 * PI ->
  eigh_ok eigh (SU.side L)
    (SU.axis_generator (space L) (SU.reflection_axis [x; y; z])) ->
  exists S, SU.gen_op eigh Cexp (space L) ang [x; y; z] "Sigma" = inr (RetMatrix S) /\
            hermitian (SU.side L) S /\ unitary (SU.side L) S.
Proof.
  intros [Hn _] Hang H. rewrite gen_op_Sigma by assumption.
  rewrite normalize_unit_id by exact Hn.
  destruct (reflection_properties eigh L _ H) as [S [E [Hh [Hu _]]]].
  exists S. rewrite E. split; [reflexivity|]. split; assumption.
Qed.

Lemma reflection_hermitian_unitary_witness :
  tilted (3 / 5) 0 (4 / 5) /\ Rabs 1 < 2 * PI /\
  SU.reflection_angle (ops:=Exact.ops) [3 / 5; 0; 4 / 5] = 4 / 5 /\
  exists S, SU.gen_op eigh_spin1 Cexp (space 1) 1 [3 / 5; 0; 4 / 5] "Sigma"
            = inr (RetMatrix S) /\
            hermitian (SU.side 1) S /\ unitary (SU.side 1) S.
Proof.
  split; [exact tilted_345|]. split; [exact spin1_angle|]. split; [exact angle_345|].
  apply (reflection_hermitian_unitary eigh_spin1 1 1 (3 / 5) 0 (4 / 5) tilted_345 spin1_angle).
  rewrite axis_345. apply spin1_ok. cbn. tauto.
Defined.

(** For every unit normal in the XY plane (a vertical mirror plane)
    [gen_op] with type 'Sigma' returns the reference reflection [SigmaXY]
    itself, whatever the direction of the normal in that plane: the value
    bound to [ang] in [_reflection] is the cosine [z_hat . n], which is 0
    there, and it is used as the rotation angle.  Exact arithmetic. *)
Theorem vertical_mirror_returns_SigmaXY eigh (L : Z) (ang x y : R) :
  x * x + y * y = 1 -> Rabs ang < 2 * PI ->
  eigh_ok eigh (SU.side L)
    (SU.axis_generator (space L) (SU.reflection_axis [x; y; 0])) ->
  exists S, SU.gen_op eigh Cexp (space L) ang [x; y; 0] "Sigma" = inr (RetMatrix S) /\
            meq (SU.side L) S (promoteZ (SU.SigmaXY (space L))).
Proof.
  intros Hn Hang H.
  assert (Hid : SU.normalize [x; y; 0] = [x; y; 0]) by (apply normalize_unit_id; lra).
  rewrite gen_op_Sigma by assumption. rewrite Hid.
  destruct (reflection_properties eigh L _ H) as [S [E [_ [_ HS]]]].
  exists S. rewrite E. split; [reflexivity|].
  apply HS. rewrite <- Hid. apply reflection_angle_in_plane.
Qed.

Lemma vertical_mirror_returns_SigmaXY_witness :
  0 * 0 + 1 * 1 = 1 /\ Rabs 1 < 2 * PI /\
  exists S, SU.gen_op eigh_spin1 Cexp (space 1) 1 [0; 1; 0] "Sigma" = inr (RetMatrix S) /\
            meq (SU.side 1) S (promoteZ (SU.SigmaXY (space 1))).
Proof.
  assert (H : 0 * 0 + 1 * 1 = 1) by lra.
  split; [exact H|]. split; [exact spin1_angle|].
  apply (vertical_mirror_returns_SigmaXY eigh_spin1 1 1 0 1 H spin1_angle).
  rewrite axis_010. apply spin1_ok. cbn. tauto.
Defined.

(** For a unit vector tilted off the z axis, [gen_op] with type 'Sn'
    returns the product [S . R] of the matrices it returns for 'Sigma' and
    for 'Cn' with the same arguments; [S], [R] and the product are unitary.
    Exact arithmetic; the eigensolver is assumed to return unitary arrays of
    eigenvectors for the two generators. *)
Theorem improper_rotation_unitary eigh (L : Z) (ang x y z : R) :
  tilted x y z -> Rabs ang < 2 * PI ->
  eigh_ok eigh (SU.side L) (SU.axis_generator (space L) [x; y; z]) ->
  eigh_ok eigh (SU.side L)
    (SU.axis_generator (space L) (SU.reflection_axis [x; y; z])) ->
  exists S R,
    SU.gen_op eigh Cexp (space L) ang [x; y; z] "Sigma" = inr (RetMatrix S) /\
    SU.gen_op eigh Cexp (space L) ang [x; y; z] "Cn" = inr (RetMatrix R) /\
    SU.gen_op eigh Cexp (space L) ang [x; y; z] "Sn"
    = inr (RetMatrix (mdot (SU.side L) S R)) /\
    unitary (SU.side L) S /\ unitary (SU.side L) R /\
    unitary (SU.side L) (mdot (SU.side L) S R).
Proof.
  intros [Hn _] Hang Hrot Href.
  destruct (reflection_properties eigh L _ Href) as [S [ES [_ [HS _]]]].
  destruct (rotation_unitary eigh (space L) (Rabs ang) _ Hrot) as [R [ER HR]].
  exists S, R. rewrite gen_op_Sigma, gen_op_Cn by assumption.
  rewrite (normalize_unit_id x y z Hn). rewrite ES, ER.
  split; [reflexivity|]. split; [reflexivity|]. split.
  - unfold SU.gen_op. rewrite normalize_length. cbn [List.length Nat.eqb andb].
    replace (fltb (fabs ang) SU.two_pi) with true
      by (symmetry; apply Rltb_true; exact Hang).
    cbn [String.eqb Ascii.eqb Bool.eqb]. cbn [fabs Exact.ops].
    rewrite (normalize_unit_id x y z Hn). rewrite ES, ER. reflexivity.
  - split; [exact HS|]. split; [exact HR|]. apply unitary_mdot; assumption.
Qed.

Lemma improper_rotation_unitary_witness :
  tilted 0 1 0 /\ Rabs 1 < 2 * PI /\
  exists S R,
    SU.gen_op eigh_spin1 Cexp (space 1) 1 [0; 1; 0] "Sigma" = inr (RetMatrix S) /\
    SU.gen_op eigh_spin1 Cexp (space 1) 1 [0; 1; 0] "Cn" = inr (RetMatrix R) /\
    SU.gen_op eigh_spin1 Cexp (space 1) 1 [0; 1; 0] "Sn"
    = inr (RetMatrix (mdot (SU.side 1) S R)) /\
    unitary (SU.side 1) S /\ unitary (SU.side 1) R /\
    unitary (SU.side 1) (mdot (SU.side 1) S R).
Proof.
  split; [exact tilted_010|]. split; [exact spin1_angle|].
  apply (improper_rotation_unitary eigh_spin1 1 1 0 1 0 tilted_010 spin1_angle).
  - apply spin1_ok. cbn. tauto.
  - rewrite axis_010. apply spin1_ok. cbn. tauto.
Defined.

(** A rotation about the z axis is diagonal in the basis of the class:
    [gen_op(ang, [0, 0, 1])] returns [diag(exp(-i |ang| m))],
    [m = -L, ..., L], whatever eigendecomposition of [Lz] the eigensolver
    returns.  Exact arithmetic. *)
Theorem rotation_about_z eigh (L : Z) (ang : R) :
  (0 <= L)%Z -> Rabs ang < 2 * PI ->
  eigh_valid eigh (SU.side L) (SU.axis_generator (space L) [0; 0; 1]) ->
  exists R, SU.gen_op eigh Cexp (space L) ang [0; 0; 1] "Cn" = inr (RetMatrix R) /\
    forall i j, (i < SU.side L)%nat -> (j < SU.side L)%nat ->
      R i j = if (i =? j)%nat then phase (Rabs ang) (IZR (Z.of_nat i - L)) else c0.
Proof.
  intros _ Hang H. rewrite gen_op_Cn by assumption.
  rewrite normalize_z by lra.
  destruct (rotation_z_diagonal eigh L (Rabs ang) H) as [R [E HR]].
  exists R. rewrite E. split; [reflexivity|exact HR].
Qed.

Lemma rotation_about_z_witness :
  (0 <= 1)%Z /\ Rabs (-1) < 2 * PI /\
  exists R, SU.gen_op eigh_spin1 Cexp (space 1) (-1) [0; 0; 1] "Cn" = inr (RetMatrix R) /\
    forall i j, (i < SU.side 1)%nat -> (j < SU.side 1)%nat ->
      R i j = if (i =? j)%nat then phase (Rabs (-1)) (IZR (Z.of_nat i - 1)) else c0.
Proof.
  assert (Hang : Rabs (-1) < 2 * PI).
  { rewrite Rabs_left by lra. pose proof PI2_1. lra. }
  split; [lia|]. split; [exact Hang|].
  apply (rotation_about_z eigh_spin1 1 (-1)); [lia|exact Hang|].
  apply eigh_spin1_valid. cbn. tauto.
Defined.

(** The character of a rotation depends on its angle only: for every unit
    axis and every angle of absolute value below [2 pi] the trace of the
    matrix [gen_op] returns for type 'Cn' is the sum of [exp(-i |ang| m)]
    over [m = -L, ..., L], whatever the direction of the axis and whatever
    eigendecomposition the eigensolver returns.  Exact arithmetic. *)
Theorem rotation_character eigh (L : Z) (ang x y z : R) :
  (0 <= L)%Z -> x * x + y * y + z * z = 1 -> Rabs ang < 2 * PI ->
  eigh_valid eigh (SU.side L) (SU.axis_generator (space L) [x; y; z]) ->
  exists R, SU.gen_op eigh Cexp (space L) ang [x; y; z] "Cn" = inr (RetMatrix R) /\
    Notebook.trace (SU.side L) R =
    csum (fun j => phase (Rabs ang) (IZR (Z.of_nat j - L))) (SU.side L).
Proof.
  intros HL Hn Hang H. rewrite gen_op_Cn by assumption.
  rewrite normalize_unit_id by exact Hn.
  destruct (rotation_trace eigh L (Rabs ang) x y z HL Hn H) as [R [E HR]].
  exists R. rewrite E. split; [reflexivity|exact HR].
Qed.

Lemma rotation_character_witness :
  (0 <= 1)%Z /\ 0 * 0 + 1 * 1 + 0 * 0 = 1 /\ Rabs 1 < 2 * PI /\
  exists R, SU.gen_op eigh_spin1 Cexp (space 1) 1 [0; 1; 0] "Cn" = inr (RetMatrix R) /\
    Notebook.trace (SU.side 1) R =
    csum (fun j => phase (Rabs 1) (IZR (Z.of_nat j - 1))) (SU.side 1).
Proof.
  assert (Hn : 0 * 0 + 1 * 1 + 0 * 0 = 1) by lra.
  split; [lia|]. split; [exact Hn|]. split; [exact spin1_angle|].
  apply (rotation_character eigh_spin1 1 1 0 1 0); [lia|exact Hn|exact spin1_angle|].
  apply eigh_spin1_valid. cbn. tauto.
Defined.

(** Only the direction of the axis matters, for lengths whose squares stay
    in range: multiplying a unit axis by a factor between [1e-9] and [1e9]
    does not change what [gen_op] returns, for every angle, operator type
    and eigensolver.  Exact arithmetic. *)
Theorem gen_op_axis_scale eigh cexp (self : SU.t) (ang s x y z : R) (op_type : string) :
  x * x + y * y + z * z = 1 -> 1 / 10 ^ 9 <= s <= 10 ^ 9 ->
  SU.gen_op (ops:=Exact.ops) eigh cexp self ang [s * x; s * y; s * z] op_type =
  SU.gen_op (ops:=Exact.ops) eigh cexp self ang [x; y; z] op_type.
Proof.
  intros Hn [Hs _].
  assert (H9 : 0 < 1 / 10 ^ 9) by (apply Rdiv_lt_0_compat; [lra|apply pow_lt; lra]).
  unfold SU.gen_op. rewrite normalize_scaled; [reflexivity|lra|].
  intros [-> [-> ->]]. lra.
Qed.

Lemma gen_op_axis_scale_witness :
  0 * 0 + 1 * 1 + 0 * 0 = 1 /\ 1 / 10 ^ 9 <= 3 <= 10 ^ 9 /\
  SU.gen_op (ops:=Exact.ops) eigh_spin1 Cexp (space 1) 1 [3 * 0; 3 * 1; 3 * 0] "Sn" =
  SU.gen_op (ops:=Exact.ops) eigh_spin1 Cexp (space 1) 1 [0; 1; 0] "Sn".
Proof.
  assert (Hn : 0 * 0 + 1 * 1 + 0 * 0 = 1) by lra.
  assert (Hs : 1 / 10 ^ 9 <= 3 <= 10 ^ 9) by (cbn [pow]; lra).
  split; [exact Hn|]. split; [exact Hs|].
  apply (gen_op_axis_scale eigh_spin1 Cexp (space 1) 1 3 0 1 0 "Sn" Hn Hs).
Defined.
